(** * Sensor monitoring platform: linked container, sensors, serial line reader

    Shallow embedding of the C++ sources [Nodo.h], [ListaSensor.h],
    [SensorBase.h], [SensorTemperatura.h], [SensorPresion.h], [SerialPort.h]
    and of the capture loop of [main.cpp].

    The container is embedded over an explicit heap of nodes: a
    [ListaSensor] object holds a pointer to its first node and an [int]
    counter, every node holds its datum and the pointer to the next node.
    Loops that chase pointers are bounded by the size of the heap: a walk
    that needs more steps than there are allocated nodes runs in a cycle, and
    the C++ loop would not return. *)

From Stdlib Require Import ZArith Ascii String.
From Stdlib Require Import Floats.SpecFloat.
From stdpp Require Import gmap list strings.

Local Open Scope Z_scope.

(** ** Machine integers *)

(** [int] is 32 bits wide.  The increments and sums of the sources are
    written with the representative in [-2^31, 2^31) of the exact result
    (what the target machines compute). *)
Definition INT_MIN : Z := - 2 ^ 31.
Definition INT_MAX : Z := 2 ^ 31 - 1.

Definition envolver (z : Z) : Z := (z + 2 ^ 31) mod 2 ^ 32 - 2 ^ 31.

Definition enRango (z : Z) : Prop := INT_MIN ≤ z ≤ INT_MAX.

(** ** Heap addresses *)

Abbreviation dir := positive.

(** ** [Nodo.h] and [ListaSensor.h] *)

Module Lista.
Section Plantilla.

(** The template parameter. *)
Context {T : Type}.

(** [struct Nodo]: the stored datum and the pointer to the next node
    ([None] is [nullptr]). *)
Record Nodo : Type := mkNodo { dato : T; siguiente : option dir }.

(** The two private fields of [class ListaSensor]. *)
Record ListaSensor : Type := mkLista { primero : option dir; elementos : Z }.

(** The memory seen by one instantiation of the template: the nodes
    obtained with [new Nodo<T>] and the live [ListaSensor<T>] objects, each
    under its address. *)
Record Memoria : Type := mkMemoria {
  nodos : gmap dir Nodo;
  listas : gmap dir ListaSensor
}.

(** Computations over the memory.  [None] stands for an execution without
    a result: a dereference of a pointer that is not allocated, or a loop
    that does not end. *)
Definition Accion (A : Type) : Type := Memoria → option (A * Memoria).

Definition retornar {A} (a : A) : Accion A := λ m, Some (a, m).

Definition ligar {A B} (c : Accion A) (k : A → Accion B) : Accion B :=
  λ m, match c m with
       | Some (a, m') => k a m'
       | None => None
       end.

Definition fallar {A} : Accion A := λ _, None.

#[global] Instance accion_ret : MRet Accion := @retornar.
#[global] Instance accion_bind : MBind Accion := λ A B k c, ligar c k.

(** *** Primitive accesses *)

(** [new Nodo<T>(contenido)]: a node at an address that is not in use, with
    a null [siguiente].  The address is the one [fresh] picks; the proofs use
    of it only that it is not in use. *)
Definition nuevoNodo (contenido : T) : Accion dir :=
  λ m, let a := fresh (dom (nodos m)) in
       Some (a, mkMemoria (<[a := mkNodo contenido None]> (nodos m)) (listas m)).

Definition leerNodo (a : dir) : Accion Nodo :=
  λ m, n ← nodos m !! a; Some (n, m).

Definition escribirNodo (a : dir) (n : Nodo) : Accion unit :=
  λ m, _ ← nodos m !! a;
       Some (tt, mkMemoria (<[a := n]> (nodos m)) (listas m)).

(** [delete temporal]. *)
Definition liberarNodo (a : dir) : Accion unit :=
  λ m, _ ← nodos m !! a;
       Some (tt, mkMemoria (delete a (nodos m)) (listas m)).

Definition leerLista (this : dir) : Accion ListaSensor :=
  λ m, l ← listas m !! this; Some (l, m).

Definition escribirLista (this : dir) (l : ListaSensor) : Accion unit :=
  λ m, _ ← listas m !! this;
       Some (tt, mkMemoria (nodos m) (<[this := l]> (listas m))).

Definition liberarLista (this : dir) : Accion unit :=
  λ m, _ ← listas m !! this;
       Some (tt, mkMemoria (nodos m) (delete this (listas m))).

(** The bound for the loops: the number of allocated nodes. *)
Definition cotaBucle : Accion nat := λ m, Some (size (nodos m), m).

(** *** The methods of [ListaSensor] *)

(** [ListaSensor()]: a new object, [primero(nullptr), elementos(0)]. *)
Definition construir : Accion dir :=
  λ m, let this := fresh (dom (listas m)) in
       Some (this, mkMemoria (nodos m) (<[this := mkLista None 0]> (listas m))).

(** The tail scan of [insertarAlFinal]:
    [while (navegador->siguiente != nullptr) navegador = navegador->siguiente]. *)
Fixpoint buscarUltimo (combustible : nat) (h : gmap dir Nodo) (navegador : dir)
    : option dir :=
  match combustible with
  | O => None
  | S c =>
      n ← h !! navegador;
      match siguiente n with
      | None => Some navegador
      | Some s => buscarUltimo c h s
      end
  end.

Definition ultimoNodo (p : dir) : Accion dir :=
  λ m, r ← buscarUltimo (size (nodos m)) (nodos m) p; Some (r, m).

Definition insertarAlFinal (this : dir) (contenido : T) : Accion unit :=
  nuevoElemento ← nuevoNodo contenido;
  l ← leerLista this;
  match primero l with
  | None => escribirLista this (mkLista (Some nuevoElemento) (elementos l))
  | Some p =>
      navegador ← ultimoNodo p;
      n ← leerNodo navegador;
      escribirNodo navegador (mkNodo (dato n) (Some nuevoElemento))
  end;;
  l' ← leerLista this;
  escribirLista this (mkLista (primero l') (envolver (elementos l' + 1))).



Definition getTamanio (this : dir) : Accion Z :=
  l ← leerLista this; retornar (elementos l).

Definition estaVacia (this : dir) : Accion bool :=
  l ← leerLista this; retornar (bool_decide (primero l = None)).

Definition getCabeza (this : dir) : Accion (option dir) :=
  l ← leerLista this; retornar (primero l).

(** [iterar]: the operation is a closure over state of the caller, of type
    [E]; it receives each datum in turn.  An operation may itself have no
    result (it dereferences the datum, say). *)
Fixpoint iterarDesde {E} (combustible : nat) (h : gmap dir Nodo)
    (operacion : T → E → option E) (navegador : option dir) (e : E) : option E :=
  match navegador with
  | None => Some e
  | Some a =>
      match combustible with
      | O => None
      | S c =>
          n ← h !! a;
          e' ← operacion (dato n) e;
          iterarDesde c h operacion (siguiente n) e'
      end
  end.

Definition iterar {E} (this : dir) (operacion : T → E → option E) (e : E) : Accion E :=
  λ m, l ← listas m !! this;
       e' ← iterarDesde (size (nodos m)) (nodos m) operacion (primero l) e;
       Some (e', m).

(** [vaciar]: one round of the loop unlinks the first node, deletes it and
    decrements the counter. *)
Fixpoint vaciarBucle (combustible : nat) (this : dir) {struct combustible}
    : Accion unit :=
  l ← leerLista this;
  match primero l with
  | None => retornar tt
  | Some temporal =>
      match combustible with
      | O => fallar
      | S c =>
          n ← leerNodo temporal;
          escribirLista this (mkLista (siguiente n) (elementos l));;
          liberarNodo temporal;;
          l' ← leerLista this;
          escribirLista this (mkLista (primero l') (envolver (elementos l' - 1)));;
          vaciarBucle c this
      end
  end.

Definition vaciar (this : dir) : Accion unit :=
  c ← cotaBucle; vaciarBucle c this.

(** [duplicarDesde]: walks the nodes of [origen] and appends each datum to
    [this]. *)
Fixpoint duplicarBucle (combustible : nat) (this : dir)
    (navegadorOrigen : option dir) {struct combustible} : Accion unit :=
  match navegadorOrigen with
  | None => retornar tt
  | Some a =>
      match combustible with
      | O => fallar
      | S c =>
          n ← leerNodo a;
          insertarAlFinal this (dato n);;
          duplicarBucle c this (siguiente n)
      end
  end.

Definition duplicarDesde (this origen : dir) : Accion unit :=
  o ← leerLista origen;
  match primero o with
  | None => retornar tt
  | Some _ => c ← cotaBucle; duplicarBucle c this (primero o)
  end.

(** [ListaSensor(const ListaSensor& origen)]. *)
Definition construirCopia (origen : dir) : Accion dir :=
  this ← construir;
  duplicarDesde this origen;;
  retornar this.

(** [operator=]: [this != &origen] compares the addresses of the two
    objects. *)
Definition asignar (this origen : dir) : Accion unit :=
  if decide (this ≠ origen) then
    vaciar this;;
    duplicarDesde this origen
  else retornar tt.

(** [~ListaSensor()]. *)
Definition destruir (this : dir) : Accion unit :=
  vaciar this;;
  liberarLista this.

(** The memory before any object exists. *)
Definition memoriaInicial : Memoria := mkMemoria ∅ ∅.

End Plantilla.
End Lista.

Import Lista.

(** *** What a [ListaSensor] object stands for *)

Section Representacion.
Context {T : Type}.

(** [segmento h p cs q]: starting at pointer [p], the heap [h] holds the
    cells [cs] (address and datum of each node, in order), and the
    [siguiente] of the last one is [q]. *)
Fixpoint segmento (h : gmap dir (Nodo (T:=T))) (p : option dir)
    (cs : list (dir * T)) (q : option dir) : Prop :=
  match cs with
  | [] => p = q
  | c :: cs' =>
      p = Some c.1 ∧ ∃ sig, h !! c.1 = Some (mkNodo c.2 sig) ∧ segmento h sig cs' q
  end.

(** The nodes reachable from [p], up to the null pointer. *)
Definition cadena (h : gmap dir (Nodo (T:=T))) (p : option dir)
    (cs : list (dir * T)) : Prop :=
  segmento h p cs None.

(** The object at [this] has exactly the cells [cs] behind its head pointer
    and its counter is their number, as an [int]. *)
Definition representa (m : Memoria (T:=T)) (this : dir) (cs : list (dir * T)) : Prop :=
  ∃ l, listas m !! this = Some l
       ∧ cadena (nodos m) (primero l) cs
       ∧ elementos l = envolver (Z.of_nat (length cs)).

(** Well-formed memory: every object is a null-terminated chain with an
    exact counter, and two objects share no node. *)
Definition bienFormada (m : Memoria (T:=T)) : Prop :=
  (∀ this l, listas m !! this = Some l →
     ∃ cs, cadena (nodos m) (primero l) cs
           ∧ elementos l = envolver (Z.of_nat (length cs)))
  ∧ (∀ this1 this2 cs1 cs2, this1 ≠ this2 →
       representa m this1 cs1 → representa m this2 cs2 → cs1.*1 ## cs2.*1).

(** [transforma m m' this cs cs']: from [m] to [m'] the object [this] went
    from the cells [cs] to the cells [cs']; the other objects, and the
    nodes outside [cs], are as they were; cells that are new to [this]
    were not allocated in [m]. *)
Definition transforma (m m' : Memoria (T:=T)) (this : dir)
    (cs cs' : list (dir * T)) : Prop :=
  representa m' this cs'
  ∧ (∀ j, j ≠ this → listas m' !! j = listas m !! j)
  ∧ (∀ a, a ∉ cs.*1 → a ∈ dom (nodos m) → nodos m' !! a = nodos m !! a)
  ∧ (∀ a, a ∈ cs'.*1 → a ∈ cs.*1 ∨ a ∉ dom (nodos m)).

(** [copiaProfunda m m1 A B csA]: in [m1] the object [B] is a deep copy of
    what [A] was in [m]: the same data in the same order, in nodes of its
    own; [A] is as it was, and it stays so when [B] is cleared. *)
Definition copiaProfunda (m m1 : Memoria (T:=T)) (A B : dir)
    (csA : list (dir * T)) : Prop :=
  ∃ csB, representa m1 B csB
         ∧ csB.*2 = csA.*2
         ∧ csB.*1 ## csA.*1
         ∧ representa m1 A csA
         ∧ listas m1 !! A = listas m !! A
         ∧ ∃ m2, vaciar B m1 = Some (tt, m2)
                 ∧ representa m2 B []
                 ∧ representa m2 A csA
                 ∧ listas m2 !! A = listas m !! A
                 ∧ fst <$> getTamanio A m2 = fst <$> getTamanio A m.

(** The public operations, as commands of a client. *)
Inductive Operacion : Type :=
| OpConstruir
| OpCopiar (origen : dir)
| OpAsignar (this origen : dir)
| OpInsertar (this : dir) (contenido : T)
| OpVaciar (this : dir).

Definition ejecutar (op : Operacion) : Accion (T:=T) unit :=
  match op with
  | OpConstruir => construir;; retornar tt
  | OpCopiar origen => construirCopia origen;; retornar tt
  | OpAsignar this origen => asignar this origen
  | OpInsertar this contenido => insertarAlFinal this contenido
  | OpVaciar this => vaciar this
  end.

(** The memories a client can bring about, from the one without objects. *)
Inductive alcanzable : Memoria (T:=T) → Prop :=
| alcanzable_inicial : alcanzable memoriaInicial
| alcanzable_paso op m m' :
    alcanzable m → ejecutar op m = Some (tt, m') → alcanzable m'.

(** What [iterar] is meant to do with the data [xs] of a list: apply the
    operation to each of them, once, first to last. *)
Fixpoint aplicarEnOrden {E} (operacion : T → E → option E) (xs : list T) (e : E)
    : option E :=
  match xs with
  | [] => Some e
  | x :: xs' => e' ← operacion x e; aplicarEnOrden operacion xs' e'
  end.

(** A program of a client: the operations one after the other. *)
Fixpoint ejecutarTodo (ops : list Operacion) : Accion (T:=T) unit :=
  match ops with
  | [] => retornar tt
  | op :: ops' => ejecutar op;; ejecutarTodo ops'
  end.

(** [n] appends in a row. *)
Fixpoint insertarTodos (this : dir) (xs : list T) : Accion (T:=T) unit :=
  match xs with
  | [] => retornar tt
  | x :: xs' => insertarAlFinal this x;; insertarTodos this xs'
  end.

End Representacion.

(** Two lists of integers made by a client: the first, at address 1, holds
    5, 2 and 9 in the nodes 1, 2 and 3; the second, at address 2, holds 7 in
    node 4. *)
Definition memoriaEjemplo : Memoria (T:=Z) := Eval vm_compute in
  (default memoriaInicial
     (snd <$> ejecutarTodo [OpConstruir; OpInsertar 1%positive 5;
                            OpInsertar 1%positive 2; OpInsertar 1%positive 9;
                            OpConstruir; OpInsertar 2%positive 7] memoriaInicial)).

(** ** Floating-point numbers *)

(** [float] is IEEE 754 binary32 and [double] is binary64, in the format of
    the Standard Library's specification of floating-point arithmetic:
    comparison is [SFltb] (false whenever an operand is a NaN), division is
    the correctly rounded [SFdiv]. *)
Abbreviation float := spec_float.
Abbreviation double := spec_float.

(** The [float] with an integer value that binary32 holds exactly. *)
Definition floatDeEntero (z : Z) : float := binary_normalize 24 128 z 0 false.

(** [static_cast<double>] of an [int], and the conversion of the [int]
    divisor: every [int] is a binary64 number. *)
Definition doubleDeInt (z : Z) : double := binary_normalize 53 1024 z 0 false.

Definition dividirDouble (x y : double) : double := SFdiv 53 1024 x y.

(** ** The lines written to the console by the sensors and the capture loop

    One constructor for each output statement, with the values it prints.
    The trace lines of the container ([Inicializacion], [Agregacion],
    [Liberacion] and the like) carry no data of the sensors and are left
    out, and so are the texts of the menu. *)
Inductive Mensaje : Type :=
| MsgTermicoInicializado (nombre : string)
| MsgBarometricoInicializado (nombre : string)
| MsgDatoDecimal (medida : float)
| MsgDatoEntero (medida : Z)
| MsgTermicoVacio
| MsgValorMinimo (valorMinimo : float)
| MsgBarometricoVacio
| MsgMediaAritmetica (mediaCalculada : double)
| MsgRecibido (buffer : string)
| WarnFormatoIncorrecto
| WarnTemperaturaInvalida
| WarnPresionInvalida
| WarnTipoNoReconocido (tipoDispositivo : ascii)
| MsgTermicoRegistrado (identificador : string)
| MsgPresionRegistrado (identificador : string)
| MsgMedicionTermica (identificador : string) (medicion : float)
| MsgMedicionPresion (identificador : string) (medicion : Z)
| MsgTotalCapturadas (contadorLecturas : Z).

(** The lines that start with [[WARN]]. *)
Definition esAdvertencia (msg : Mensaje) : bool :=
  match msg with
  | WarnFormatoIncorrecto | WarnTemperaturaInvalida | WarnPresionInvalida
  | WarnTipoNoReconocido _ => true
  | _ => false
  end.

(** ** [SensorBase.h] *)

(** The characters of a C string: those before the first NUL. *)
Fixpoint hastaNulo (s : string) : string :=
  match s with
  | EmptyString => EmptyString
  | String c r => if Ascii.eqb c zero then EmptyString else String c (hastaNulo r)
  end.

(** The constructor of [SensorBase]: [strncpy(nombre, identificador, 49)]
    and [nombre[49] = 0]. *)
Definition copiarNombre (identificador : string) : string :=
  substring 0 49 (hastaNulo identificador).

(** ** [SensorTemperatura.h] *)

Module SensorTemperatura.

Record t : Type := mk { nombre : string; registroMediciones : dir }.

(** The constructor: [registroMediciones = new ListaSensor<float>()]. *)
Definition crear (identificador : string) : Accion (T:=float) (t * Mensaje) :=
  registro ← construir;
  let nombre := copiarNombre identificador in
  retornar (mk nombre registro, MsgTermicoInicializado nombre).

Definition agregarLectura (this : t) (medida : float) : Accion (T:=float) Mensaje :=
  insertarAlFinal (registroMediciones this) medida;;
  retornar (MsgDatoDecimal medida).

(** The lambda of [procesarLectura], with [valorMinimo] as its state. *)
Definition actualizarMinimo (medida valorMinimo : float) : option float :=
  Some (if SFltb medida valorMinimo then medida else valorMinimo).

Definition procesarLectura (this : t) : Accion (T:=float) Mensaje :=
  vacia ← estaVacia (registroMediciones this);
  if (vacia : bool) then retornar MsgTermicoVacio
  else
    valorMinimo ← iterar (registroMediciones this) actualizarMinimo
                         (floatDeEntero 999999);
    retornar (MsgValorMinimo valorMinimo).

Definition getHistorial (this : t) : dir := registroMediciones this.

Fixpoint agregarLecturas (this : t) (medidas : list float) : Accion (T:=float) unit :=
  match medidas with
  | [] => retornar tt
  | medida :: resto => agregarLectura this medida;; agregarLecturas this resto
  end.

(** A sensor is created, records the readings and processes them. *)
Definition procesarTras (identificador : string) (medidas : list float)
    : Accion (T:=float) Mensaje :=
  r ← crear identificador;
  agregarLecturas r.1 medidas;;
  procesarLectura r.1.

End SensorTemperatura.

(** ** [SensorPresion.h] *)

Module SensorPresion.

Record t : Type := mk { nombre : string; registroMediciones : dir }.

(** The constructor: [registroMediciones = new ListaSensor<int>()]. *)
Definition crear (identificador : string) : Accion (T:=Z) (t * Mensaje) :=
  registro ← construir;
  let nombre := copiarNombre identificador in
  retornar (mk nombre registro, MsgBarometricoInicializado nombre).

Definition agregarLectura (this : t) (medida : Z) : Accion (T:=Z) Mensaje :=
  insertarAlFinal (registroMediciones this) medida;;
  retornar (MsgDatoEntero medida).

(** The lambda of [procesarLectura]; its state is the pair of the [int]
    variables [acumulador] and [cantidadDatos]. *)
Definition acumular (medida : Z) (estado : Z * Z) : option (Z * Z) :=
  Some (envolver (estado.1 + medida), envolver (estado.2 + 1)).

Definition procesarLectura (this : t) : Accion (T:=Z) Mensaje :=
  vacia ← estaVacia (registroMediciones this);
  if (vacia : bool) then retornar MsgBarometricoVacio
  else
    estado ← iterar (registroMediciones this) acumular (0, 0);
    let mediaCalculada := dividirDouble (doubleDeInt estado.1) (doubleDeInt estado.2) in
    retornar (MsgMediaAritmetica mediaCalculada).

Definition getHistorial (this : t) : dir := registroMediciones this.

Fixpoint agregarLecturas (this : t) (medidas : list Z) : Accion (T:=Z) unit :=
  match medidas with
  | [] => retornar tt
  | medida :: resto => agregarLectura this medida;; agregarLecturas this resto
  end.

(** A sensor is created, records the readings and processes them. *)
Definition procesarTras (identificador : string) (medidas : list Z)
    : Accion (T:=Z) Mensaje :=
  r ← crear identificador;
  agregarLecturas r.1 medidas;;
  procesarLectura r.1.

End SensorPresion.

(** The memory of a thermal sensor whose only reading is 1000000.0, and of
    a barometric sensor with the readings 2147483647 and 1. *)
Definition memoriaTermicaEjemplo : Memoria (T:=float) := Eval vm_compute in
  (default memoriaInicial
     (snd <$> (r ← SensorTemperatura.crear "TEMP-1";
               SensorTemperatura.agregarLectura r.1 (floatDeEntero 1000000))
              memoriaInicial)).

Definition memoriaPresionEjemplo : Memoria (T:=Z) := Eval vm_compute in
  (default memoriaInicial
     (snd <$> (r ← SensorPresion.crear "PRES-1";
               SensorPresion.agregarLecturas r.1 [2147483647; 1])
              memoriaInicial)).

(** ** [main.cpp] *)

(** A [SensorBase*] points to an object of one of the two derived classes;
    [dynamic_cast] is the match on the constructor. *)
Inductive Sensor : Type :=
| Termico (s : SensorTemperatura.t)
| Barometrico (s : SensorPresion.t).

Definition getNombre (s : Sensor) : string :=
  match s with
  | Termico t => SensorTemperatura.nombre t
  | Barometrico p => SensorPresion.nombre p
  end.

(** The memory of the program: the three instantiations of the list
    template and the sensor objects obtained with [new]. *)
Record Sistema : Type := mkSistema {
  memTermica : Memoria (T:=float);
  memPresion : Memoria (T:=Z);
  memRegistro : Memoria (T:=dir);
  dispositivos : gmap dir Sensor
}.

Definition Programa (A : Type) : Type := Sistema → option (A * Sistema).

#[global] Instance programa_ret : MRet Programa := λ A a s, Some (a, s).
#[global] Instance programa_bind : MBind Programa :=
  λ A B k c s, match c s with
               | Some (a, s') => k a s'
               | None => None
               end.

Definition enTermica {A} (c : Accion (T:=float) A) : Programa A :=
  λ s, r ← c (memTermica s);
       Some (r.1, mkSistema r.2 (memPresion s) (memRegistro s) (dispositivos s)).

Definition enPresion {A} (c : Accion (T:=Z) A) : Programa A :=
  λ s, r ← c (memPresion s);
       Some (r.1, mkSistema (memTermica s) r.2 (memRegistro s) (dispositivos s)).

Definition enRegistro {A} (c : Accion (T:=dir) A) : Programa A :=
  λ s, r ← c (memRegistro s);
       Some (r.1, mkSistema (memTermica s) (memPresion s) r.2 (dispositivos s)).

(** [new SensorTemperatura(...)] and [new SensorPresion(...)]: the object
    goes to an address that is not in use. *)
Definition alojar (obj : Sensor) : Programa dir :=
  λ s, let a := fresh (dom (dispositivos s)) in
       Some (a, mkSistema (memTermica s) (memPresion s) (memRegistro s)
                          (<[a := obj]> (dispositivos s))).

(** The object behind a [SensorBase*]. *)
Definition desreferenciar (d : dir) : Programa Sensor :=
  λ s, obj ← dispositivos s !! d; Some (obj, s).

Definition nuevoSensorTemperatura (identificador : string)
    : Programa (dir * SensorTemperatura.t * Mensaje) :=
  r ← enTermica (SensorTemperatura.crear identificador);
  a ← alojar (Termico r.1);
  mret (a, r.1, r.2).

Definition nuevoSensorPresion (identificador : string)
    : Programa (dir * SensorPresion.t * Mensaje) :=
  r ← enPresion (SensorPresion.crear identificador);
  a ← alojar (Barometrico r.1);
  mret (a, r.1, r.2).

(** The lambda of the two searches (capture loop and menu option 3):
    [if (std::string(dispositivo->getNombre()) == identificador)
       dispositivoExistente = dispositivo;] *)
Definition anotarSiCoincide (objetos : gmap dir Sensor) (identificador : string)
    (dispositivo : dir) (dispositivoExistente : option dir) : option (option dir) :=
  obj ← objetos !! dispositivo;
  Some (if decide (getNombre obj = identificador) then Some dispositivo
        else dispositivoExistente).

(** The object at [d] carries exactly the name [identificador]. *)
Definition llevaNombre (objetos : gmap dir Sensor) (identificador : string)
    (d : dir) : Prop :=
  getNombre <$> objetos !! d = Some identificador.

#[global] Instance llevaNombre_dec objetos identificador d :
  Decision (llevaNombre objetos identificador d).
Proof. unfold llevaNombre. apply _. Defined.

(** The search of a sensor by identifier: [registro->iterar] with that
    lambda, from [dispositivoExistente = nullptr]. *)
Definition localizar (registro : dir) (identificador : string) : Programa (option dir) :=
  λ s, enRegistro (iterar registro (anotarSiCoincide (dispositivos s) identificador) None) s.

(** *** Text of a received line *)

(** [std::isspace] in the C locale. *)
Definition esEspacio (c : ascii) : bool :=
  let n := nat_of_ascii c in
  (n =? 32)%nat || ((9 <=? n)%nat && (n <=? 13)%nat).

Fixpoint saltarEspacios (s : string) : string :=
  match s with
  | String c r => if esEspacio c then saltarEspacios r else s
  | EmptyString => EmptyString
  end.

(** [parser >> tipoDispositivo]: the first character that is not a space. *)
Definition extraerChar (s : string) : option (ascii * string) :=
  match saltarEspacios s with
  | String c r => Some (c, r)
  | EmptyString => None
  end.

Fixpoint hastaEspacio (s : string) : string * string :=
  match s with
  | String c r =>
      if esEspacio c then (EmptyString, s)
      else let '(w, resto) := hastaEspacio r in (String c w, resto)
  | EmptyString => (EmptyString, EmptyString)
  end.

(** [parser >> identificador]: the next run of characters without spaces. *)
Definition extraerPalabra (s : string) : option (string * string) :=
  match saltarEspacios s with
  | EmptyString => None
  | t => Some (hastaEspacio t)
  end.

Fixpoint esPrefijo (p s : string) : bool :=
  match p, s with
  | EmptyString, _ => true
  | String a p', String b s' => Ascii.eqb a b && esPrefijo p' s'
  | String _ _, EmptyString => false
  end.

(** [buffer.find(patron) != std::string::npos]. *)
Fixpoint contiene (patron s : string) : bool :=
  esPrefijo patron s ||
  match s with
  | String _ s' => contiene patron s'
  | EmptyString => false
  end.

(** A reading of decimal digits with an optional sign, the way
    [operator>>(int&)] reads them: it fails when there is no digit and when
    the number is not an [int]. *)
Fixpoint leerDigitos (s : string) (acc : option Z) : option Z :=
  match s with
  | String c r =>
      let n := nat_of_ascii c in
      if (48 <=? n)%nat && (n <=? 57)%nat
      then leerDigitos r (Some (10 * default 0 acc + Z.of_nat (n - 48)))
      else acc
  | EmptyString => acc
  end.

Definition extraerIntDecimal (s : string) : option Z :=
  let t := saltarEspacios s in
  v ← match t with
      | String "-" r => Z.opp <$> leerDigitos r None
      | String "+" r => leerDigitos r None
      | _ => leerDigitos t None
      end;
  if bool_decide (INT_MIN ≤ v ≤ INT_MAX) then Some v else None.

(** The filter of the capture loop: lines of the banner of the device, and
    the empty line. *)
Definition esRuido (buffer : string) : bool :=
  contiene "===" buffer || contiene "Arduino" buffer
  || contiene "Formato" buffer || bool_decide (buffer = EmptyString).

(** [parser >> tipoDispositivo >> identificador]: the two tokens and what is
    left of the line. *)
Definition analizar (buffer : string) : option (ascii * string * string) :=
  r1 ← extraerChar buffer;
  r2 ← extraerPalabra r1.2;
  Some (r1.1, r2.1, r2.2).

Section Captura.

(** [parser >> medicion] for a [float] and for an [int], applied to what is
    left of the line: the number read, or [None] when the stream fails. *)
Variable extraerFloat : string → option float.
Variable extraerInt : string → option Z.

(** One round of the capture loop of [capturarDatosHardware] on a line
    that [leerLinea] delivered: the lines written and the new value of
    [contadorLecturas].  A round that ends in [continue] leaves the counter
    as it was. *)
Definition procesarBuffer (registro : dir) (buffer : string) (contadorLecturas : Z)
    : Programa (list Mensaje * Z) :=
  if esRuido buffer then mret ([], contadorLecturas)
  else
    match analizar buffer with
    | None => mret ([MsgRecibido buffer; WarnFormatoIncorrecto], contadorLecturas)
    | Some (tipoDispositivo, identificador, resto) =>
        dispositivoExistente ← localizar registro identificador;
        if bool_decide (tipoDispositivo = "T" ∨ tipoDispositivo = "t")%char then
          match extraerFloat resto with
          | None =>
              mret ([MsgRecibido buffer; WarnTemperaturaInvalida], contadorLecturas)
          | Some medicion =>
              salida ←
                match dispositivoExistente with
                | None =>
                    nuevo ← nuevoSensorTemperatura identificador;
                    dato ← enTermica (SensorTemperatura.agregarLectura nuevo.1.2 medicion);
                    enRegistro (insertarAlFinal registro nuevo.1.1);;
                    mret [nuevo.2; dato; MsgTermicoRegistrado identificador]
                | Some d =>
                    obj ← desreferenciar d;
                    match obj with
                    | Termico sensorTermico =>
                        dato ← enTermica
                                 (SensorTemperatura.agregarLectura sensorTermico medicion);
                        mret [dato; MsgMedicionTermica identificador medicion]
                    | Barometrico _ => mret []
                    end
                end;
              mret (MsgRecibido buffer :: salida
                      ++ [MsgTotalCapturadas (envolver (contadorLecturas + 1))],
                    envolver (contadorLecturas + 1))
          end
        else if bool_decide (tipoDispositivo = "P" ∨ tipoDispositivo = "p")%char then
          match extraerInt resto with
          | None =>
              mret ([MsgRecibido buffer; WarnPresionInvalida], contadorLecturas)
          | Some medicion =>
              salida ←
                match dispositivoExistente with
                | None =>
                    nuevo ← nuevoSensorPresion identificador;
                    dato ← enPresion (SensorPresion.agregarLectura nuevo.1.2 medicion);
                    enRegistro (insertarAlFinal registro nuevo.1.1);;
                    mret [nuevo.2; dato; MsgPresionRegistrado identificador]
                | Some d =>
                    obj ← desreferenciar d;
                    match obj with
                    | Barometrico sensorPresion =>
                        dato ← enPresion
                                 (SensorPresion.agregarLectura sensorPresion medicion);
                        mret [dato; MsgMedicionPresion identificador medicion]
                    | Termico _ => mret []
                    end
                end;
              mret (MsgRecibido buffer :: salida
                      ++ [MsgTotalCapturadas (envolver (contadorLecturas + 1))],
                    envolver (contadorLecturas + 1))
          end
        else
          mret ([MsgRecibido buffer; WarnTipoNoReconocido tipoDispositivo],
                contadorLecturas)
    end.

End Captura.

(** *** The menu of [main] *)

(** [new ColeccionSensores()]. *)
Definition crearRegistro : Programa dir := enRegistro construir.

(** Option 1: a thermal sensor is created and appended; the registry is not
    searched first. *)
Definition registrarTermico (registro : dir) (codigo : string) : Programa unit :=
  nuevo ← nuevoSensorTemperatura codigo;
  enRegistro (insertarAlFinal registro nuevo.1.1).

(** Option 2. *)
Definition registrarPresion (registro : dir) (codigo : string) : Programa unit :=
  nuevo ← nuevoSensorPresion codigo;
  enRegistro (insertarAlFinal registro nuevo.1.1).

(** Option 3, with the value typed in for each of the two kinds; the result
    is what the sensor writes. *)
Definition capturarMedicion (registro : dir) (codigo : string)
    (datoDecimal : float) (datoEntero : Z) : Programa (list Mensaje) :=
  dispositivoLocalizado ← localizar registro codigo;
  match dispositivoLocalizado with
  | None => mret []
  | Some d =>
      obj ← desreferenciar d;
      match obj with
      | Termico sensorTermico =>
          dato ← enTermica (SensorTemperatura.agregarLectura sensorTermico datoDecimal);
          mret [dato]
      | Barometrico sensorPresion =>
          dato ← enPresion (SensorPresion.agregarLectura sensorPresion datoEntero);
          mret [dato]
      end
  end.

(** The virtual call [dispositivo->procesarLectura()]. *)
Definition procesarLectura (obj : Sensor) : Programa Mensaje :=
  match obj with
  | Termico t => enTermica (SensorTemperatura.procesarLectura t)
  | Barometrico p => enPresion (SensorPresion.procesarLectura p)
  end.

Definition sistemaInicial : Sistema :=
  mkSistema memoriaInicial memoriaInicial memoriaInicial ∅.

(** The registry of [main] with one thermal sensor, registered under
    [TEMP-1] through option 1 of the menu. *)
Definition sistemaConTermico : Sistema := Eval vm_compute in
  (default sistemaInicial
     (snd <$> (registro ← crearRegistro;
               registrarTermico registro "TEMP-1") sistemaInicial)).

(** The same registry after a second sensor is registered under the same
    identifier through option 2. *)
Definition sistemaDuplicado : Sistema := Eval vm_compute in
  (default sistemaInicial
     (snd <$> registrarPresion 1%positive "TEMP-1" sistemaConTermico)).

(** ** [SerialPort.h] *)

Module SerialPort.

Record t : Type := mk { descriptorArchivo : Z; estadoConexion : bool }.

(** The default constructor: closed. *)
Definition nuevo : t := mk (-1) false.

(** What one call of [read(descriptorArchivo, &caracter, 1)] gives: a
    negative count, zero, or one byte. *)
Inductive Lectura : Type :=
| LecturaError
| LecturaVacia
| LecturaByte (caracter : ascii).

(** [abrir], given the value that [open] returns.  The settings of the
    terminal do not enter the state of the object. *)
Definition abrir (this : t) (resultadoOpen : Z) : t * bool :=
  if resultadoOpen <? 0 then (mk resultadoOpen (estadoConexion this), false)
  else (mk resultadoOpen true, true).

Definition estaAbierto (this : t) : bool := estadoConexion this.

Definition cerrar (this : t) : t :=
  if estadoConexion this && (0 <=? descriptorArchivo this) then mk (-1) false
  else this.

Definition esTerminador (c : ascii) : bool :=
  Ascii.eqb c "010" || Ascii.eqb c "013".

(** How a call of [leerLinea] ends: [true] with the line in [secuencia],
    [false], or not at all, when the transport has nothing more to give
    and the loop keeps polling.  [resto] is what the transport has yet
    to deliver to later calls. *)
Inductive Resultado : Type :=
| Exito (secuencia : string) (resto : list Lectura)
| Fallo (secuencia : string) (resto : list Lectura)
| EnEspera (secuencia : string).

(** The loop of [leerLinea], over the outcomes of the successive calls
    of [read]. *)
Fixpoint leerBucle (entrada : list Lectura) (secuencia : string) : Resultado :=
  match entrada with
  | [] => EnEspera secuencia
  | LecturaError :: resto => Fallo secuencia resto
  | LecturaVacia :: resto => leerBucle resto secuencia
  | LecturaByte caracter :: resto =>
      if esTerminador caracter then
        if negb (bool_decide (secuencia = EmptyString)) then Exito secuencia resto
        else leerBucle resto secuencia
      else leerBucle resto (secuencia +:+ String caracter EmptyString)
  end.

(** [leerLinea]: the state of the object after the call and the way the
    call ends; [secuencia] is the content of the caller's string before the
    call. *)
Definition leerLinea (this : t) (secuencia : string) (entrada : list Lectura)
    : t * Resultado :=
  if negb (estadoConexion this) || (descriptorArchivo this <? 0)
  then (this, Fallo secuencia entrada)
  else (this, leerBucle entrada EmptyString).

(** The bytes among the outcomes of [read]. *)
Fixpoint bytesDe (lecturas : list Lectura) : list ascii :=
  match lecturas with
  | [] => []
  | LecturaByte c :: r => c :: bytesDe r
  | _ :: r => bytesDe r
  end.

Definition sinError (lecturas : list Lectura) : Prop :=
  LecturaError ∉ lecturas.

(** The port is open: [leerLinea] goes on to read. *)
Definition abierto (this : t) : Prop :=
  estadoConexion this = true ∧ 0 ≤ descriptorArchivo this.

(** [lineaCompleta entrada linea resto]: the transport delivers, without
    an error, first line terminators only (the ends of empty lines), then
    the characters of [linea], none of them a terminator and at least one,
    then a terminator; [resto] is what follows it. *)
Definition lineaCompleta (entrada : list Lectura) (linea : string)
    (resto : list Lectura) : Prop :=
  linea ≠ EmptyString
  ∧ Forall (λ c, esTerminador c = false) (list_ascii_of_string linea)
  ∧ ∃ consumidas terminador previos,
      entrada = consumidas ++ LecturaByte terminador :: resto
      ∧ esTerminador terminador = true
      ∧ sinError consumidas
      ∧ bytesDe consumidas = previos ++ list_ascii_of_string linea
      ∧ Forall (λ c, esTerminador c = true) previos.

End SerialPort.

(** * Further operations of the sources *)

(** ** [ListaSensor.h]: search, release *)

Section ListaMas.
Context {T : Type}.


(** The objects an operation of a client names. *)
Definition objetosDe (op : Operacion (T:=T)) : list dir :=
  match op with
  | OpConstruir => []
  | OpCopiar origen => [origen]
  | OpAsignar this origen => [this; origen]
  | OpInsertar this _ => [this]
  | OpVaciar this => [this]
  end.

(** Every allocated node is a cell of some list object. *)
Definition sinFugas (m : Memoria (T:=T)) : Prop :=
  ∀ a, a ∈ dom (nodos m) → ∃ this cs, representa m this cs ∧ a ∈ cs.*1.

End ListaMas.

(** ** [SerialPort.h] and the loop that calls [leerLinea] *)

(** The lines that the loop [while (true) { if (conexion.leerLinea(buffer))
    ... }] of [capturarDatosHardware] hands to its body, one call of
    [leerLinea] after the other on the same [buffer], for as long as the
    transport delivers; a call that returns [false] is followed by the next
    call.  [combustible] bounds the number of calls. *)
Fixpoint lineasRecibidasAux (combustible : nat) (this : SerialPort.t)
    (buffer : string) (entrada : list SerialPort.Lectura) : list string :=
  match combustible with
  | O => []
  | S c =>
      match (SerialPort.leerLinea this buffer entrada).2 with
      | SerialPort.Exito linea resto => linea :: lineasRecibidasAux c this linea resto
      | SerialPort.Fallo parcial resto => lineasRecibidasAux c this parcial resto
      | SerialPort.EnEspera _ => []
      end
  end.

(** On an open port every call that returns consumes an outcome of [read],
    so there are no more calls than outcomes. *)
Definition lineasRecibidas (this : SerialPort.t) (buffer : string)
    (entrada : list SerialPort.Lectura) : list string :=
  lineasRecibidasAux (length entrada) this buffer entrada.

(** What a transmitter puts on the wire for a sequence of lines, each with
    the terminators that follow it. *)
Definition transmitir (tramos : list (string * list ascii)) : list ascii :=
  concat (map (λ tramo, list_ascii_of_string tramo.1 ++ tramo.2) tramos).

(** A line as a transmitter sends it: not empty, free of terminators, and
    followed by at least one terminator and by terminators only. *)
Definition tramoValido (tramo : string * list ascii) : Prop :=
  tramo.1 ≠ EmptyString
  ∧ Forall (λ c, SerialPort.esTerminador c = false) (list_ascii_of_string tramo.1)
  ∧ tramo.2 ≠ []
  ∧ Forall (λ c, SerialPort.esTerminador c = true) tramo.2.

(** ** [SensorTemperatura.h] and [SensorPresion.h]: [imprimirInfo] *)

(** What [imprimirInfo] writes after the category of the sensor: the
    identifier, the count that [getTamanio] gives, and, when the history is
    not empty, the readings that the traversal prints, in the order in which
    it prints them. *)
Record Detalles (T : Type) : Type := mkDetalles {
  identificador : string;
  medicionesRegistradas : Z;
  conjuntoDeDatos : option (list T)
}.
Arguments mkDetalles {T}.
Arguments identificador {T}.
Arguments medicionesRegistradas {T}.
Arguments conjuntoDeDatos {T}.

(** [SensorTemperatura::imprimirInfo]. *)
Definition imprimirInfoTermico (this : SensorTemperatura.t)
    : Accion (T:=float) (Detalles float) :=
  tamanio ← getTamanio (SensorTemperatura.registroMediciones this);
  vacia ← estaVacia (SensorTemperatura.registroMediciones this);
  if (vacia : bool)
  then retornar (mkDetalles (SensorTemperatura.nombre this) tamanio None)
  else
    impresas ← iterar (SensorTemperatura.registroMediciones this)
                      (λ medida impresas, Some (impresas ++ [medida])) [];
    retornar (mkDetalles (SensorTemperatura.nombre this) tamanio (Some impresas)).

(** [SensorPresion::imprimirInfo]. *)
Definition imprimirInfoPresion (this : SensorPresion.t)
    : Accion (T:=Z) (Detalles Z) :=
  tamanio ← getTamanio (SensorPresion.registroMediciones this);
  vacia ← estaVacia (SensorPresion.registroMediciones this);
  if (vacia : bool)
  then retornar (mkDetalles (SensorPresion.nombre this) tamanio None)
  else
    impresas ← iterar (SensorPresion.registroMediciones this)
                      (λ medida impresas, Some (impresas ++ [medida])) [];
    retornar (mkDetalles (SensorPresion.nombre this) tamanio (Some impresas)).

(** The step of the running minimum of [SensorTemperatura::procesarLectura]
    and the value it starts from. *)
Definition centinela : float := floatDeEntero 999999.

(** ** [main.cpp]: the menu as a whole *)

(** *** Option 4 *)

(** What option 4 writes for one sensor: the name in the line [Analizando
    dispositivo], the kind that the two [dynamic_cast] find, and the line of
    [procesarLectura]. *)
Record Analisis : Type := mkAnalisis {
  dispositivoAnalizado : string;
  esTermico : bool;
  resultado : Mensaje
}.

(** The lambda of option 4. *)
Definition analizarDispositivo (dispositivo : dir) : Programa Analisis :=
  obj ← desreferenciar dispositivo;
  linea ← procesarLectura obj;
  mret (mkAnalisis (getNombre obj)
          (match obj with Termico _ => true | Barometrico _ => false end) linea).

(** Option 4: [registro->iterar] with that lambda.  The lambda works on the
    sensors; the state it is folded over is what it has written so far and
    the memory of the program. *)
Definition procesarTodos (registro : dir) : Programa (list Analisis) :=
  λ s, r ← iterar registro
             (λ dispositivo (estado : list Analisis * Sistema),
                a ← analizarDispositivo dispositivo estado.2;
                Some (estado.1 ++ [a.1], a.2))
             ([], s) (memRegistro s);
       Some r.1.

(** *** Option 5 *)

(** The release of the storage of a sensor object. *)
Definition liberarDispositivo (dispositivo : dir) : Programa unit :=
  λ s, _ ← dispositivos s !! dispositivo;
       Some (tt, mkSistema (memTermica s) (memPresion s) (memRegistro s)
                           (delete dispositivo (dispositivos s))).

(** [delete dispositivo]: the destructor of the sensor deletes its history
    ([delete registroMediciones], which runs [~ListaSensor]), and the object
    is released. *)
Definition eliminarDispositivo (dispositivo : dir) : Programa unit :=
  obj ← desreferenciar dispositivo;
  match obj with
  | Termico t => enTermica (destruir (SensorTemperatura.registroMediciones t))
  | Barometrico p => enPresion (destruir (SensorPresion.registroMediciones p))
  end;;
  liberarDispositivo dispositivo.

(** Option 5: [registro->iterar] with the lambda [delete dispositivo], and
    then [delete registro].  The traversal reads the nodes of the registry,
    which the lambda does not touch. *)
Definition finalizar (registro : dir) : Programa unit :=
  λ s, r ← iterar registro (λ dispositivo s', snd <$> eliminarDispositivo dispositivo s')
             s (memRegistro s);
       enRegistro (destruir registro) r.1.

(** *** The runs of the program *)

(** What the user and the device can make the program do to its memory
    between the creation of the registry and option 5: options 1 to 4, and
    a round of the capture loop of option 6 on a line, whatever the
    extraction of a number from the rest of the line gives. *)
Inductive Orden : Type :=
| OrdenTermico (codigo : string)
| OrdenPresion (codigo : string)
| OrdenMedicion (codigo : string) (datoDecimal : float) (datoEntero : Z)
| OrdenProcesar
| OrdenLinea (extraerFloat : string → option float) (extraerInt : string → option Z)
    (buffer : string) (contadorLecturas : Z).

Definition obedecer (registro : dir) (orden : Orden) : Programa unit :=
  match orden with
  | OrdenTermico codigo => registrarTermico registro codigo
  | OrdenPresion codigo => registrarPresion registro codigo
  | OrdenMedicion codigo datoDecimal datoEntero =>
      capturarMedicion registro codigo datoDecimal datoEntero;; mret tt
  | OrdenProcesar => procesarTodos registro;; mret tt
  | OrdenLinea extraerFloat extraerInt buffer contadorLecturas =>
      procesarBuffer extraerFloat extraerInt registro buffer contadorLecturas;; mret tt
  end.

Inductive sistemaAlcanzable (registro : dir) : Sistema → Prop :=
| sistema_creado s :
    crearRegistro sistemaInicial = Some (registro, s) → sistemaAlcanzable registro s
| sistema_paso orden s s' :
    sistemaAlcanzable registro s → obedecer registro orden s = Some (tt, s') →
    sistemaAlcanzable registro s'.

(** *** What the registry holds *)

Inductive Historial : Type :=
| HistorialTermico (medidas : list float)
| HistorialPresion (medidas : list Z).

(** A reading taken from a line or typed in. *)
Inductive Medida : Type :=
| MedidaTermica (medicion : float)
| MedidaPresion (medicion : Z).

(** [sensorVisto s (d, nombre, h)]: the object at [d] is a sensor of the
    kind of [h], it stores the name [nombre], and its history list holds
    the readings of [h], in order. *)
Definition sensorVisto (s : Sistema) (e : dir * string * Historial) : Prop :=
  match e.2 with
  | HistorialTermico xs =>
      ∃ t cs, dispositivos s !! e.1.1 = Some (Termico t)
              ∧ SensorTemperatura.nombre t = e.1.2
              ∧ representa (memTermica s) (SensorTemperatura.registroMediciones t) cs
              ∧ cs.*2 = xs
  | HistorialPresion xs =>
      ∃ p cs, dispositivos s !! e.1.1 = Some (Barometrico p)
              ∧ SensorPresion.nombre p = e.1.2
              ∧ representa (memPresion s) (SensorPresion.registroMediciones p) cs
              ∧ cs.*2 = xs
  end.

(** [vista registro s v]: the nodes of the registry hold, in order, the
    pointers to the sensors that [v] describes. *)
Definition vista (registro : dir) (s : Sistema) (v : list (dir * string * Historial))
    : Prop :=
  (∃ cs, representa (memRegistro s) registro cs ∧ cs.*2 = v.*1.*1)
  ∧ Forall (sensorVisto s) v.

(** The number that a round of the capture loop reads from the rest of the
    line, by the tag of the line. *)
Definition medicionLeida (extraerFloat : string → option float)
    (extraerInt : string → option Z) (tipoDispositivo : ascii) (resto : string)
    : option Medida :=
  if bool_decide (tipoDispositivo = "T" ∨ tipoDispositivo = "t")%char
  then MedidaTermica <$> extraerFloat resto
  else if bool_decide (tipoDispositivo = "P" ∨ tipoDispositivo = "p")%char
       then MedidaPresion <$> extraerInt resto
       else None.

(** The history of a sensor created for a reading, and a history with a
    reading of its kind appended. *)
Definition historialNuevo (x : Medida) : Historial :=
  match x with
  | MedidaTermica medicion => HistorialTermico [medicion]
  | MedidaPresion medicion => HistorialPresion [medicion]
  end.

Definition anexar (h : Historial) (x : Medida) : option Historial :=
  match h, x with
  | HistorialTermico xs, MedidaTermica medicion => Some (HistorialTermico (xs ++ [medicion]))
  | HistorialPresion xs, MedidaPresion medicion => Some (HistorialPresion (xs ++ [medicion]))
  | _, _ => None
  end.

(** The line that [procesarLectura] writes for a history. *)
Definition lineaDe (h : Historial) : Mensaje :=
  match h with
  | HistorialTermico [] => MsgTermicoVacio
  | HistorialTermico xs =>
      MsgValorMinimo
        (foldl (λ valorMinimo medida,
                  if SFltb medida valorMinimo then medida else valorMinimo)
               centinela xs)
  | HistorialPresion [] => MsgBarometricoVacio
  | HistorialPresion xs =>
      let e := foldl (λ e medida, (envolver (e.1 + medida), envolver (e.2 + 1)))
                     (0, 0) xs in
      MsgMediaAritmetica (dividirDouble (doubleDeInt e.1) (doubleDeInt e.2))
  end.

(** *** The shape of the memory of the program *)

Definition historialDe (obj : Sensor) : dir :=
  match obj with
  | Termico t => SensorTemperatura.registroMediciones t
  | Barometrico p => SensorPresion.registroMediciones p
  end.

Definition existeHistorial (s : Sistema) (obj : Sensor) : Prop :=
  match obj with
  | Termico t => is_Some (listas (memTermica s) !! SensorTemperatura.registroMediciones t)
  | Barometrico p => is_Some (listas (memPresion s) !! SensorPresion.registroMediciones p)
  end.

Definition mismaClase (o1 o2 : Sensor) : Prop :=
  match o1, o2 with
  | Termico _, Termico _ | Barometrico _, Barometrico _ => True
  | _, _ => False
  end.

(** [propietarios ds s]: the sensor objects are those at the addresses
    [ds], each once; every sensor has its history list, no two sensors share
    one, every history list belongs to a sensor, and every node of the two
    memories of readings is a cell of a history. *)
Record propietarios (ds : list dir) (s : Sistema) : Prop := mkPropietarios {
  prop_termica : bienFormada (memTermica s) ∧ sinFugas (memTermica s);
  prop_presion : bienFormada (memPresion s) ∧ sinFugas (memPresion s);
  prop_unicos : NoDup ds;
  prop_objetos : dom (dispositivos s) =@{gset dir} list_to_set ds;
  prop_historial : ∀ d obj, dispositivos s !! d = Some obj → existeHistorial s obj;
  prop_propio : ∀ d1 d2 o1 o2,
      dispositivos s !! d1 = Some o1 → dispositivos s !! d2 = Some o2 →
      mismaClase o1 o2 → historialDe o1 = historialDe o2 → d1 = d2;
  prop_termicas : ∀ l, l ∈ dom (listas (memTermica s)) →
      ∃ d t, dispositivos s !! d = Some (Termico t)
             ∧ SensorTemperatura.registroMediciones t = l;
  prop_presiones : ∀ l, l ∈ dom (listas (memPresion s)) →
      ∃ d p, dispositivos s !! d = Some (Barometrico p)
             ∧ SensorPresion.registroMediciones p = l
}.

(** [cuerpo s v]: the sensor objects of the program are those that [v]
    describes, with their histories, and every stored name is one that the
    constructor of [SensorBase] stores. *)
Definition cuerpo (s : Sistema) (v : list (dir * string * Historial)) : Prop :=
  propietarios v.*1.*1 s
  ∧ Forall (sensorVisto s) v
  ∧ Forall (λ e, copiarNombre e.1.2 = e.1.2) v.

(** [registroBien registro s ds]: the registry is the one list of its
    memory, and its nodes, which are all the nodes of that memory, hold the
    pointers [ds]. *)
Definition registroBien (registro : dir) (s : Sistema) (ds : list dir) : Prop :=
  (∃ cs, representa (memRegistro s) registro cs ∧ cs.*2 = ds)
  ∧ bienFormada (memRegistro s) ∧ sinFugas (memRegistro s)
  ∧ dom (listas (memRegistro s)) =@{gset dir} {[registro]}.

Definition sistemaBien (registro : dir) (s : Sistema)
    (v : list (dir * string * Historial)) : Prop :=
  cuerpo s v ∧ registroBien registro s v.*1.*1.

(** A barometric sensor with the readings 100, 200 and 300. *)
Definition memoriaPresionTres : Memoria (T:=Z) := Eval vm_compute in
  (default memoriaInicial
     (snd <$> (r ← SensorPresion.crear "PRES-1";
               SensorPresion.agregarLecturas r.1 [100; 200; 300])
              memoriaInicial)).

(** What option 4 writes for a sensor that stores [nombre] and has the
    history [h]. *)
Definition analisisDe (e : dir * string * Historial) : Analisis :=
  mkAnalisis e.1.2
    (match e.2 with HistorialTermico _ => true | HistorialPresion _ => false end)
    (lineaDe e.2).

(** The history of a sensor after option 3 with the two values typed in:
    the one of its kind is appended. *)
Definition conMedicion (h : Historial) (datoDecimal : float) (datoEntero : Z)
    : Historial :=
  match h with
  | HistorialTermico xs => HistorialTermico (xs ++ [datoDecimal])
  | HistorialPresion xs => HistorialPresion (xs ++ [datoEntero])
  end.

(** A thermal sensor with the readings 5.0, 2.0 and 9.0. *)
Definition memoriaTermicaTres : Memoria (T:=float) := Eval vm_compute in
  (default memoriaInicial
     (snd <$> (r ← SensorTemperatura.crear "TEMP-1";
               SensorTemperatura.agregarLecturas r.1
                 [floatDeEntero 5; floatDeEntero 2; floatDeEntero 9])
              memoriaInicial)).


(** *** The capture loop over the lines that arrive *)

(** The rounds of the loop of [capturarDatosHardware] on the lines that
    [leerLinea] delivers, one after the other, from the value
    [contadorLecturas] has: what is written, and the final counter. *)
Fixpoint capturarLineas (extraerFloat : string → option float)
    (extraerInt : string → option Z) (registro : dir) (lineas : list string)
    (contadorLecturas : Z) : Programa (list Mensaje * Z) :=
  match lineas with
  | [] => mret ([], contadorLecturas)
  | buffer :: resto =>
      r ← procesarBuffer extraerFloat extraerInt registro buffer contadorLecturas;
      r' ← capturarLineas extraerFloat extraerInt registro resto r.2;
      mret (r.1 ++ r'.1, r'.2)
  end.

(** A line that is not of the banner, has its two tokens, a tag that is
    known and a value that reads as a number of the kind of the tag. *)
Definition lineaCompletaDeDatos (extraerFloat : string → option float)
    (extraerInt : string → option Z) (buffer : string) : bool :=
  negb (esRuido buffer)
  && match analizar buffer with
     | Some (tipoDispositivo, _, resto) =>
         bool_decide (is_Some (medicionLeida extraerFloat extraerInt tipoDispositivo resto))
     | None => false
     end.

(** * Properties *)

(** ** Machine integers *)

Lemma envolver_enRango z : enRango z → envolver z = z.
Proof.
  unfold enRango, envolver, INT_MIN, INT_MAX. intros Hz.
  rewrite Z.mod_small; lia.
Qed.

Lemma envolver_suma a b : envolver (envolver a + b) = envolver (a + b).
Proof.
  unfold envolver.
  replace (((a + 2 ^ 31) mod 2 ^ 32 - 2 ^ 31 + b + 2 ^ 31))
    with ((a + 2 ^ 31) mod 2 ^ 32 + b) by lia.
  rewrite Zplus_mod_idemp_l. do 2 f_equal. lia.
Qed.

Lemma envolver_cero : envolver 0 = 0.
Proof. reflexivity. Qed.

(** ** The container *)

Section PropiedadesLista.
Context {T : Type}.
Implicit Types (h : gmap dir (Nodo (T:=T))) (m : Memoria (T:=T)).
Implicit Types (cs : list (dir * T)) (p q : option dir).

Lemma segmento_app h p cs1 cs2 q :
  segmento h p (cs1 ++ cs2) q ↔ ∃ r, segmento h p cs1 r ∧ segmento h r cs2 q.
Proof.
  revert p. induction cs1 as [|c cs1 IH]; intros p; simpl.
  - split; [by eauto | by intros (r & -> & ?)].
  - split.
    + intros (-> & sig & Hc & (r & H1 & H2)%IH). exists r; eauto.
    + intros (r & (-> & sig & Hc & H1) & H2).
      split; [done|]. exists sig. split; [done|]. apply IH; eauto.
Qed.

Lemma cadena_unica h p cs1 cs2 : cadena h p cs1 → cadena h p cs2 → cs1 = cs2.
Proof.
  unfold cadena. revert p cs2.
  induction cs1 as [|[a x] cs1 IH]; intros p [|[b y] cs2]; simpl.
  - done.
  - by intros -> [? _].
  - by intros [-> _] ?.
  - intros (-> & s1 & H1 & R1) (Heq & s2 & H2 & R2).
    simplify_eq. f_equal. eauto.
Qed.

Lemma segmento_marco h h' p cs q :
  (∀ a, a ∈ cs.*1 → h' !! a = h !! a) → segmento h p cs q → segmento h' p cs q.
Proof.
  revert p. induction cs as [|[a x] cs IH]; intros p Hm; simpl; [done|].
  intros (-> & sig & Ha & Hr). split; [done|]. exists sig. split.
  - rewrite Hm; [done | rewrite fmap_cons; apply elem_of_cons; by left].
  - apply IH; [|done]. intros b Hb. apply Hm.
    rewrite fmap_cons. apply elem_of_cons. by right.
Qed.

Lemma segmento_dom h p cs q a : segmento h p cs q → a ∈ cs.*1 → a ∈ dom h.
Proof.
  revert p. induction cs as [|[b x] cs IH]; intros p; simpl; [set_solver|].
  intros (-> & sig & Hb & Hr) Hin.
  apply elem_of_cons in Hin as [Heq|Hin]; [|by eauto].
  subst a. apply elem_of_dom; eauto.
Qed.

Lemma cadena_NoDup h p cs : cadena h p cs → NoDup cs.*1.
Proof.
  unfold cadena. revert p.
  induction cs as [|[a x] cs IH]; intros p; simpl; [constructor|].
  intros (-> & sig & Ha & Hr). constructor; [|by eauto].
  intros ([a' x'] & Heq & Hin)%list_elem_of_fmap. simpl in Heq; subst a'.
  apply list_elem_of_split in Hin as (l1 & l2 & ->).
  pose proof Hr as Hr'.
  apply segmento_app in Hr' as (r & _ & (_ & sig' & Ha' & H2)).
  simpl in *. simplify_eq.
  pose proof (cadena_unica _ _ _ _ Hr H2) as Heq.
  apply (f_equal length) in Heq. rewrite length_app in Heq. simpl in Heq. lia.
Qed.

Lemma cadena_longitud h p cs : cadena h p cs → (length cs ≤ size h)%nat.
Proof.
  intros Hc. rewrite <- (length_fmap fst cs), <- size_dom.
  unfold size, set_size. simpl.
  apply submseteq_length, NoDup_submseteq; [by eapply cadena_NoDup|].
  intros a Ha. apply elem_of_elements. by eapply segmento_dom.
Qed.

Lemma buscarUltimo_spec h cs b x a c :
  cadena h (Some a) (cs ++ [(b, x)]) → (length cs < c)%nat →
  buscarUltimo c h a = Some b.
Proof.
  unfold cadena. revert a c.
  induction cs as [|[a' x'] cs IH]; intros a c; simpl.
  - intros (Heq & sig & Hb & ->) Hc. simplify_eq.
    destruct c; [lia|]. simpl. by rewrite Hb.
  - intros (Heq & sig & Ha & Hr) Hc. simplify_eq.
    destruct c; [lia|]. simpl. rewrite Ha. simpl.
    assert (∃ a2, sig = Some a2) as [a2 ->].
    { destruct cs; simpl in Hr; destruct Hr; eauto. }
    apply IH; [done | lia].
Qed.


(** *** Stepping through a computation *)

Lemma ligar_Some {A B} (c : Accion (T:=T) A) (k : A → Accion B) m a m1 :
  c m = Some (a, m1) → (c ≫= k) m = k a m1.
Proof. intros H. unfold mbind, accion_bind, ligar. by rewrite H. Qed.

Lemma leerLista_Some m this l :
  listas m !! this = Some l → leerLista this m = Some (l, m).
Proof. intros H. unfold leerLista. by rewrite H. Qed.

Lemma escribirLista_Some m this l l' :
  listas m !! this = Some l →
  escribirLista this l' m = Some (tt, mkMemoria (nodos m) (<[this := l']> (listas m))).
Proof. intros H. unfold escribirLista. by rewrite H. Qed.

Lemma leerNodo_Some m a n :
  nodos m !! a = Some n → leerNodo a m = Some (n, m).
Proof. intros H. unfold leerNodo. by rewrite H. Qed.

Lemma escribirNodo_Some m a n n' :
  nodos m !! a = Some n →
  escribirNodo a n' m = Some (tt, mkMemoria (<[a := n']> (nodos m)) (listas m)).
Proof. intros H. unfold escribirNodo. by rewrite H. Qed.

Lemma liberarNodo_Some m a n :
  nodos m !! a = Some n →
  liberarNodo a m = Some (tt, mkMemoria (delete a (nodos m)) (listas m)).
Proof. intros H. unfold liberarNodo. by rewrite H. Qed.

Lemma cadena_ultimo h p cs b x :
  cadena h p (cs ++ [(b, x)]) →
  segmento h p cs (Some b) ∧ h !! b = Some (mkNodo x None).
Proof.
  intros (r & H1 & (-> & sig & Hb & <-))%segmento_app. by simpl in *.
Qed.

Lemma insertarAlFinal_spec m this cs x :
  representa m this cs →
  ∃ m', insertarAlFinal this x m = Some (tt, m')
        ∧ transforma m m' this cs (cs ++ [(fresh (dom (nodos m)), x)]).
Proof.
  intros (l & Hl & Hc & He).
  set (nuevo := fresh (dom (nodos m))).
  assert (nodos m !! nuevo = None) as Hnuevo.
  { apply not_elem_of_dom, is_fresh. }
  assert (nuevo ∉ cs.*1) as Hfuera.
  { intros Hin. eapply segmento_dom in Hin; [|exact Hc]. by apply is_fresh in Hin. }
  assert (envolver (elementos l + 1) = envolver (Z.of_nat (length (cs ++ [(nuevo, x)]))))
    as Hcuenta.
  { rewrite He, envolver_suma, length_app. simpl. f_equal. lia. }
  destruct l as [pr e]. simpl in *.
  induction cs as [|[b y] cs0 _] using rev_ind.
  - (* the list is empty: the new node becomes the first *)
    unfold cadena in Hc. simpl in Hc. subst pr.
    eexists. split.
    { unfold insertarAlFinal.
      erewrite ligar_Some; [|reflexivity].
      erewrite ligar_Some; [|by apply leerLista_Some]. simpl.
      erewrite ligar_Some; [|by eapply escribirLista_Some]. 
      erewrite ligar_Some; [|by apply leerLista_Some; simpl; apply lookup_insert_eq].
      erewrite escribirLista_Some; [|by simpl; apply lookup_insert_eq].
      simpl. reflexivity. }
    repeat split.
    + eexists. split; [by simpl; apply lookup_insert_eq|]. simpl.
      split; [|done]. split; [done|]. exists None. simpl.
      split; [by apply lookup_insert_eq | done].
    + intros j Hj. simpl. by rewrite !lookup_insert_ne.
    + intros a _ Ha. simpl. apply lookup_insert_ne. intros <-.
      by apply is_fresh in Ha.
    + intros a Ha. right. simpl in Ha. apply list_elem_of_singleton in Ha as ->.
      apply is_fresh.
  - (* the list has a last node [b]: the scan stops there *)
    destruct (cadena_ultimo _ _ _ _ _ Hc) as [Hseg Hb].
    pose proof (cadena_NoDup _ _ _ Hc) as Hnd.
    rewrite fmap_app in Hnd, Hfuera. simpl in Hnd, Hfuera.
    apply NoDup_app in Hnd as (_ & Hb0 & _).
    assert (b ∉ cs0.*1) as Hbcs0 by (intros ?; eapply Hb0; [done | by left]).
    assert (nuevo ≠ b) as Hnb.
    { intros ->. apply Hfuera, elem_of_app. right. by apply list_elem_of_singleton. }
    assert (∃ pp, pr = Some pp) as [pp ->].
    { unfold cadena in Hc. destruct cs0; simpl in Hc; destruct Hc; eauto. }
    set (h1 := <[nuevo := mkNodo x None]> (nodos m)).
    assert (cadena h1 (Some pp) (cs0 ++ [(b, y)])) as Hc1.
    { eapply segmento_marco; [|exact Hc]. intros a Ha.
      apply lookup_insert_ne. intros <-. apply Hfuera. by rewrite fmap_app in Ha. }
    assert (h1 !! b = Some (mkNodo y None)) as Hb1.
    { unfold h1. by rewrite lookup_insert_ne. }
    eexists. split.
    { unfold insertarAlFinal.
      erewrite ligar_Some; [|reflexivity].
      erewrite ligar_Some; [|by apply leerLista_Some]. simpl.
      erewrite ligar_Some; cycle 1.
      { erewrite ligar_Some; cycle 1.
        { unfold ultimoNodo. simpl. fold nuevo. fold h1.
          erewrite buscarUltimo_spec; [reflexivity | exact Hc1 |].
          apply cadena_longitud in Hc1. rewrite length_app in Hc1.
          simpl in Hc1. lia. }
        erewrite ligar_Some; cycle 1.
        { apply leerNodo_Some. exact Hb1. }
        eapply escribirNodo_Some. exact Hb1. }
      erewrite ligar_Some; [|by apply leerLista_Some].
      erewrite escribirLista_Some; [|done].
      simpl. reflexivity. }
    clear Hc1 Hb1. subst h1. fold nuevo. repeat split.
    + eexists. split; [by simpl; apply lookup_insert_eq|]. simpl.
      split; [|done].
      apply segmento_app. exists (Some nuevo). split.
      { apply segmento_app. exists (Some b). split.
        - eapply segmento_marco; [|exact Hseg]. intros a Ha.
          rewrite !lookup_insert_ne; [done | |]; intros <-; [|done].
          apply Hfuera, elem_of_app. by left.
        - simpl. split; [done|]. exists (Some nuevo).
          split; [by apply lookup_insert_eq | done]. }
      simpl. split; [done|]. exists None.
      split; [|done]. rewrite lookup_insert_ne by done. by apply lookup_insert_eq.
    + intros j Hj. simpl. by rewrite lookup_insert_ne.
    + intros a Ha Hdom. simpl. rewrite fmap_app in Ha. simpl in Ha.
      rewrite !lookup_insert_ne; [done | |].
      * intros <-. by apply is_fresh in Hdom.
      * intros <-. apply Ha, elem_of_app. right. by apply list_elem_of_singleton.
    + intros a Ha. rewrite !fmap_app in Ha. simpl in Ha.
      apply elem_of_app in Ha as [Ha|Ha].
      * left. by rewrite fmap_app.
      * right. apply list_elem_of_singleton in Ha as ->. apply is_fresh.
Qed.


Lemma representa_unica m this cs1 cs2 :
  representa m this cs1 → representa m this cs2 → cs1 = cs2.
Proof.
  intros (l1 & Hl1 & Hc1 & _) (l2 & Hl2 & Hc2 & _). simplify_eq.
  by eapply cadena_unica.
Qed.

Lemma representa_dom m this cs a :
  representa m this cs → a ∈ cs.*1 → a ∈ dom (nodos m).
Proof. intros (l & _ & Hc & _). by eapply segmento_dom. Qed.

Lemma representa_marco m m' j cs :
  representa m j cs →
  listas m' !! j = listas m !! j →
  (∀ a, a ∈ cs.*1 → nodos m' !! a = nodos m !! a) →
  representa m' j cs.
Proof.
  intros (l & Hl & Hc & He) Hj Hn. exists l. rewrite Hj.
  split; [done|]. split; [|done]. by eapply segmento_marco.
Qed.

Lemma transforma_refl m this cs : representa m this cs → transforma m m this cs cs.
Proof. intros H. repeat split; eauto. Qed.

Lemma transforma_trans m m1 m2 this cs cs1 cs2 :
  transforma m m1 this cs cs1 → transforma m1 m2 this cs1 cs2 →
  transforma m m2 this cs cs2.
Proof.
  intros (Hr1 & Hj1 & Hn1 & Hf1) (Hr2 & Hj2 & Hn2 & Hf2).
  assert (∀ a, a ∉ cs.*1 → a ∈ dom (nodos m) →
            (a ∉ cs1.*1) ∧ (a ∈ dom (nodos m1))) as Hfuera.
  { intros a Ha Hd. split.
    - intros [?|?]%Hf1; done.
    - apply elem_of_dom. rewrite Hn1 by done. by apply elem_of_dom. }
  repeat split.
  - done.
  - intros j Hj. rewrite Hj2, Hj1; done.
  - intros a Ha Hd. destruct (Hfuera a Ha Hd) as [Ha1 Hd1].
    rewrite Hn2, Hn1; done.
  - intros a Ha.
    destruct (decide (a ∈ cs.*1)); [by left|]. right. intros Hd.
    destruct (Hfuera a) as [Ha1 Hd1]; [done..|].
    apply Hf2 in Ha as [?|?]; done.
Qed.

Lemma transforma_otro m m' this cs cs' j csj :
  transforma m m' this cs cs' → j ≠ this →
  representa m j csj → cs.*1 ## csj.*1 → representa m' j csj.
Proof.
  intros (_ & Hj & Hn & _) Hne Hr Hdis.
  eapply representa_marco; [done | by apply Hj |].
  intros a Ha. apply Hn.
  - intros Hin. by eapply Hdis.
  - by eapply representa_dom.
Qed.

(** *** [vaciar] *)

Lemma vaciarBucle_spec c m this cs :
  representa m this cs → (length cs ≤ c)%nat →
  ∃ m', vaciarBucle c this m = Some (tt, m')
        ∧ transforma m m' this cs []
        ∧ (∀ a, nodos m' !! a = if decide (a ∈ cs.*1) then None else nodos m !! a).
Proof.
  revert c m. induction cs as [|[a x] cs IH]; intros c m Hr Hlen.
  - exists m. destruct Hr as (l & Hl & Hc & He). unfold cadena in Hc; simpl in Hc.
    split; [|split].
    + destruct c; simpl; (erewrite ligar_Some; [|by apply leerLista_Some]);
        by rewrite Hc.
    + apply transforma_refl. by exists l.
    + intros b. by rewrite decide_False by apply not_elem_of_nil.
  - destruct c as [|c]; [simpl in Hlen; lia|].
    pose proof Hr as (l & Hl & Hc & He).
    pose proof (cadena_NoDup _ _ _ Hc) as Hnd.
    simpl in Hnd. apply NoDup_cons in Hnd as [Hacs _].
    destruct Hc as (Hp & sig & Ha & Hc). simpl in Hp, Ha.
    set (m1 := mkMemoria (delete a (nodos m))
                 (<[this := mkLista sig (envolver (elementos l - 1))]> (listas m))).
    assert (representa m1 this cs) as Hr1.
    { eexists. split; [by simpl; apply lookup_insert_eq|]. simpl. split.
      - eapply segmento_marco; [|exact Hc]. intros b Hb.
        apply lookup_delete_ne. by intros <-.
      - rewrite He. replace (envolver (Z.of_nat (length ((a, x) :: cs))) - 1)
          with (envolver (Z.of_nat (length ((a, x) :: cs))) + (-1)) by lia.
        rewrite envolver_suma. f_equal. simpl length. lia. }
    destruct (IH c m1 Hr1) as (m' & Hrun & Htr & Hnod); [simpl in Hlen; lia|].
    exists m'. split; [|split].
    + simpl. erewrite ligar_Some; [|by apply leerLista_Some]. rewrite Hp.
      erewrite ligar_Some; [|by apply leerNodo_Some]. simpl.
      erewrite ligar_Some; [|by eapply escribirLista_Some].
      erewrite ligar_Some; [|by eapply liberarNodo_Some].
      erewrite ligar_Some; [|by apply leerLista_Some; simpl; apply lookup_insert_eq].
      erewrite ligar_Some; [|by eapply escribirLista_Some; simpl; apply lookup_insert_eq].
      simpl. rewrite insert_insert_eq. exact Hrun.
    + destruct Htr as (Hr' & Hj & Hn & _). repeat split.
      * done.
      * intros j Hne. rewrite Hj by done. simpl. by apply lookup_insert_ne.
      * intros b Hb Hd. rewrite Hnod. simpl in Hb.
        rewrite decide_False by (intros ?; apply Hb; by right). simpl.
        apply lookup_delete_ne. intros <-. apply Hb. by left.
      * intros b Hb. by apply not_elem_of_nil in Hb.
    + intros b. rewrite Hnod. simpl nodos. rewrite fmap_cons. simpl fst.
      destruct (decide (b ∈ cs.*1)) as [Hin|Hin].
      * rewrite decide_True; [done | by right].
      * destruct (decide (b = a)) as [->|Hne].
        -- rewrite lookup_delete_eq. rewrite decide_True; [done | by left].
        -- rewrite lookup_delete_ne by done.
           rewrite decide_False; [done|]. by intros [?|?]%elem_of_cons.
Qed.

Lemma vaciar_spec m this cs :
  representa m this cs →
  ∃ m', vaciar this m = Some (tt, m')
        ∧ transforma m m' this cs []
        ∧ (∀ a, nodos m' !! a = if decide (a ∈ cs.*1) then None else nodos m !! a).
Proof.
  intros Hr. unfold vaciar. erewrite ligar_Some; [|reflexivity].
  apply vaciarBucle_spec; [done|].
  destruct Hr as (l & _ & Hc & _). by eapply cadena_longitud.
Qed.


(** *** [duplicarDesde] *)

Lemma duplicarBucle_spec c m this nav cst cso :
  representa m this cst → cadena (nodos m) nav cso → cst.*1 ## cso.*1 →
  (length cso ≤ c)%nat →
  ∃ m' csn, duplicarBucle c this nav m = Some (tt, m')
            ∧ csn.*2 = cso.*2
            ∧ transforma m m' this cst (cst ++ csn)
            ∧ (∀ a, a ∈ csn.*1 → a ∉ dom (nodos m)).
Proof.
  revert c m nav cst.
  induction cso as [|[a x] cso IH]; intros c m nav cst Hr Hc Hdis Hlen.
  - exists m, []. unfold cadena in Hc; simpl in Hc. subst nav.
    rewrite app_nil_r. split; [by destruct c|]. split; [done|].
    split; [by apply transforma_refl|]. by intros a ?%not_elem_of_nil.
  - destruct c as [|c]; [simpl in Hlen; lia|].
    destruct Hc as (Hp & sig & Ha & Hc). simpl in Hp, Ha. subst nav.
    destruct (insertarAlFinal_spec m this cst x Hr) as (m1 & Hins & Htr1).
    set (nuevo := fresh (dom (nodos m))) in *.
    pose proof Htr1 as (Hr1 & Hj1 & Hn1 & Hf1).
    assert (∀ b, b ∈ cso.*1 → (b ∉ cst.*1) ∧ (b ∈ dom (nodos m))) as Hviejos.
    { intros b Hb. split.
      - intros Hin. eapply Hdis; [done|]. rewrite fmap_cons. by right.
      - by eapply segmento_dom. }
    assert (cadena (nodos m1) sig cso) as Hc1.
    { eapply segmento_marco; [|exact Hc]. intros b [??]%Hviejos. by apply Hn1. }
    assert ((cst ++ [(nuevo, x)]).*1 ## cso.*1) as Hdis1.
    { intros b Hb [Hb1 Hb2]%Hviejos. rewrite fmap_app in Hb.
      apply elem_of_app in Hb as [?|Hb]; [done|].
      apply list_elem_of_singleton in Hb. simpl in Hb. subst b.
      by apply is_fresh in Hb2. }
    destruct (IH c m1 sig _ Hr1 Hc1 Hdis1) as (m' & csn & Hrun & Hval & Htr & Hfr);
      [simpl in Hlen; lia|].
    exists m', ((nuevo, x) :: csn). split; [|split; [|split]].
    + simpl. erewrite ligar_Some; [|by apply leerNodo_Some]. simpl.
      erewrite ligar_Some; [|exact Hins]. exact Hrun.
    + by rewrite !fmap_cons, Hval.
    + replace (cst ++ (nuevo, x) :: csn) with ((cst ++ [(nuevo, x)]) ++ csn)
        by (by rewrite <- app_assoc).
      by eapply transforma_trans.
    + intros b [->|Hb]%elem_of_cons; [apply is_fresh|].
      intros Hd. apply (Hfr b Hb).
      destruct (decide (b ∈ cst.*1)) as [Hin|Hin].
      * eapply representa_dom; [exact Hr1|]. rewrite fmap_app.
        apply elem_of_app. by left.
      * apply elem_of_dom. rewrite Hn1 by done. by apply elem_of_dom.
Qed.

Lemma duplicarDesde_spec m this origen cst cso :
  representa m this cst → representa m origen cso → cst.*1 ## cso.*1 →
  ∃ m' csn, duplicarDesde this origen m = Some (tt, m')
            ∧ csn.*2 = cso.*2
            ∧ transforma m m' this cst (cst ++ csn)
            ∧ (∀ a, a ∈ csn.*1 → a ∉ dom (nodos m)).
Proof.
  intros Hr (o & Ho & Hc & _) Hdis. unfold duplicarDesde.
  erewrite ligar_Some; [|by apply leerLista_Some].
  destruct (primero o) as [p|] eqn:Hp.
  - erewrite ligar_Some; [|reflexivity].
    apply duplicarBucle_spec; [done..|]. by eapply cadena_longitud.
  - exists m, []. destruct cso as [|c cso]; [|by destruct Hc].
    rewrite app_nil_r. split; [done|]. split; [done|].
    split; [by apply transforma_refl|]. by intros a ?%not_elem_of_nil.
Qed.

(** *** Constructors and assignment *)

Lemma construir_spec m :
  let this := fresh (dom (listas m)) in
  construir m = Some (this, mkMemoria (nodos m) (<[this := mkLista None 0]> (listas m)))
  ∧ listas m !! this = None.
Proof. split; [done|]. apply not_elem_of_dom, is_fresh. Qed.

Lemma representa_nueva m this :
  representa (mkMemoria (nodos m) (<[this := mkLista None 0]> (listas m))) this [].
Proof. eexists. split; [by simpl; apply lookup_insert_eq|]. done. Qed.

Lemma representa_otra_nueva m this j cs :
  listas m !! this = None →
  representa (mkMemoria (nodos m) (<[this := mkLista None 0]> (listas m))) j cs →
  j ≠ this → representa m j cs.
Proof.
  intros Hnone (l & Hl & Hc & He) Hne. simpl in *.
  rewrite lookup_insert_ne in Hl by done. by exists l.
Qed.


(** *** Well-formedness is kept by every operation *)

Lemma bienFormada_representa m this l :
  bienFormada m → listas m !! this = Some l → ∃ cs, representa m this cs.
Proof. intros [H1 _] Hl. destruct (H1 _ _ Hl) as (cs & ? & ?). by exists cs, l. Qed.

Lemma bienFormada_transforma m m' this cs cs' :
  bienFormada m → representa m this cs → transforma m m' this cs cs' →
  bienFormada m'.
Proof.
  intros Hbf Hr Htr. pose proof Hbf as [Hb1 Hb2].
  pose proof Htr as (Hr' & Hj & Hn & Hf).
  assert (∀ j csj, j ≠ this → representa m' j csj →
            representa m j csj ∧ cs'.*1 ## csj.*1) as Hviejo.
  { intros j csj Hne Hrj. pose proof Hrj as (l & Hl & _).
    rewrite Hj in Hl by done.
    destruct (bienFormada_representa _ _ _ Hbf Hl) as (cs0 & Hr0).
    assert (cs.*1 ## cs0.*1) as Hdis by (eapply (Hb2 this j); eauto).
    pose proof (transforma_otro _ _ _ _ _ _ _ Htr Hne Hr0 Hdis) as Hr0'.
    rewrite (representa_unica _ _ _ _ Hrj Hr0'). split; [done|].
    intros a [Ha|Ha]%Hf Ha0; [by eapply Hdis|].
    apply Ha. by eapply representa_dom. }
  split.
  - intros j l Hl. destruct (decide (j = this)) as [->|Hne].
    + destruct Hr' as (l' & Hl' & ? & ?). simplify_eq. eauto.
    + rewrite Hj in Hl by done.
      destruct (bienFormada_representa _ _ _ Hbf Hl) as (cs0 & Hr0).
      assert (cs.*1 ## cs0.*1) as Hdis by (eapply (Hb2 this j); eauto).
      destruct (transforma_otro _ _ _ _ _ _ _ Htr Hne Hr0 Hdis)
        as (l' & Hl' & ? & ?).
      rewrite Hj in Hl' by done. simplify_eq. eauto.
  - intros j1 j2 cs1 cs2 Hne H1 H2.
    destruct (decide (j1 = this)) as [->|Hne1];
      destruct (decide (j2 = this)) as [->|Hne2]; [done| | |].
    + rewrite (representa_unica _ _ _ _ H1 Hr').
      by destruct (Hviejo j2 cs2).
    + rewrite (representa_unica _ _ _ _ H2 Hr').
      destruct (Hviejo j1 cs1) as [_ Hd]; [done..|].
      intros a Ha1 Ha2. by eapply Hd.
    + destruct (Hviejo j1 cs1) as [? _]; [done..|].
      destruct (Hviejo j2 cs2) as [? _]; [done..|].
      by eapply (Hb2 j1 j2).
Qed.

Lemma bienFormada_construir m this :
  listas m !! this = None → bienFormada m →
  bienFormada (mkMemoria (nodos m) (<[this := mkLista None 0]> (listas m))).
Proof.
  intros Hnone [Hb1 Hb2].
  assert (∀ cs, representa (mkMemoria (nodos m) (<[this := mkLista None 0]> (listas m)))
                  this cs → cs = []) as Hnil.
  { intros cs Hr. eapply representa_unica; [done | apply representa_nueva]. }
  split.
  - intros j l. simpl. destruct (decide (j = this)) as [->|Hne].
    + rewrite lookup_insert_eq. intros [= <-]. by exists [].
    + rewrite lookup_insert_ne by done. apply Hb1.
  - intros j1 j2 cs1 cs2 Hne H1 H2.
    destruct (decide (j1 = this)) as [->|Hne1].
    { rewrite (Hnil _ H1). intros a ?%not_elem_of_nil. done. }
    destruct (decide (j2 = this)) as [->|Hne2].
    { rewrite (Hnil _ H2). intros a _ ?%not_elem_of_nil. done. }
    eapply (Hb2 j1 j2); [done | by eapply representa_otra_nueva..].
Qed.

Lemma ligar_inv {A B} (c : Accion (T:=T) A) (k : A → Accion B) m r :
  (c ≫= k) m = Some r → ∃ a m1, c m = Some (a, m1) ∧ k a m1 = Some r.
Proof.
  unfold mbind, accion_bind, ligar. destruct (c m) as [[a m1]|]; [eauto | done].
Qed.

Lemma leerLista_inv this m l m1 :
  leerLista this m = Some (l, m1) → listas m !! this = Some l ∧ m1 = m.
Proof.
  unfold leerLista. destruct (listas m !! this); simpl; [|done].
  by intros [= -> ->].
Qed.

Lemma insertarAlFinal_existe this x m r :
  insertarAlFinal this x m = Some r → is_Some (listas m !! this).
Proof.
  unfold insertarAlFinal.
  intros (nuevo & m1 & [= <- <-] & (l & m2 & [Hl _]%leerLista_inv & _)%ligar_inv)%ligar_inv.
  by exists l.
Qed.

Lemma vaciar_existe this m r :
  vaciar this m = Some r → is_Some (listas m !! this).
Proof.
  unfold vaciar. intros (c & m1 & [= <- <-] & Hrun)%ligar_inv.
  destruct (size (nodos m)); simpl in Hrun;
    apply ligar_inv in Hrun as (l & m2 & [Hl _]%leerLista_inv & _); by exists l.
Qed.

Lemma duplicarDesde_existe this origen m r :
  duplicarDesde this origen m = Some r → is_Some (listas m !! origen).
Proof.
  unfold duplicarDesde.
  intros (l & m2 & [Hl _]%leerLista_inv & _)%ligar_inv. by exists l.
Qed.

Lemma ejecutar_bienFormada op m m' :
  bienFormada m → ejecutar op m = Some (tt, m') → bienFormada m'.
Proof.
  intros Hbf. destruct op as [|origen|this origen|this x|this]; simpl.
  - intros (this & m1 & Hcons & [= <-])%ligar_inv.
    destruct (construir_spec m) as [Heq Hnone]. rewrite Heq in Hcons.
    injection Hcons as <- <-. by apply bienFormada_construir.
  - unfold construirCopia.
    intros (? & m2 & (this & m1 & Hcons & Hdup)%ligar_inv & [= <-])%ligar_inv.
    apply ligar_inv in Hdup as ([] & m3 & Hdup & [= _ <-]).
    destruct (construir_spec m) as [Heq Hnone]. rewrite Heq in Hcons.
    injection Hcons as <- <-.
    pose proof (bienFormada_construir _ _ Hnone Hbf) as Hbf1.
    destruct (duplicarDesde_existe _ _ _ _ Hdup) as [o Ho].
    destruct (bienFormada_representa _ _ _ Hbf1 Ho) as (cso & Hro).
    destruct (duplicarDesde_spec _ _ origen [] cso (representa_nueva m _) Hro)
      as (m' & csn & Hrun & _ & Htr & _).
    { intros a ?%not_elem_of_nil. done. }
    rewrite Hrun in Hdup. injection Hdup as <-.
    eapply bienFormada_transforma; [exact Hbf1 | apply representa_nueva | exact Htr].
  - unfold asignar. destruct (decide (this ≠ origen)) as [Hne|_]; [|by intros [= <-]].
    intros ([] & m1 & Hvac & Hdup)%ligar_inv.
    destruct (vaciar_existe _ _ _ Hvac) as [l Hl].
    destruct (bienFormada_representa _ _ _ Hbf Hl) as (cs & Hr).
    destruct (vaciar_spec _ _ _ Hr) as (m1' & Hrun & Htr & _).
    rewrite Hrun in Hvac. injection Hvac as <-.
    pose proof (bienFormada_transforma _ _ _ _ _ Hbf Hr Htr) as Hbf1.
    destruct (duplicarDesde_existe _ _ _ _ Hdup) as [o Ho].
    destruct (bienFormada_representa _ _ _ Hbf1 Ho) as (cso & Hro).
    pose proof Htr as (Hr1 & _).
    destruct (duplicarDesde_spec _ _ origen [] cso Hr1 Hro)
      as (m2 & csn & Hrun2 & _ & Htr2 & _).
    { intros a ?%not_elem_of_nil. done. }
    rewrite Hrun2 in Hdup. injection Hdup as <-.
    by eapply bienFormada_transforma.
  - intros Hins. destruct (insertarAlFinal_existe _ _ _ _ Hins) as [l Hl].
    destruct (bienFormada_representa _ _ _ Hbf Hl) as (cs & Hr).
    destruct (insertarAlFinal_spec _ _ _ x Hr) as (m1 & Hrun & Htr).
    rewrite Hrun in Hins. injection Hins as <-.
    by eapply bienFormada_transforma.
  - intros Hvac. destruct (vaciar_existe _ _ _ Hvac) as [l Hl].
    destruct (bienFormada_representa _ _ _ Hbf Hl) as (cs & Hr).
    destruct (vaciar_spec _ _ _ Hr) as (m1 & Hrun & Htr & _).
    rewrite Hrun in Hvac. injection Hvac as <-.
    by eapply bienFormada_transforma.
Qed.

Lemma alcanzable_bienFormada m : alcanzable m → bienFormada m.
Proof.
  induction 1 as [|op m m' _ IH Hop].
  - split.
    + intros this l Hl. simpl in Hl. by rewrite lookup_empty in Hl.
    + intros ???? _ (l & Hl & _). simpl in Hl. by rewrite lookup_empty in Hl.
  - by eapply ejecutar_bienFormada.
Qed.


(** *** [iterar] and the read-only methods *)

Lemma iterarDesde_spec {E} c h nav cs (operacion : T → E → option E) e :
  cadena h nav cs → (length cs ≤ c)%nat →
  iterarDesde c h operacion nav e = aplicarEnOrden operacion cs.*2 e.
Proof.
  unfold cadena. revert c nav e.
  induction cs as [|[a x] cs IH]; intros c nav e; simpl.
  - intros -> _. by destruct c.
  - intros (-> & sig & Ha & Hc) Hlen. destruct c as [|c]; [lia|].
    simpl. rewrite Ha. simpl. destruct (operacion x e) as [e'|]; [|done].
    simpl. apply IH; [done | lia].
Qed.

Lemma iterar_spec {E} m this cs (operacion : T → E → option E) e :
  representa m this cs →
  iterar this operacion e m = (e' ← aplicarEnOrden operacion cs.*2 e; Some (e', m)).
Proof.
  intros (l & Hl & Hc & _). unfold iterar. rewrite Hl. simpl.
  erewrite iterarDesde_spec; [done | exact Hc | by eapply cadena_longitud].
Qed.

Lemma getTamanio_spec m this cs :
  representa m this cs →
  getTamanio this m = Some (envolver (Z.of_nat (length cs)), m).
Proof.
  intros (l & Hl & _ & He). unfold getTamanio.
  erewrite ligar_Some; [|by apply leerLista_Some]. by rewrite He.
Qed.

Lemma estaVacia_spec m this cs :
  representa m this cs →
  estaVacia this m = Some (bool_decide (cs = []), m).
Proof.
  intros (l & Hl & Hc & _). unfold estaVacia.
  erewrite ligar_Some; [|by apply leerLista_Some].
  unfold retornar. do 2 f_equal. apply bool_decide_ext.
  unfold cadena in Hc. destruct cs as [|c cs]; simpl in Hc.
  - by rewrite Hc.
  - destruct Hc as [-> _]. split; done.
Qed.

Lemma vaciar_vacia m this :
  representa m this [] → vaciar this m = Some (tt, m).
Proof.
  intros (l & Hl & Hc & _). unfold cadena in Hc; simpl in Hc.
  unfold vaciar. erewrite ligar_Some; [|reflexivity].
  destruct (size (nodos m)); simpl;
    (erewrite ligar_Some; [|by apply leerLista_Some]); by rewrite Hc.
Qed.

Lemma insertarTodos_spec m this cs xs :
  representa m this cs →
  ∃ m' csn, insertarTodos this xs m = Some (tt, m')
            ∧ csn.*2 = xs
            ∧ transforma m m' this cs (cs ++ csn).
Proof.
  revert m cs. induction xs as [|x xs IH]; intros m cs Hr.
  - exists m, []. rewrite app_nil_r. split; [done|]. split; [done|].
    by apply transforma_refl.
  - destruct (insertarAlFinal_spec _ _ _ x Hr) as (m1 & Hrun & Htr).
    pose proof Htr as (Hr1 & _).
    destruct (IH _ _ Hr1) as (m' & csn & Hrun' & Hval & Htr').
    exists m', ((fresh (dom (nodos m)), x) :: csn). split; [|split].
    + simpl. erewrite ligar_Some; [|exact Hrun]. exact Hrun'.
    + by rewrite fmap_cons, Hval.
    + rewrite <- app_assoc in Htr'. by eapply transforma_trans.
Qed.

End PropiedadesLista.

(** ** The container: the laws of the specification *)

Section LeyesLista.
Context {T : Type}.
Implicit Types (m : Memoria (T:=T)) (cs : list (dir * T)).

Lemma duplicar_copiaProfunda m0 m A B csA :
  A ≠ B → representa m B [] → representa m A csA →
  listas m !! A = listas m0 !! A →
  ∃ m1, duplicarDesde B A m = Some (tt, m1) ∧ copiaProfunda m0 m1 A B csA.
Proof.
  intros Hne HB HA HlA.
  destruct (duplicarDesde_spec m B A [] csA HB HA) as (m1 & csB & Hrun & Hval & Htr & Hfr).
  { by intros a ?%not_elem_of_nil. }
  simpl in Htr. exists m1. split; [done|].
  assert (csB.*1 ## csA.*1) as Hdis.
  { intros a Ha Ha'. apply (Hfr a Ha). by eapply representa_dom. }
  pose proof Htr as (HB1 & Hj1 & _).
  assert (representa m1 A csA) as HA1.
  { eapply transforma_otro; [exact Htr | done | done |].
    by intros a ?%not_elem_of_nil. }
  destruct (vaciar_spec _ _ _ HB1) as (m2 & Hvac & Htr2 & _).
  pose proof Htr2 as (HB2 & Hj2 & _).
  assert (representa m2 A csA) as HA2 by (by eapply transforma_otro).
  exists csB. repeat (split; [done|]).
  split; [by rewrite Hj1|].
  exists m2. repeat (split; [done|]).
  assert (listas m2 !! A = listas m0 !! A) as HlA2 by (by rewrite Hj2, Hj1).
  split; [done|].
  unfold getTamanio, leerLista, mbind, accion_bind, ligar. rewrite HlA2.
  by destruct (listas m0 !! A).
Qed.

(** C5.  Copy construction and copy assignment from a list [A] give a list
    with the data of [A] in the same order, held in nodes that are not
    nodes of [A]; [A] keeps its nodes, its data and its counter, also after
    the copy is cleared; assigning a list to itself changes nothing. *)
Theorem copia_profunda_independiente m A csA :
  representa m A csA →
  (∃ B m1, construirCopia A m = Some (B, m1) ∧ B ≠ A
           ∧ copiaProfunda m m1 A B csA)
  ∧ (∀ B csB, B ≠ A → representa m B csB → csB.*1 ## csA.*1 →
       ∃ m1, asignar B A m = Some (tt, m1) ∧ copiaProfunda m m1 A B csA)
  ∧ asignar A A m = Some (tt, m).
Proof.
  intros HA. split; [|split].
  - destruct (construir_spec m) as [Hcons Hnone].
    set (B := fresh (dom (listas m))) in *.
    assert (A ≠ B) as Hne.
    { intros ->. destruct HA as (l & Hl & _). congruence. }
    set (m0 := mkMemoria (nodos m) (<[B := mkLista None 0]> (listas m))) in *.
    assert (listas m0 !! A = listas m !! A) as HlA by (by apply lookup_insert_ne).
    destruct (duplicar_copiaProfunda m m0 A B csA) as (m1 & Hdup & Hcp);
      [done | apply representa_nueva | | done |].
    { eapply representa_marco; [exact HA | done | done]. }
    exists B, m1. split; [|by split].
    unfold construirCopia. erewrite ligar_Some; [|exact Hcons].
    erewrite ligar_Some; [|exact Hdup]. done.
  - intros B csB Hne HB Hdis.
    destruct (vaciar_spec _ _ _ HB) as (m0 & Hvac & Htr & _).
    pose proof Htr as (HB0 & Hj & _).
    destruct (duplicar_copiaProfunda m m0 A B csA) as (m1 & Hdup & Hcp);
      [done | done | | by apply Hj |].
    { by eapply transforma_otro. }
    exists m1. split; [|done].
    unfold asignar. rewrite decide_True by done.
    erewrite ligar_Some; [|exact Hvac]. exact Hdup.
  - unfold asignar. by rewrite decide_False by (by intros ?).
Qed.

(** C6.  [N] appends into a newly constructed list: the counter reads [N]
    (as an [int]: exactly [N] up to [INT_MAX]), and [iterar] hands the
    appended data to the operation one by one, each once, in the order of
    the appends. *)
Theorem insertar_n_y_recorrer m0 (xs : list T) :
  ∃ this m,
    (this ← construir; insertarTodos this xs;; retornar this) m0 = Some (this, m)
    ∧ getTamanio this m = Some (envolver (Z.of_nat (length xs)), m)
    ∧ (Z.of_nat (length xs) ≤ INT_MAX →
         getTamanio this m = Some (Z.of_nat (length xs), m))
    ∧ (∀ E (operacion : T → E → option E) (e : E),
         iterar this operacion e m
         = (e' ← aplicarEnOrden operacion xs e; Some (e', m)))
    ∧ iterar this (λ x visitados, Some (visitados ++ [x])) [] m = Some (xs, m).
Proof.
  destruct (construir_spec m0) as [Hcons _].
  set (this := fresh (dom (listas m0))) in *.
  destruct (insertarTodos_spec _ this [] xs (representa_nueva m0 this))
    as (m & csn & Hrun & Hval & Hr & _).
  simpl in Hr.
  assert (length csn = length xs) as Hlen by (by rewrite <- Hval, length_fmap).
  assert (∀ E (operacion : T → E → option E) (e : E),
            iterar this operacion e m
            = (e' ← aplicarEnOrden operacion xs e; Some (e', m))) as Hiter.
  { intros E operacion e. rewrite <- Hval. by apply iterar_spec. }
  exists this, m. split; [|split; [|split; [|split]]].
  - erewrite ligar_Some; [|exact Hcons].
    erewrite ligar_Some; [|exact Hrun]. done.
  - rewrite <- Hlen. by apply getTamanio_spec.
  - intros Hmax. rewrite <- Hlen. erewrite getTamanio_spec by done.
    rewrite envolver_enRango; [done|].
    unfold enRango, INT_MIN. rewrite Hlen. lia.
  - done.
  - rewrite Hiter. clear. 
    assert (∀ (ys zs : list T),
              aplicarEnOrden (λ x visitados, Some (visitados ++ [x])) ys zs
              = Some (zs ++ ys)) as Hacc.
    { induction ys as [|y ys IH]; intros zs; simpl.
      - by rewrite app_nil_r.
      - rewrite IH. by rewrite <- app_assoc. }
    by rewrite Hacc.
Qed.

(** C8.  In every memory that the public operations can bring about, the
    counter of each list is the number of nodes on the chain from its head
    to the null pointer (as an [int]: exactly that number up to [INT_MAX]);
    [vaciar] succeeds and leaves the list with a null head and counter 0,
    and [vaciar] on the list so emptied changes nothing. *)
Theorem contador_igual_nodos m this l :
  alcanzable m → listas m !! this = Some l →
  ∃ cs, cadena (nodos m) (primero l) cs
        ∧ elementos l = envolver (Z.of_nat (length cs))
        ∧ (Z.of_nat (length cs) ≤ INT_MAX → elementos l = Z.of_nat (length cs))
        ∧ ∃ m1, vaciar this m = Some (tt, m1)
                ∧ alcanzable m1
                ∧ listas m1 !! this = Some (mkLista None 0)
                ∧ vaciar this m1 = Some (tt, m1).
Proof.
  intros Halc Hl. pose proof (alcanzable_bienFormada _ Halc) as Hbf.
  destruct (bienFormada_representa _ _ _ Hbf Hl) as (cs & Hr).
  pose proof Hr as (l' & Hl' & Hc & He). simplify_eq.
  exists cs. split; [done|]. split; [done|]. split.
  { intros Hmax. rewrite He. apply envolver_enRango.
    unfold enRango, INT_MIN. lia. }
  destruct (vaciar_spec _ _ _ Hr) as (m1 & Hvac & (Hr1 & _) & _).
  exists m1. split; [done|]. split.
  { by apply (alcanzable_paso (OpVaciar this) m). }
  split; [|by apply vaciar_vacia].
  destruct Hr1 as ([p e] & Hl1 & Hc1 & He1).
  unfold cadena in Hc1. simpl in *. by subst.
Qed.

End LeyesLista.

(** ** The sensors *)

Section PropiedadesSensores.

Lemma aplicar_actualizarMinimo (xs : list float) (v : float) :
  aplicarEnOrden SensorTemperatura.actualizarMinimo xs v
  = Some (foldl (λ valorMinimo medida,
                   if SFltb medida valorMinimo then medida else valorMinimo) v xs).
Proof. revert v. induction xs as [|x xs IH]; intros v; simpl; [done|]. apply IH. Qed.

Lemma aplicar_acumular (xs : list Z) (e : Z * Z) :
  aplicarEnOrden SensorPresion.acumular xs e
  = Some (foldl (λ e medida, (envolver (e.1 + medida), envolver (e.2 + 1))) e xs).
Proof. revert e. induction xs as [|x xs IH]; intros e; simpl; [done|]. apply IH. Qed.

(** What [procesarLectura] of a thermal sensor writes, for any history. *)
Lemma procesarLectura_termico m (s : SensorTemperatura.t) cs :
  representa m (SensorTemperatura.registroMediciones s) cs →
  SensorTemperatura.procesarLectura s m
  = Some (match cs with
          | [] => MsgTermicoVacio
          | _ => MsgValorMinimo
                   (foldl (λ valorMinimo medida,
                             if SFltb medida valorMinimo then medida else valorMinimo)
                          (floatDeEntero 999999) cs.*2)
          end, m).
Proof.
  intros Hr. unfold SensorTemperatura.procesarLectura.
  erewrite ligar_Some; [|by eapply estaVacia_spec].
  destruct cs as [|c cs]; [done|].
  rewrite bool_decide_false by done.
  erewrite ligar_Some; [done|].
  erewrite iterar_spec by done. by rewrite aplicar_actualizarMinimo.
Qed.

(** What [procesarLectura] of a barometric sensor writes, for any
    history. *)
Lemma procesarLectura_barometrico m (s : SensorPresion.t) cs :
  representa m (SensorPresion.registroMediciones s) cs →
  SensorPresion.procesarLectura s m
  = Some (match cs with
          | [] => MsgBarometricoVacio
          | _ =>
              let e := foldl (λ e medida, (envolver (e.1 + medida), envolver (e.2 + 1)))
                             (0, 0) cs.*2 in
              MsgMediaAritmetica (dividirDouble (doubleDeInt e.1) (doubleDeInt e.2))
          end, m).
Proof.
  intros Hr. unfold SensorPresion.procesarLectura.
  erewrite ligar_Some; [|by eapply estaVacia_spec].
  destruct cs as [|c cs]; [done|].
  rewrite bool_decide_false by done.
  erewrite ligar_Some; [done|].
  erewrite iterar_spec by done. by rewrite aplicar_acumular.
Qed.

(** While no partial sum leaves the range of [int], the two counters of
    the barometric sensor are the sum and the number of the readings. *)
Lemma acumular_sin_desborde (xs : list Z) (a n : Z) :
  (∀ k, (k ≤ length xs)%nat → enRango (a + foldr Z.add 0 (take k xs))) →
  enRango (n + Z.of_nat (length xs)) → 0 ≤ n →
  foldl (λ e medida, (envolver (e.1 + medida), envolver (e.2 + 1))) (a, n) xs
  = (a + foldr Z.add 0 xs, n + Z.of_nat (length xs)).
Proof.
  revert a n. induction xs as [|x xs IH]; intros a n Hsum Hn Hn0; simpl.
  - f_equal; lia.
  - assert (envolver (a + x) = a + x) as ->.
    { apply envolver_enRango. specialize (Hsum 1%nat).
      rewrite firstn_cons, take_0 in Hsum. simpl in Hsum.
      replace (a + x) with (a + (x + 0)) by lia. apply Hsum. lia. }
    assert (envolver (n + 1) = n + 1) as ->.
    { apply envolver_enRango. unfold enRango, INT_MIN, INT_MAX in *.
      simpl length in Hn. lia. }
    rewrite IH.
    + f_equal; simpl length; lia.
    + intros k Hk. specialize (Hsum (S k)). rewrite firstn_cons in Hsum.
      simpl in Hsum. replace (a + x + foldr Z.add 0 (take k xs))
        with (a + (x + foldr Z.add 0 (take k xs))) by lia.
      apply Hsum. lia.
    + simpl length in Hn. replace (n + 1 + Z.of_nat (length xs))
        with (n + Z.of_nat (S (length xs))) by lia. done.
    + lia.
Qed.

(** Within the range of [int], the barometric sensor reports the quotient
    of the sum of its readings by their number, rounded to [double]. *)
Lemma media_sin_desborde m (s : SensorPresion.t) cs :
  representa m (SensorPresion.registroMediciones s) cs → cs ≠ [] →
  (∀ k, (k ≤ length cs)%nat → enRango (foldr Z.add 0 (take k cs.*2))) →
  Z.of_nat (length cs) ≤ INT_MAX →
  SensorPresion.procesarLectura s m
  = Some (MsgMediaAritmetica
            (dividirDouble (doubleDeInt (foldr Z.add 0 cs.*2))
                           (doubleDeInt (Z.of_nat (length cs)))), m).
Proof.
  intros Hr Hne Hsum Hlen. rewrite (procesarLectura_barometrico _ _ _ Hr).
  destruct cs as [|c cs]; [done|]. cbv zeta.
  rewrite (acumular_sin_desborde _ 0 0).
  - simpl fst. simpl snd. by rewrite length_fmap.
  - intros k Hk. rewrite Z.add_0_l. apply Hsum. by rewrite length_fmap in Hk.
  - rewrite length_fmap. unfold enRango, INT_MIN. lia.
  - done.
Qed.

Lemma acumular_envuelto (xs : list Z) (a n : Z) :
  foldl (λ e medida, (envolver (e.1 + medida), envolver (e.2 + 1)))
        (envolver a, envolver n) xs
  = (envolver (a + foldr Z.add 0 xs), envolver (n + Z.of_nat (length xs))).
Proof.
  revert a n. induction xs as [|x xs IH]; intros a n.
  - simpl. by rewrite !Z.add_0_r.
  - cbn [foldl fst snd]. rewrite !envolver_suma, IH. simpl foldr. simpl length.
    f_equal; f_equal; lia.
Qed.

(** C1.  The running minimum starts from the constant 999999.0 and a
    reading replaces it only when it is smaller: a sensor all of whose
    readings are 999999.0 or more (or NaN) reports 999999.0, whatever the
    readings are. *)
Theorem minimo_parte_del_centinela m (s : SensorTemperatura.t) cs :
  representa m (SensorTemperatura.registroMediciones s) cs → cs ≠ [] →
  (∀ x, x ∈ cs.*2 → SFltb x (floatDeEntero 999999) = false) →
  SensorTemperatura.procesarLectura s m
  = Some (MsgValorMinimo (floatDeEntero 999999), m).
Proof.
  intros Hr Hne Hx. rewrite (procesarLectura_termico _ _ _ Hr).
  destruct cs as [|c cs]; [done|]. do 3 f_equal.
  clear Hr Hne. induction (_ :: cs).*2 as [|x xs IH]; [done|].
  simpl. rewrite Hx by (by left). apply IH. intros y ?. apply Hx. by right.
Qed.

(** C4.  The sum of the readings is kept in an [int]: what the barometric
    sensor divides is the sum of its readings reduced to the range of [int],
    by the number of the readings (reduced likewise), both converted to
    [double]. *)
Theorem media_de_la_suma_envuelta m (s : SensorPresion.t) cs :
  representa m (SensorPresion.registroMediciones s) cs → cs ≠ [] →
  SensorPresion.procesarLectura s m
  = Some (MsgMediaAritmetica
            (dividirDouble (doubleDeInt (envolver (foldr Z.add 0 cs.*2)))
                           (doubleDeInt (envolver (Z.of_nat (length cs))))), m).
Proof.
  intros Hr Hne. rewrite (procesarLectura_barometrico _ _ _ Hr).
  destruct cs as [|c cs]; [done|]. cbv zeta.
  change (0, 0) with (envolver 0, envolver 0).
  rewrite acumular_envuelto. by rewrite length_fmap.
Qed.

(** C7.  With no reading recorded, [procesarLectura] of either kind of
    sensor writes its line for the empty record, and nothing else: no
    minimum and no mean is computed.  This is so for a sensor as its
    constructor leaves it and for any sensor whose list has no node. *)
Theorem procesar_sin_datos :
  (∀ m (s : SensorTemperatura.t),
     representa m (SensorTemperatura.registroMediciones s) [] →
     SensorTemperatura.procesarLectura s m = Some (MsgTermicoVacio, m))
  ∧ (∀ m (s : SensorPresion.t),
       representa m (SensorPresion.registroMediciones s) [] →
       SensorPresion.procesarLectura s m = Some (MsgBarometricoVacio, m))
  ∧ (∀ m identificador,
       ∃ s msg m', SensorTemperatura.crear identificador m = Some ((s, msg), m')
                   ∧ SensorTemperatura.procesarLectura s m' = Some (MsgTermicoVacio, m'))
  ∧ (∀ m identificador,
       ∃ s msg m', SensorPresion.crear identificador m = Some ((s, msg), m')
                   ∧ SensorPresion.procesarLectura s m' = Some (MsgBarometricoVacio, m')).
Proof.
  split; [|split; [|split]].
  - intros m s Hr. by rewrite (procesarLectura_termico _ _ _ Hr).
  - intros m s Hr. by rewrite (procesarLectura_barometrico _ _ _ Hr).
  - intros m identificador. do 3 eexists. split.
    + unfold SensorTemperatura.crear. erewrite ligar_Some; reflexivity.
    + rewrite (procesarLectura_termico _ _ []); [done | apply representa_nueva].
  - intros m identificador. do 3 eexists. split.
    + unfold SensorPresion.crear. erewrite ligar_Some; reflexivity.
    + rewrite (procesarLectura_barometrico _ _ []); [done | apply representa_nueva].
Qed.

End PropiedadesSensores.

(** ** The registry and the capture loop *)

Section PropiedadesCaptura.

Lemma programa_ligar {A B} (c : Programa A) (k : A → Programa B) s a s1 :
  c s = Some (a, s1) → (c ≫= k) s = k a s1.
Proof. intros H. unfold mbind, programa_bind. by rewrite H. Qed.

Lemma filter_ninguno {A} (P : A → Prop) `{∀ x, Decision (P x)} (l : list A) :
  (∀ x, x ∈ l → ¬ P x) → filter P l = [].
Proof.
  induction l as [|x l IH]; intros Hl; [done|].
  rewrite filter_cons_False by (apply Hl; by left).
  apply IH. intros y ?. apply Hl. by right.
Qed.

Lemma aplicar_anotar objetos identificador (ds : list dir) (acc : option dir) :
  (∀ d, d ∈ ds → is_Some (objetos !! d)) →
  aplicarEnOrden (anotarSiCoincide objetos identificador) ds acc
  = Some (match last (filter (llevaNombre objetos identificador) ds) with
          | Some d => Some d
          | None => acc
          end).
Proof.
  revert acc. induction ds as [|d ds IH]; intros acc Hobj; simpl; [done|].
  destruct (Hobj d) as [obj Hd]; [by left|].
  assert (anotarSiCoincide objetos identificador d acc
          = Some (if decide (getNombre obj = identificador) then Some d else acc))
    as -> by (unfold anotarSiCoincide; by rewrite Hd).
  simpl. rewrite IH by (intros d' ?; apply Hobj; by right).
  f_equal. rewrite filter_cons.
  destruct (decide (getNombre obj = identificador)) as [Heq|Hne].
  - rewrite decide_True by (unfold llevaNombre; by rewrite Hd, <- Heq).
    rewrite last_cons. by destruct (last _).
  - rewrite decide_False; [done|].
    unfold llevaNombre. rewrite Hd. by intros [= ?].
Qed.

(** The search returns the sensor registered last among those that carry
    the identifier. *)
Lemma localizar_spec s registro cs identificador :
  representa (memRegistro s) registro cs →
  (∀ d, d ∈ cs.*2 → is_Some (dispositivos s !! d)) →
  localizar registro identificador s
  = Some (last (filter (llevaNombre (dispositivos s) identificador) cs.*2), s).
Proof.
  intros Hr Hobj. unfold localizar, enRegistro.
  erewrite iterar_spec by done. rewrite aplicar_anotar by done.
  simpl. destruct s. simpl. by destruct (last _).
Qed.

(** C2, amended.  In a registry whose nodes hold the pointers [cs.*2], in
    the order of registration, the search by identifier gives the sensor
    registered last among those whose stored name is that identifier,
    character for character; it gives the null pointer when no registered
    sensor has that name. *)
Theorem localizar_ultimo_registrado s registro cs identificador :
  representa (memRegistro s) registro cs →
  (∀ d, d ∈ cs.*2 → is_Some (dispositivos s !! d)) →
  localizar registro identificador s
  = Some (last (filter (llevaNombre (dispositivos s) identificador) cs.*2), s)
  ∧ (∀ antes d despues,
       cs.*2 = antes ++ d :: despues →
       llevaNombre (dispositivos s) identificador d →
       (∀ d', d' ∈ despues → ¬ llevaNombre (dispositivos s) identificador d') →
       localizar registro identificador s = Some (Some d, s))
  ∧ ((∀ d, d ∈ cs.*2 → ¬ llevaNombre (dispositivos s) identificador d) →
     localizar registro identificador s = Some (None, s))
  ∧ (∀ d, localizar registro identificador s = Some (Some d, s) →
          d ∈ cs.*2 ∧ ∃ obj, dispositivos s !! d = Some obj
                             ∧ getNombre obj = identificador).
Proof.
  intros Hr Hobj. rewrite (localizar_spec _ _ _ _ Hr Hobj).
  split; [done|]. split; [|split].
  - intros antes d despues -> Hd Hdespues. do 2 f_equal.
    rewrite filter_app, filter_cons_True by done.
    assert (filter (llevaNombre (dispositivos s) identificador) despues = []) as ->.
    { by apply filter_ninguno. }
    by rewrite last_snoc.
  - intros Hninguno. do 2 f_equal.
    by rewrite filter_ninguno.
  - intros d [= Hlast]. apply last_Some_elem_of, list_elem_of_filter in Hlast as [Hd Hin].
    split; [done|]. unfold llevaNombre in Hd.
    destruct (dispositivos s !! d) as [obj|]; [|done].
    exists obj. split; [done|]. by injection Hd.
Qed.

(** C3.  A line that addresses a registered sensor with the tag of the
    other kind, and carries a value that reads as a number of that kind:
    the round leaves the whole memory as it was (registry, sensors and
    histories), and it writes the echo of the line and the count of
    captured readings, raised by one; it writes no warning. *)
Theorem desajuste_sin_advertencia (extraerFloat : string → option float)
    (extraerInt : string → option Z) s registro cs buffer contadorLecturas
    tipoDispositivo identificador resto d :
  esRuido buffer = false →
  analizar buffer = Some (tipoDispositivo, identificador, resto) →
  representa (memRegistro s) registro cs →
  (∀ d', d' ∈ cs.*2 → is_Some (dispositivos s !! d')) →
  last (filter (llevaNombre (dispositivos s) identificador) cs.*2) = Some d →
  (((tipoDispositivo = "P" ∨ tipoDispositivo = "p")%char
    ∧ is_Some (extraerInt resto)
    ∧ ∃ t, dispositivos s !! d = Some (Termico t))
   ∨ ((tipoDispositivo = "T" ∨ tipoDispositivo = "t")%char
      ∧ is_Some (extraerFloat resto)
      ∧ ∃ p, dispositivos s !! d = Some (Barometrico p))) →
  ∃ salida,
    procesarBuffer extraerFloat extraerInt registro buffer contadorLecturas s
    = Some ((salida, envolver (contadorLecturas + 1)), s)
    ∧ salida = [MsgRecibido buffer; MsgTotalCapturadas (envolver (contadorLecturas + 1))]
    ∧ forallb (λ msg, negb (esAdvertencia msg)) salida = true.
Proof.
  intros Hruido Hanalizar Hr Hobj Hlast Hcaso.
  eexists. split; [|split; [reflexivity|done]].
  unfold procesarBuffer. rewrite Hruido, Hanalizar.
  erewrite programa_ligar; [|by apply localizar_spec]. rewrite Hlast.
  destruct Hcaso as [(Htipo & [v Hv] & t & Hd)|(Htipo & [v Hv] & p & Hd)].
  - rewrite bool_decide_false by (destruct Htipo as [-> | ->]; by intros [?|?]).
    rewrite bool_decide_true by done. rewrite Hv.
    erewrite programa_ligar; cycle 1.
    { erewrite programa_ligar; [|unfold desreferenciar; by rewrite Hd].
      reflexivity. }
    reflexivity.
  - rewrite bool_decide_true by done. rewrite Hv.
    erewrite programa_ligar; cycle 1.
    { erewrite programa_ligar; [|unfold desreferenciar; by rewrite Hd].
      reflexivity. }
    reflexivity.
Qed.

End PropiedadesCaptura.

(** ** The serial line reader *)

Section PropiedadesSerial.
Import SerialPort.

Lemma append_vacio_r (s : string) : s +:+ EmptyString = s.
Proof.
  induction s as [|a s IH]; [done|].
  change (String a (s +:+ EmptyString) = String a s). by rewrite IH.
Qed.

Lemma append_caracter (acc : string) (c : ascii) (suf : string) :
  (acc +:+ String c EmptyString) +:+ suf = acc +:+ String c suf.
Proof.
  induction acc as [|a acc IH]; [done|].
  change (String a ((acc +:+ String c EmptyString) +:+ suf)
          = String a (acc +:+ String c suf)).
  by rewrite IH.
Qed.

Lemma append_caracter_no_vacio (acc : string) (c : ascii) :
  acc +:+ String c EmptyString ≠ EmptyString.
Proof. by destruct acc. Qed.

Lemma sinError_cons x l : sinError (x :: l) ↔ x ≠ LecturaError ∧ sinError l.
Proof.
  unfold sinError. rewrite not_elem_of_cons.
  split; intros [H1 H2]; split; done.
Qed.

(** A call that returns a line has consumed exactly one complete line. *)
Lemma leerBucle_Exito entrada acc linea resto :
  leerBucle entrada acc = Exito linea resto →
  ∃ consumidas t previos suf,
    entrada = consumidas ++ LecturaByte t :: resto
    ∧ esTerminador t = true
    ∧ sinError consumidas
    ∧ linea = acc +:+ suf
    ∧ linea ≠ EmptyString
    ∧ bytesDe consumidas = previos ++ list_ascii_of_string suf
    ∧ Forall (λ c, esTerminador c = true) previos
    ∧ Forall (λ c, esTerminador c = false) (list_ascii_of_string suf)
    ∧ (acc ≠ EmptyString → previos = []).
Proof.
  revert acc. induction entrada as [|[| |c] entrada IH]; intros acc; simpl; [done..| |].
  - intros (cons & t & prev & suf & -> & Ht & Hse & Hl & Hne & Hb & Hp & Hs & Hacc)%IH.
    exists (LecturaVacia :: cons), t, prev, suf.
    repeat (split; [done|]). split; [by apply sinError_cons|]. done.
  - destruct (esTerminador c) eqn:Hc.
    + destruct (decide (acc = EmptyString)) as [->|Hacc].
      * simpl.
        intros (cons & t & prev & suf & -> & Ht & Hse & Hl & Hne & Hb & Hp & Hs & _)%IH.
        exists (LecturaByte c :: cons), t, (c :: prev), suf.
        repeat (split; [done|]). split; [by apply sinError_cons|].
        repeat (split; [done|]). split; [by simpl; rewrite Hb|].
        split; [by constructor|]. done.
      * rewrite bool_decide_false by done. simpl. intros [= -> ->].
        exists [], c, [], EmptyString. split; [done|]. split; [done|].
        split; [by apply not_elem_of_nil|]. split; [by rewrite append_vacio_r|].
        done.
    + intros (cons & t & prev & suf & -> & Ht & Hse & Hl & Hne & Hb & Hp & Hs & Hacc)%IH.
      rewrite (Hacc (append_caracter_no_vacio _ _)) in *.
      exists (LecturaByte c :: cons), t, [], (String c suf).
      repeat (split; [done|]). split; [by apply sinError_cons|].
      split; [by rewrite <- append_caracter|]. split; [done|].
      split; [by simpl; rewrite Hb|]. split; [done|].
      split; [by constructor|]. done.
Qed.

(** A complete line on the transport is returned. *)
Lemma leerBucle_completa consumidas acc previos suf t resto :
  sinError consumidas →
  bytesDe consumidas = previos ++ list_ascii_of_string suf →
  Forall (λ c, esTerminador c = true) previos →
  Forall (λ c, esTerminador c = false) (list_ascii_of_string suf) →
  (acc ≠ EmptyString → previos = []) →
  acc +:+ suf ≠ EmptyString →
  esTerminador t = true →
  leerBucle (consumidas ++ LecturaByte t :: resto) acc = Exito (acc +:+ suf) resto.
Proof.
  revert acc previos suf.
  induction consumidas as [|[| |c] consumidas IH]; intros acc previos suf;
    simpl; intros Hse Hb Hp Hs Hacc Hne Ht.
  - symmetry in Hb. apply app_eq_nil in Hb as [-> Hsuf].
    destruct suf; [|done]. rewrite append_vacio_r in *. rewrite Ht.
    by rewrite bool_decide_false.
  - by apply sinError_cons in Hse as [? _].
  - apply sinError_cons in Hse as [_ Hse]. by eapply IH.
  - apply sinError_cons in Hse as [_ Hse].
    destruct previos as [|c' previos].
    + destruct suf as [|c' suf]; [done|]. simpl in Hb. injection Hb as <- Hb.
      apply Forall_cons in Hs as [Hc Hs]. rewrite Hc.
      rewrite <- (append_caracter acc c suf).
      apply (IH (acc +:+ String c EmptyString) [] suf); [done..| |done].
      by rewrite append_caracter.
    + simpl in Hb. injection Hb as <- Hb.
      apply Forall_cons in Hp as [Hc Hp]. rewrite Hc.
      destruct (decide (acc = EmptyString)) as [->|Hacc']; [|by specialize (Hacc Hacc')].
      simpl. by eapply IH.
Qed.

(** An error of [read] while the call waits for the end of a line ends
    the call with [false]. *)
Lemma leerBucle_error antes despues acc parcial :
  leerBucle antes acc = EnEspera parcial →
  leerBucle (antes ++ LecturaError :: despues) acc = Fallo parcial despues.
Proof.
  revert acc. induction antes as [|[| |c] antes IH]; intros acc; simpl.
  - by intros [= ->].
  - done.
  - apply IH.
  - destruct (esTerminador c); [|by apply IH].
    destruct (negb _); [done | by apply IH].
Qed.

Lemma leerLinea_abierto this secuencia entrada :
  abierto this → leerLinea this secuencia entrada = (this, leerBucle entrada EmptyString).
Proof.
  intros [He Hd]. unfold leerLinea. rewrite He. simpl.
  by destruct (Z.ltb_spec (descriptorArchivo this) 0); [lia|].
Qed.

(** C9.  [leerLinea] returns [true] with a line exactly when the port is
    open and the transport delivers a complete line: after terminators of
    empty lines only, the characters of the line, not empty and free of
    terminators, closed by a newline or a carriage return, and no error
    of [read] before that.  An error of [read] met while the call waits
    makes it return [false]. *)
Theorem leerLinea_lineas_completas this secuencia entrada :
  (∀ this' linea resto,
     leerLinea this secuencia entrada = (this', Exito linea resto)
     ↔ this' = this ∧ abierto this ∧ lineaCompleta entrada linea resto)
  ∧ (∀ antes despues parcial,
       abierto this → entrada = antes ++ LecturaError :: despues →
       leerBucle antes EmptyString = EnEspera parcial →
       leerLinea this secuencia entrada = (this, Fallo parcial despues)).
Proof.
  split.
  - intros this' linea resto. split.
    + unfold leerLinea.
      destruct (estadoConexion this) eqn:He; simpl; [|done].
      destruct (Z.ltb_spec (descriptorArchivo this) 0) as [|Hd]; [done|].
      intros [= <- Hrun]. split; [done|]. split; [done|].
      apply leerBucle_Exito in Hrun
        as (cons & t & prev & suf & -> & Ht & Hse & Hl & Hne & Hb & Hp & Hs & _).
      change (linea = suf) in Hl. subst suf.
      split; [done|]. split; [done|]. by exists cons, t, prev.
    + intros (-> & Hab & Hne & Hs & cons & t & prev & -> & Ht & Hse & Hb & Hp).
      rewrite leerLinea_abierto by done. f_equal.
      by apply (leerBucle_completa cons EmptyString prev linea).
  - intros antes despues parcial Hab -> Hrun.
    rewrite leerLinea_abierto by done. f_equal. by apply leerBucle_error.
Qed.

(** C10.  On a port that is not open, [leerLinea] returns [false] at
    once: the object and the caller's string are as they were and no
    outcome of [read] is consumed.  This holds for the port as its
    constructor leaves it and for any port after [cerrar]. *)
Theorem leerLinea_puerto_cerrado :
  (∀ this secuencia entrada,
     estaAbierto this = false →
     leerLinea this secuencia entrada = (this, Fallo secuencia entrada))
  ∧ (∀ secuencia entrada,
       estaAbierto nuevo = false
       ∧ leerLinea nuevo secuencia entrada = (nuevo, Fallo secuencia entrada))
  ∧ (∀ this secuencia entrada,
       leerLinea (cerrar this) secuencia entrada
       = (cerrar this, Fallo secuencia entrada)).
Proof.
  split; [|split].
  - intros this secuencia entrada Hc. unfold leerLinea, estaAbierto in *.
    by rewrite Hc.
  - done.
  - intros [fd est] secuencia entrada. unfold cerrar, leerLinea. simpl.
    destruct est; simpl; [|done].
    destruct (Z.leb_spec 0 fd); simpl; [done|].
    by destruct (Z.ltb_spec fd 0); [|lia].
Qed.

End PropiedadesSerial.

(** ** The laws at concrete inputs *)

(** Solves [representa m this cs] for concrete [m], [this] and [cs]. *)
Ltac representa_concreta :=
  eexists; split; [reflexivity|]; split; [|reflexivity];
  unfold cadena; simpl;
  repeat (split; [reflexivity|]; eexists; split; [reflexivity|]);
  reflexivity.

Lemma alcanzable_ejecutarTodo {T} (ops : list (Operacion (T:=T))) m m' :
  alcanzable m → ejecutarTodo ops m = Some (tt, m') → alcanzable m'.
Proof.
  revert m. induction ops as [|op ops IH]; intros m Hm; simpl.
  - by intros [= <-].
  - intros ([] & m1 & Hop & Hrest)%ligar_inv.
    eapply IH; [|exact Hrest]. by eapply alcanzable_paso.
Qed.

Lemma memoriaEjemplo_alcanzable : alcanzable memoriaEjemplo.
Proof.
  apply (alcanzable_ejecutarTodo
           [OpConstruir; OpInsertar 1%positive 5; OpInsertar 1%positive 2;
            OpInsertar 1%positive 9; OpConstruir; OpInsertar 2%positive 7]
           memoriaInicial); [constructor | by vm_compute].
Qed.

Lemma memoriaEjemplo_lista1 :
  representa memoriaEjemplo 1%positive [(1%positive, 5); (2%positive, 2); (3%positive, 9)].
Proof. representa_concreta. Qed.

Lemma memoriaEjemplo_lista2 :
  representa memoriaEjemplo 2%positive [(4%positive, 7)].
Proof. representa_concreta. Qed.

(** The deep copy law on the list 5, 2, 9: copy construction, and
    assignment to the list that holds 7. *)
Lemma copia_profunda_independiente_witness :
  representa memoriaEjemplo 1%positive
    [(1%positive, 5); (2%positive, 2); (3%positive, 9)]
  ∧ (∃ B m1, construirCopia 1%positive memoriaEjemplo = Some (B, m1) ∧ B ≠ 1%positive
             ∧ copiaProfunda memoriaEjemplo m1 1%positive B
                 [(1%positive, 5); (2%positive, 2); (3%positive, 9)])
  ∧ (∃ m1, asignar 2%positive 1%positive memoriaEjemplo = Some (tt, m1)
           ∧ copiaProfunda memoriaEjemplo m1 1%positive 2%positive
               [(1%positive, 5); (2%positive, 2); (3%positive, 9)])
  ∧ asignar 1%positive 1%positive memoriaEjemplo = Some (tt, memoriaEjemplo).
Proof.
  pose proof (copia_profunda_independiente memoriaEjemplo 1%positive _
                memoriaEjemplo_lista1) as (Hcopia & Hasigna & Hmisma).
  split; [exact memoriaEjemplo_lista1|]. split; [exact Hcopia|].
  split; [|exact Hmisma].
  apply (Hasigna 2%positive [(4%positive, 7)]); [done | exact memoriaEjemplo_lista2 |].
  intros a Ha Ha'. apply list_elem_of_singleton in Ha. subst a.
  by repeat (apply elem_of_cons in Ha' as [?|Ha']; [done|]); apply not_elem_of_nil in Ha'.
Defined.

(** Three appends into a new list. *)
Lemma insertar_n_y_recorrer_witness :
  ∃ this m,
    (this ← construir; insertarTodos this [5; 2; 9];; retornar this) memoriaInicial
    = Some (this, m)
    ∧ getTamanio this m = Some (3, m)
    ∧ iterar this (λ x visitados, Some (visitados ++ [x])) [] m = Some ([5; 2; 9], m).
Proof.
  destruct (insertar_n_y_recorrer (T:=Z) memoriaInicial [5; 2; 9])
    as (this & m & Hrun & _ & Htam & _ & Hvisita).
  exists this, m. split; [exact Hrun|]. split; [|exact Hvisita].
  apply Htam. unfold INT_MAX. simpl. lia.
Defined.

(** The counter of the list 5, 2, 9 in the example memory. *)
Lemma contador_igual_nodos_witness :
  alcanzable memoriaEjemplo
  ∧ listas memoriaEjemplo !! 1%positive = Some (mkLista (Some 1%positive) 3)
  ∧ ∃ cs, cadena (nodos memoriaEjemplo) (Some 1%positive) cs
          ∧ 3 = Z.of_nat (length cs)
          ∧ ∃ m1, vaciar 1%positive memoriaEjemplo = Some (tt, m1)
                  ∧ listas m1 !! 1%positive = Some (mkLista None 0)
                  ∧ vaciar 1%positive m1 = Some (tt, m1).
Proof.
  split; [exact memoriaEjemplo_alcanzable|]. split; [reflexivity|].
  destruct (contador_igual_nodos memoriaEjemplo 1%positive (mkLista (Some 1%positive) 3)
              memoriaEjemplo_alcanzable eq_refl)
    as (cs & Hc & _ & Hexacto & m1 & Hvac & _ & Hl1 & Hvac2).
  exists cs. split; [exact Hc|]. split.
  - destruct memoriaEjemplo_lista1 as (l & [= <-] & Hc1 & _).
    by rewrite (cadena_unica _ _ _ _ Hc Hc1).
  - exists m1. by repeat split.
Defined.

(** The thermal sensor whose only reading is 1000000.0 reports 999999.0,
    which is below its reading. *)
Lemma minimo_parte_del_centinela_witness :
  SensorTemperatura.procesarLectura (SensorTemperatura.mk "TEMP-1" 1%positive)
    memoriaTermicaEjemplo
  = Some (MsgValorMinimo (floatDeEntero 999999), memoriaTermicaEjemplo)
  ∧ SFltb (floatDeEntero 999999) (floatDeEntero 1000000) = true.
Proof.
  split; [|reflexivity].
  apply (minimo_parte_del_centinela memoriaTermicaEjemplo
           (SensorTemperatura.mk "TEMP-1" 1%positive)
           [(1%positive, floatDeEntero 1000000)]).
  - representa_concreta.
  - discriminate.
  - intros x Hx. apply list_elem_of_singleton in Hx. subst x. reflexivity.
Defined.

(** The readings 5.0, 2.0 and 9.0 give the minimum 2.0. *)
Example minimo_5_2_9 :
  fst <$> SensorTemperatura.procesarTras "TEMP-1"
            [floatDeEntero 5; floatDeEntero 2; floatDeEntero 9] memoriaInicial
  = Some (MsgValorMinimo (floatDeEntero 2)).
Proof. by vm_compute. Qed.

(** The barometric sensor with the readings 2147483647 and 1 reports
    -1073741824.0; the quotient of their sum by 2 is 1073741824.0. *)
Lemma media_de_la_suma_envuelta_witness :
  SensorPresion.procesarLectura (SensorPresion.mk "PRES-1" 1%positive)
    memoriaPresionEjemplo
  = Some (MsgMediaAritmetica (doubleDeInt (-1073741824)), memoriaPresionEjemplo)
  ∧ dividirDouble (doubleDeInt (2147483647 + 1)) (doubleDeInt 2)
    = doubleDeInt 1073741824.
Proof.
  split; [|reflexivity].
  rewrite (media_de_la_suma_envuelta memoriaPresionEjemplo
             (SensorPresion.mk "PRES-1" 1%positive)
             [(1%positive, 2147483647); (2%positive, 1)]).
  - reflexivity.
  - representa_concreta.
  - discriminate.
Defined.

(** The readings 100, 200, 300 give the mean 200.0, and 101, 102 give
    101.5. *)
Example media_100_200_300 :
  fst <$> SensorPresion.procesarTras "PRES-1" [100; 200; 300] memoriaInicial
  = Some (MsgMediaAritmetica (doubleDeInt 200)).
Proof. by vm_compute. Qed.

Example media_101_102 :
  fst <$> SensorPresion.procesarTras "PRES-1" [101; 102] memoriaInicial
  = Some (MsgMediaAritmetica (dividirDouble (doubleDeInt 203) (doubleDeInt 2)))
  ∧ dividirDouble (doubleDeInt 203) (doubleDeInt 2)
    = S754_finite false 7142427534032896 (-46).
Proof. by vm_compute. Qed.

(** A sensor of each kind, as its constructor leaves it. *)
Lemma procesar_sin_datos_witness :
  (∃ s msg m',
     SensorTemperatura.crear "TEMP-1" memoriaInicial = Some ((s, msg), m')
     ∧ SensorTemperatura.procesarLectura s m' = Some (MsgTermicoVacio, m'))
  ∧ (∃ s msg m',
       SensorPresion.crear "PRES-1" memoriaInicial = Some ((s, msg), m')
       ∧ SensorPresion.procesarLectura s m' = Some (MsgBarometricoVacio, m')).
Proof.
  destruct procesar_sin_datos as (_ & _ & Ht & Hp).
  split; [apply Ht | apply Hp].
Defined.

(** The registry with two sensors under [TEMP-1]: the search gives the one
    registered second (at address 2), not the first (at address 1). *)
Lemma localizar_no_devuelve_el_primero :
  representa (memRegistro sistemaDuplicado) 1%positive
    [(1%positive, 1%positive); (2%positive, 2%positive)]
  ∧ llevaNombre (dispositivos sistemaDuplicado) "TEMP-1" 1%positive
  ∧ llevaNombre (dispositivos sistemaDuplicado) "TEMP-1" 2%positive
  ∧ localizar 1%positive "TEMP-1" sistemaDuplicado
    = Some (Some 2%positive, sistemaDuplicado)
  ∧ localizar 1%positive "TEMP-1" sistemaDuplicado
    ≠ Some (Some 1%positive, sistemaDuplicado).
Proof.
  split; [representa_concreta|]. split; [reflexivity|]. split; [reflexivity|].
  assert (localizar 1%positive "TEMP-1" sistemaDuplicado
          = Some (Some 2%positive, sistemaDuplicado)) as -> by (by vm_compute).
  split; [done|]. by intros [= ?].
Qed.

Lemma sistemaDuplicado_registro :
  representa (memRegistro sistemaDuplicado) 1%positive
    [(1%positive, 1%positive); (2%positive, 2%positive)]
  ∧ ∀ d, d ∈ [(1%positive, 1%positive); (2%positive, 2%positive)].*2 →
         is_Some (dispositivos sistemaDuplicado !! d).
Proof.
  split; [representa_concreta|]. intros d Hd. simpl in Hd.
  repeat (apply elem_of_cons in Hd as [->|Hd]; [by eexists|]).
  by apply not_elem_of_nil in Hd.
Qed.

(** The search in the registry with two sensors under [TEMP-1]: the last
    one for the exact identifier, none for another spelling. *)
Lemma localizar_ultimo_registrado_witness :
  localizar 1%positive "TEMP-1" sistemaDuplicado
  = Some (Some 2%positive, sistemaDuplicado)
  ∧ localizar 1%positive "temp-1" sistemaDuplicado = Some (None, sistemaDuplicado).
Proof.
  destruct sistemaDuplicado_registro as [Hr Hobj]. split.
  - destruct (localizar_ultimo_registrado sistemaDuplicado 1%positive _ "TEMP-1" Hr Hobj)
      as (_ & Hultimo & _).
    apply (Hultimo [1%positive] 2%positive []); [done..|].
    by intros d ?%not_elem_of_nil.
  - destruct (localizar_ultimo_registrado sistemaDuplicado 1%positive _ "temp-1" Hr Hobj)
      as (_ & _ & Hninguno & _).
    apply Hninguno. intros d Hd. simpl in Hd.
    repeat (apply elem_of_cons in Hd as [->|Hd]; [by intros [= ?]|]).
    by apply not_elem_of_nil in Hd.
Defined.

(** The line [P TEMP-1 10] when [TEMP-1] is a thermal sensor: nothing
    changes, no warning is written, and the count of captured readings goes
    from 0 to 1. *)
Lemma desajuste_sin_advertencia_witness :
  procesarBuffer (λ _, None) extraerIntDecimal 1%positive "P TEMP-1 10" 0
    sistemaConTermico
  = Some (([MsgRecibido "P TEMP-1 10"; MsgTotalCapturadas 1], 1), sistemaConTermico).
Proof.
  destruct (desajuste_sin_advertencia (λ _, None) extraerIntDecimal sistemaConTermico
              1%positive [(1%positive, 1%positive)] "P TEMP-1 10" 0
              "P"%char "TEMP-1" " 10" 1%positive)
    as (salida & Hrun & -> & _).
  - reflexivity.
  - reflexivity.
  - representa_concreta.
  - intros d Hd. apply list_elem_of_singleton in Hd. subst d. by eexists.
  - reflexivity.
  - left. split; [by left|]. split; [by eexists|]. by eexists.
  - exact Hrun.
Defined.

(** An open port: an empty line, then the line [T 1] closed by a carriage
    return and a newline; and an error of [read] in the middle of a line. *)
Lemma leerLinea_lineas_completas_witness :
  SerialPort.leerLinea (SerialPort.mk 3 true) "x"
    [SerialPort.LecturaByte "010"; SerialPort.LecturaVacia;
     SerialPort.LecturaByte "T"; SerialPort.LecturaByte " ";
     SerialPort.LecturaByte "1"; SerialPort.LecturaByte "013";
     SerialPort.LecturaByte "010"]
  = (SerialPort.mk 3 true, SerialPort.Exito "T 1" [SerialPort.LecturaByte "010"])
  ∧ SerialPort.leerLinea (SerialPort.mk 3 true) "x"
      [SerialPort.LecturaByte "T"; SerialPort.LecturaError; SerialPort.LecturaByte "1"]
    = (SerialPort.mk 3 true, SerialPort.Fallo "T" [SerialPort.LecturaByte "1"]).
Proof.
  assert (SerialPort.abierto (SerialPort.mk 3 true)) as Hab by (split; [done | simpl; lia]).
  split.
  - apply (proj1 (leerLinea_lineas_completas _ _ _)).
    split; [done|]. split; [exact Hab|]. split; [done|].
    split; [by repeat constructor|].
    exists [SerialPort.LecturaByte "010"; SerialPort.LecturaVacia;
            SerialPort.LecturaByte "T"; SerialPort.LecturaByte " ";
            SerialPort.LecturaByte "1"], "013"%char, ["010"%char].
    split; [reflexivity|]. split; [reflexivity|]. split.
    + unfold SerialPort.sinError. intros Hin.
      repeat (apply elem_of_cons in Hin as [?|Hin]; [done|]).
      by apply not_elem_of_nil in Hin.
    + split; [reflexivity | by repeat constructor].
  - apply (proj2 (leerLinea_lineas_completas (SerialPort.mk 3 true) "x" _)
             [SerialPort.LecturaByte "T"] [SerialPort.LecturaByte "1"] "T");
      [exact Hab | reflexivity | reflexivity].
Defined.

(** A port that was never opened, and a port that was opened and closed. *)
Lemma leerLinea_puerto_cerrado_witness :
  SerialPort.leerLinea SerialPort.nuevo "x" [SerialPort.LecturaByte "T"]
  = (SerialPort.nuevo, SerialPort.Fallo "x" [SerialPort.LecturaByte "T"])
  ∧ SerialPort.leerLinea
      (SerialPort.cerrar (SerialPort.abrir SerialPort.nuevo 3).1) "x"
      [SerialPort.LecturaByte "T"]
    = (SerialPort.nuevo, SerialPort.Fallo "x" [SerialPort.LecturaByte "T"]).
Proof.
  destruct leerLinea_puerto_cerrado as (Hcerrado & _ & Htras).
  split.
  - by apply Hcerrado.
  - apply (Htras (SerialPort.abrir SerialPort.nuevo 3).1).
Defined.

(** * Further properties *)

(** ** The container *)

Section ListaMasPropiedades.
Context {T : Type}.
Implicit Types (m : Memoria (T:=T)) (cs : list (dir * T)).





Lemma construirCopia_existe m origen cso :
  representa m origen cso →
  ∃ B m1 csn, construirCopia origen m = Some (B, m1)
              ∧ B = fresh (dom (listas m))
              ∧ csn.*2 = cso.*2
              ∧ transforma (mkMemoria (nodos m) (<[B := mkLista None 0]> (listas m)))
                           m1 B [] csn.
Proof.
  intros Hro. destruct (construir_spec m) as [Hcons Hnone].
  set (B := fresh (dom (listas m))) in *.
  set (m0 := mkMemoria (nodos m) (<[B := mkLista None 0]> (listas m))) in *.
  assert (origen ≠ B) as Hne.
  { intros ->. destruct Hro as (l & Hl & _). congruence. }
  assert (representa m0 origen cso) as Hro0.
  { eapply representa_marco; [exact Hro | by apply lookup_insert_ne | done]. }
  destruct (duplicarDesde_spec m0 B origen [] cso (representa_nueva m B) Hro0)
    as (m1 & csn & Hrun & Hval & Htr & _).
  { by intros a ?%not_elem_of_nil. }
  exists B, m1, csn. split; [|split; [done|]; split; [done|]; exact Htr].
  unfold construirCopia. erewrite ligar_Some; [|exact Hcons].
  erewrite ligar_Some; [|exact Hrun]. done.
Qed.

Lemma asignar_existe m this origen cs cso :
  this ≠ origen → representa m this cs → representa m origen cso →
  cs.*1 ## cso.*1 →
  ∃ m0 m1 csn, asignar this origen m = Some (tt, m1)
               ∧ csn.*2 = cso.*2
               ∧ transforma m m0 this cs []
               ∧ transforma m0 m1 this [] csn.
Proof.
  intros Hne Hr Hro Hdis.
  destruct (vaciar_spec _ _ _ Hr) as (m0 & Hvac & Htr & _).
  pose proof Htr as (Hr0 & _).
  assert (representa m0 origen cso) as Hro0 by (by eapply transforma_otro).
  destruct (duplicarDesde_spec m0 this origen [] cso Hr0 Hro0)
    as (m1 & csn & Hrun & Hval & Htr1 & _).
  { by intros a ?%not_elem_of_nil. }
  exists m0, m1, csn. split; [|split; [done|]; split; [done|]; exact Htr1].
  unfold asignar. rewrite decide_True by done.
  erewrite ligar_Some; [|exact Hvac]. exact Hrun.
Qed.

(** X2.  In every memory that the public operations can bring about, no
    node is on the chains of two list objects, and no chain passes twice
    through a node. *)
Theorem listas_sin_nodos_compartidos m this1 this2 l1 l2 :
  alcanzable m → this1 ≠ this2 →
  listas m !! this1 = Some l1 → listas m !! this2 = Some l2 →
  ∃ cs1 cs2, cadena (nodos m) (primero l1) cs1
             ∧ cadena (nodos m) (primero l2) cs2
             ∧ cs1.*1 ## cs2.*1
             ∧ NoDup cs1.*1 ∧ NoDup cs2.*1.
Proof.
  intros Halc Hne Hl1 Hl2. pose proof (alcanzable_bienFormada _ Halc) as Hbf.
  destruct (bienFormada_representa _ _ _ Hbf Hl1) as (cs1 & Hr1).
  destruct (bienFormada_representa _ _ _ Hbf Hl2) as (cs2 & Hr2).
  pose proof Hr1 as (l1' & ? & Hc1 & _). pose proof Hr2 as (l2' & ? & Hc2 & _).
  simplify_eq. exists cs1, cs2. split; [done|]. split; [done|].
  split; [by eapply (proj2 Hbf this1 this2)|].
  split; by eapply cadena_NoDup.
Qed.

(** X3.  In every memory that the public operations can bring about, an
    operation on list objects that exist has a result: no pointer that is
    followed is dangling and every loop ends. *)
Theorem operaciones_con_resultado m (op : Operacion (T:=T)) :
  alcanzable m →
  (∀ this, this ∈ objetosDe op → is_Some (listas m !! this)) →
  ∃ m', ejecutar op m = Some (tt, m') ∧ alcanzable m'.
Proof.
  intros Halc Hvivos. pose proof (alcanzable_bienFormada _ Halc) as Hbf.
  assert (∀ m', ejecutar op m = Some (tt, m') →
                ∃ m', ejecutar op m = Some (tt, m') ∧ alcanzable m') as Hfin.
  { intros m' Hrun. exists m'. split; [done|]. by eapply alcanzable_paso. }
  assert (∀ this, this ∈ objetosDe op → ∃ cs, representa m this cs) as Hrep.
  { intros this [l Hl]%Hvivos. by eapply bienFormada_representa. }
  destruct op as [|origen|this origen|this x|this]; simpl in *.
  - eapply Hfin. reflexivity.
  - destruct (Hrep origen) as (cs & Hr); [by left|].
    destruct (construirCopia_existe m origen cs Hr) as (B & m1 & csn & Hrun & _).
    eapply Hfin. erewrite ligar_Some; [|exact Hrun]. reflexivity.
  - destruct (decide (this = origen)) as [->|Hne].
    { eapply Hfin. unfold asignar. by rewrite decide_False by (by intros ?). }
    destruct (Hrep this) as (cs & Hr); [by left|].
    destruct (Hrep origen) as (cso & Hro); [by right; left|].
    destruct (asignar_existe m this origen cs cso) as (m0 & m1 & csn & Hrun & _);
      [done..| |by eapply Hfin].
    by eapply (proj2 Hbf this origen).
  - destruct (Hrep this) as (cs & Hr); [by left|].
    destruct (insertarAlFinal_spec _ _ _ x Hr) as (m1 & Hrun & _).
    by eapply Hfin.
  - destruct (Hrep this) as (cs & Hr); [by left|].
    destruct (vaciar_spec _ _ _ Hr) as (m1 & Hrun & _).
    by eapply Hfin.
Qed.

(** X4.  [vaciar] deletes the nodes of its list, all of them and no other
    node: the allocated nodes afterwards are those of before less the cells
    of the list, the nodes that stay hold what they held, the other list
    objects are as they were, and the list itself has a null head and the
    counter 0. *)
Theorem vaciar_libera_sus_nodos m this cs :
  representa m this cs →
  ∃ m', vaciar this m = Some (tt, m')
        ∧ dom (nodos m') = dom (nodos m) ∖ list_to_set cs.*1
        ∧ (∀ a, a ∉ cs.*1 → nodos m' !! a = nodos m !! a)
        ∧ (∀ j, j ≠ this → listas m' !! j = listas m !! j)
        ∧ listas m' !! this = Some (mkLista None 0).
Proof.
  intros Hr. destruct (vaciar_spec _ _ _ Hr) as (m' & Hrun & (Hr' & Hj & _) & Hnod).
  exists m'. split; [done|]. split; [|split; [|split; [done|]]].
  - apply set_eq. intros a. rewrite elem_of_difference, elem_of_list_to_set.
    rewrite !elem_of_dom, Hnod. destruct (decide (a ∈ cs.*1)) as [Hin|Hin].
    + split; [by intros [? ?] | by intros [_ ?]].
    + split; [by intros ?; split | by intros [? _]].
  - intros a Ha. by rewrite Hnod, decide_False.
  - destruct Hr' as ([p e] & Hl & Hc & He). unfold cadena in Hc. simpl in *.
    by subst.
Qed.

Lemma bienFormada_liberarLista m this :
  bienFormada m → representa m this [] →
  bienFormada (mkMemoria (nodos m) (delete this (listas m))).
Proof.
  intros [Hb1 Hb2] Hr.
  assert (∀ j cs, representa (mkMemoria (nodos m) (delete this (listas m))) j cs →
                  (j ≠ this) ∧ representa m j cs) as Hviejo.
  { intros j cs (l & Hl & Hc & He). simpl in Hl.
    apply lookup_delete_Some in Hl as [Hne Hl]. split; [done|]. by exists l. }
  split.
  - intros j l Hl. simpl in Hl. apply lookup_delete_Some in Hl as [_ Hl]. eauto.
  - intros j1 j2 cs1 cs2 Hne [_ H1]%Hviejo [_ H2]%Hviejo. by eapply (Hb2 j1 j2).
Qed.

(** X5.  The destructor deletes the nodes of the list and then the list
    object: the other list objects keep their cells, and the memory stays
    well formed. *)
Theorem destruir_libera_todo m this cs :
  bienFormada m → representa m this cs →
  ∃ m', destruir this m = Some (tt, m')
        ∧ listas m' = delete this (listas m)
        ∧ dom (nodos m') = dom (nodos m) ∖ list_to_set cs.*1
        ∧ (∀ j csj, j ≠ this → representa m j csj → representa m' j csj)
        ∧ bienFormada m'.
Proof.
  intros Hbf Hr.
  destruct (vaciar_spec _ _ _ Hr) as (m0 & Hvac & Htr & Hnod).
  pose proof Htr as (Hr0 & Hj & _).
  pose proof (bienFormada_transforma _ _ _ _ _ Hbf Hr Htr) as Hbf0.
  pose proof Hr0 as (l0 & Hl0 & _).
  exists (mkMemoria (nodos m0) (delete this (listas m0))).
  split; [|split; [|split; [|split]]].
  - unfold destruir. erewrite ligar_Some; [|exact Hvac].
    unfold liberarLista. by rewrite Hl0.
  - simpl. apply map_eq. intros j. destruct (decide (j = this)) as [->|Hne].
    + by rewrite !lookup_delete_eq.
    + rewrite !lookup_delete_ne by done. by apply Hj.
  - simpl. apply set_eq. intros a.
    rewrite elem_of_difference, elem_of_list_to_set, !elem_of_dom, Hnod.
    destruct (decide (a ∈ cs.*1)) as [Hin|Hin].
    + split; [by intros [? ?] | by intros [_ ?]].
    + split; [by intros ?; split | by intros [? _]].
  - intros j csj Hne Hrj.
    assert (representa m0 j csj) as (l & Hl & Hc & He).
    { eapply transforma_otro; [exact Htr | done | done |].
      by eapply (proj2 Hbf this j). }
    exists l. simpl. by rewrite lookup_delete_ne.
  - by apply bienFormada_liberarLista.
Qed.

(** X6.  An append to one list of a well-formed memory puts the new
    element behind the elements the list had, which keep their nodes and
    their order, and leaves the cells of every other list as they were. *)
Theorem insertarAlFinal_solo_su_lista m this cs (x : T) :
  bienFormada m → representa m this cs →
  ∃ m' nuevo, insertarAlFinal this x m = Some (tt, m')
              ∧ (nuevo ∉ dom (nodos m))
              ∧ representa m' this (cs ++ [(nuevo, x)])
              ∧ (∀ j csj, j ≠ this → representa m j csj → representa m' j csj)
              ∧ bienFormada m'.
Proof.
  intros Hbf Hr. destruct (insertarAlFinal_spec _ _ _ x Hr) as (m' & Hrun & Htr).
  exists m', (fresh (dom (nodos m))). split; [done|]. split; [apply is_fresh|].
  split; [by destruct Htr|]. split.
  - intros j csj Hne Hrj. eapply transforma_otro; [exact Htr | done | done |].
    by eapply (proj2 Hbf this j).
  - by eapply bienFormada_transforma.
Qed.

(** X7.  In every memory that the public operations can bring about, the
    three views of emptiness agree: [estaVacia] (which tests the head
    pointer) is true exactly when the list has no node, [getCabeza] gives the
    null pointer exactly then, and, for a list of at most [INT_MAX] nodes,
    [getTamanio] (which reads the counter) gives 0 exactly then. *)
Theorem vacia_cabeza_y_contador m this l :
  alcanzable m → listas m !! this = Some l →
  ∃ cs, cadena (nodos m) (primero l) cs
        ∧ estaVacia this m = Some (bool_decide (cs = []), m)
        ∧ getCabeza this m = Some (fst <$> head cs, m)
        ∧ getTamanio this m = Some (envolver (Z.of_nat (length cs)), m)
        ∧ (Z.of_nat (length cs) ≤ INT_MAX →
             (envolver (Z.of_nat (length cs)) = 0 ↔ cs = [])).
Proof.
  intros Halc Hl. pose proof (alcanzable_bienFormada _ Halc) as Hbf.
  destruct (bienFormada_representa _ _ _ Hbf Hl) as (cs & Hr).
  pose proof Hr as (l' & Hl' & Hc & He). simplify_eq.
  exists cs. split; [done|]. split; [by apply estaVacia_spec|].
  split; [|split; [by apply getTamanio_spec|]].
  - unfold getCabeza. erewrite ligar_Some; [|by apply leerLista_Some].
    unfold retornar. do 2 f_equal. unfold cadena in Hc.
    destruct cs as [|c cs]; simpl in Hc; [done | by destruct Hc].
  - intros Hmax. rewrite envolver_enRango by (unfold enRango, INT_MIN; lia).
    destruct cs; simpl; [done|]. split; [lia | done].
Qed.

(** *** No node is lost *)

Lemma escribirLista_inv this l' m r :
  escribirLista this l' m = Some r →
  r = (tt, mkMemoria (nodos m) (<[this := l']> (listas m))).
Proof. unfold escribirLista. destruct (listas m !! this); simpl; [|done]. by intros [= <-]. Qed.

Lemma insertarAlFinal_dom this (x : T) m m' :
  insertarAlFinal this x m = Some (tt, m') →
  dom (nodos m') = {[fresh (dom (nodos m))]} ∪ dom (nodos m).
Proof.
  unfold insertarAlFinal.
  intros (nuevo & m1 & [= <- <-] & Hrest)%ligar_inv.
  apply ligar_inv in Hrest as (l & m2 & [_ ->]%leerLista_inv & Hrest).
  apply ligar_inv in Hrest as ([] & m3 & Hmedio & Hrest).
  apply ligar_inv in Hrest as (l' & m4 & [_ ->]%leerLista_inv & Hrest).
  apply escribirLista_inv in Hrest. injection Hrest as ->. simpl.
  assert (dom (nodos m3)
          = dom (<[fresh (dom (nodos m)) := mkNodo x None]> (nodos m))) as ->.
  { destruct (primero l) as [p|].
    - apply ligar_inv in Hmedio as (nav & m5 & Hnav & Hmedio).
      unfold ultimoNodo in Hnav. simpl in Hnav.
      destruct (buscarUltimo _ _ p) as [ultimo|]; simpl in Hnav; [|done].
      injection Hnav as <- <-.
      apply ligar_inv in Hmedio as (n & m6 & Hn & Hmedio).
      unfold leerNodo in Hn. simpl in Hn.
      destruct (_ !! ultimo) as [n'|] eqn:Hd; simpl in Hn; [|done].
      injection Hn as <- <-.
      unfold escribirNodo in Hmedio. simpl in Hmedio. rewrite Hd in Hmedio.
      simpl in Hmedio. injection Hmedio as <-. simpl.
      rewrite (dom_insert_L _ ultimo). apply elem_of_dom_2 in Hd.
      apply set_eq. intros b. rewrite elem_of_union, elem_of_singleton.
      split; [intros [->|?]; done | by right].
    - apply escribirLista_inv in Hmedio. by injection Hmedio as ->. }
  by rewrite dom_insert_L.
Qed.

Lemma duplicarBucle_exacta c m this nav cst cso :
  representa m this cst → cadena (nodos m) nav cso → cst.*1 ## cso.*1 →
  (length cso ≤ c)%nat →
  ∃ m' csn, duplicarBucle c this nav m = Some (tt, m')
            ∧ transforma m m' this cst (cst ++ csn)
            ∧ (∀ a, a ∈ dom (nodos m') → a ∈ dom (nodos m) ∨ a ∈ (cst ++ csn).*1).
Proof.
  revert c m nav cst.
  induction cso as [|[a x] cso IH]; intros c m nav cst Hr Hc Hdis Hlen.
  - exists m, []. unfold cadena in Hc; simpl in Hc. subst nav.
    rewrite app_nil_r. split; [by destruct c|].
    split; [by apply transforma_refl | by left].
  - destruct c as [|c]; [simpl in Hlen; lia|].
    destruct Hc as (Hp & sig & Ha & Hc). simpl in Hp, Ha. subst nav.
    destruct (insertarAlFinal_spec m this cst x Hr) as (m1 & Hins & Htr1).
    pose proof (insertarAlFinal_dom _ _ _ _ Hins) as Hdom1.
    set (nuevo := fresh (dom (nodos m))) in *.
    pose proof Htr1 as (Hr1 & Hj1 & Hn1 & Hf1).
    assert (∀ b, b ∈ cso.*1 → (b ∉ cst.*1) ∧ (b ∈ dom (nodos m))) as Hviejos.
    { intros b Hb. split.
      - intros Hin. eapply Hdis; [done|]. rewrite fmap_cons. by right.
      - by eapply segmento_dom. }
    assert (cadena (nodos m1) sig cso) as Hc1.
    { eapply segmento_marco; [|exact Hc]. intros b [??]%Hviejos. by apply Hn1. }
    assert ((cst ++ [(nuevo, x)]).*1 ## cso.*1) as Hdis1.
    { intros b Hb [Hb1 Hb2]%Hviejos. rewrite fmap_app in Hb.
      apply elem_of_app in Hb as [?|Hb]; [done|].
      apply list_elem_of_singleton in Hb. simpl in Hb. subst b.
      by apply is_fresh in Hb2. }
    destruct (IH c m1 sig _ Hr1 Hc1 Hdis1) as (m' & csn & Hrun & Htr & Hex);
      [simpl in Hlen; lia|].
    exists m', ((nuevo, x) :: csn).
    replace (cst ++ (nuevo, x) :: csn) with ((cst ++ [(nuevo, x)]) ++ csn)
      by (by rewrite <- app_assoc).
    split; [|split].
    + simpl. erewrite ligar_Some; [|by apply leerNodo_Some]. simpl.
      erewrite ligar_Some; [|exact Hins]. exact Hrun.
    + by eapply transforma_trans.
    + intros b Hb. destruct (Hex b Hb) as [Hb1|?]; [|by right].
      rewrite Hdom1 in Hb1. apply elem_of_union in Hb1 as [Hb1|?]; [|by left].
      apply elem_of_singleton in Hb1. subst b. right.
      rewrite !fmap_app. apply elem_of_app. left. apply elem_of_app. right.
      by apply list_elem_of_singleton.
Qed.

Lemma sinFugas_transforma m m' this cs cs' :
  bienFormada m → sinFugas m → representa m this cs →
  transforma m m' this cs cs' →
  (∀ a, a ∈ dom (nodos m') → a ∈ dom (nodos m) ∨ a ∈ cs'.*1) →
  (∀ a, a ∈ cs.*1 → a ∉ cs'.*1 → a ∉ dom (nodos m')) →
  sinFugas m'.
Proof.
  intros Hbf Hsf Hr Htr Hex1 Hex2 a Hd.
  destruct (decide (a ∈ cs'.*1)) as [Hin|Hn].
  { exists this, cs'. split; [by destruct Htr | done]. }
  destruct (Hex1 a Hd) as [Hd0|?]; [|done].
  destruct (Hsf a Hd0) as (j & csj & Hrj & Hin).
  destruct (decide (j = this)) as [->|Hne].
  - rewrite (representa_unica _ _ _ _ Hrj Hr) in Hin. by destruct (Hex2 a Hin Hn).
  - exists j, csj. split; [|done].
    eapply transforma_otro; [exact Htr | done | done |].
    by eapply (proj2 Hbf this j).
Qed.

Lemma duplicarDesde_exacta m this origen cst cso :
  representa m this cst → representa m origen cso → cst.*1 ## cso.*1 →
  ∃ m' csn, duplicarDesde this origen m = Some (tt, m')
            ∧ transforma m m' this cst (cst ++ csn)
            ∧ (∀ a, a ∈ dom (nodos m') → a ∈ dom (nodos m) ∨ a ∈ (cst ++ csn).*1).
Proof.
  intros Hr (o & Ho & Hc & _) Hdis. unfold duplicarDesde.
  erewrite ligar_Some; [|by apply leerLista_Some].
  destruct (primero o) as [p|] eqn:Hp.
  - erewrite ligar_Some; [|reflexivity].
    apply (duplicarBucle_exacta _ m this (Some p) cst cso); [done..|].
    by eapply cadena_longitud.
  - exists m, []. rewrite app_nil_r. split; [done|].
    split; [by apply transforma_refl | by left].
Qed.

Lemma sinFugas_construir m this :
  listas m !! this = None → sinFugas m →
  sinFugas (mkMemoria (nodos m) (<[this := mkLista None 0]> (listas m))).
Proof.
  intros Hnone Hsf a Hd. destruct (Hsf a Hd) as (j & csj & Hrj & Hin).
  exists j, csj. split; [|done].
  eapply representa_marco; [exact Hrj | | done]. simpl.
  apply lookup_insert_ne. intros ->. destruct Hrj as (l & Hl & _). congruence.
Qed.

Lemma sinFugas_duplicar m m' this origen :
  bienFormada m → sinFugas m → representa m this [] →
  duplicarDesde this origen m = Some (tt, m') → sinFugas m'.
Proof.
  intros Hbf Hsf Hr Hdup.
  destruct (duplicarDesde_existe _ _ _ _ Hdup) as [o Ho].
  destruct (bienFormada_representa _ _ _ Hbf Ho) as (cso & Hro).
  destruct (duplicarDesde_exacta m this origen [] cso Hr Hro)
    as (m1 & csn & Hrun & Htr & Hex).
  { by intros a ?%not_elem_of_nil. }
  rewrite Hrun in Hdup. injection Hdup as <-.
  eapply sinFugas_transforma; [exact Hbf | exact Hsf | exact Hr | exact Htr | exact Hex |].
  by intros a ?%not_elem_of_nil.
Qed.

Lemma ejecutar_sinFugas (op : Operacion (T:=T)) m m' :
  bienFormada m → sinFugas m → ejecutar op m = Some (tt, m') → sinFugas m'.
Proof.
  intros Hbf Hsf. destruct op as [|origen|this origen|this x|this]; simpl.
  - intros (this & m1 & Hcons & [= <-])%ligar_inv.
    destruct (construir_spec m) as [Heq Hnone]. rewrite Heq in Hcons.
    injection Hcons as <- <-. by apply sinFugas_construir.
  - unfold construirCopia.
    intros (? & m2 & (this & m1 & Hcons & Hdup)%ligar_inv & [= <-])%ligar_inv.
    apply ligar_inv in Hdup as ([] & m3 & Hdup & [= _ <-]).
    destruct (construir_spec m) as [Heq Hnone]. rewrite Heq in Hcons.
    injection Hcons as <- <-.
    eapply sinFugas_duplicar; [| |apply representa_nueva|exact Hdup].
    + by apply bienFormada_construir.
    + by apply sinFugas_construir.
  - unfold asignar. destruct (decide (this ≠ origen)) as [Hne|_]; [|by intros [= <-]].
    intros ([] & m1 & Hvac & Hdup)%ligar_inv.
    destruct (vaciar_existe _ _ _ Hvac) as [l Hl].
    destruct (bienFormada_representa _ _ _ Hbf Hl) as (cs & Hr).
    destruct (vaciar_spec _ _ _ Hr) as (m1' & Hrun & Htr & Hnod).
    rewrite Hrun in Hvac. injection Hvac as <-.
    eapply sinFugas_duplicar; [| |by destruct Htr|exact Hdup].
    + by eapply bienFormada_transforma.
    + eapply sinFugas_transforma; [exact Hbf|exact Hsf|exact Hr|exact Htr| |].
      * intros a Hd. left. apply elem_of_dom in Hd. rewrite Hnod in Hd.
        destruct (decide (a ∈ cs.*1)); [by destruct Hd|]. by apply elem_of_dom.
      * intros a Hin _ Hd. apply elem_of_dom in Hd. rewrite Hnod in Hd.
        rewrite decide_True in Hd by done. by destruct Hd.
  - intros Hins. destruct (insertarAlFinal_existe _ _ _ _ Hins) as [l Hl].
    destruct (bienFormada_representa _ _ _ Hbf Hl) as (cs & Hr).
    destruct (insertarAlFinal_spec _ _ _ x Hr) as (m1 & Hrun & Htr).
    rewrite Hrun in Hins. injection Hins as <-.
    pose proof (insertarAlFinal_dom _ _ _ _ Hrun) as Hdom.
    eapply sinFugas_transforma; [exact Hbf|exact Hsf|exact Hr|exact Htr| |].
    + intros a Hd. rewrite Hdom in Hd. apply elem_of_union in Hd as [Hd|?]; [|by left].
      apply elem_of_singleton in Hd. subst a. right. rewrite fmap_app.
      apply elem_of_app. right. by apply list_elem_of_singleton.
    + intros a Hin Hn. destruct Hn. rewrite fmap_app. apply elem_of_app. by left.
  - intros Hvac. destruct (vaciar_existe _ _ _ Hvac) as [l Hl].
    destruct (bienFormada_representa _ _ _ Hbf Hl) as (cs & Hr).
    destruct (vaciar_spec _ _ _ Hr) as (m1 & Hrun & Htr & Hnod).
    rewrite Hrun in Hvac. injection Hvac as <-.
    eapply sinFugas_transforma; [exact Hbf|exact Hsf|exact Hr|exact Htr| |].
    + intros a Hd. left. apply elem_of_dom in Hd. rewrite Hnod in Hd.
      destruct (decide (a ∈ cs.*1)); [by destruct Hd|]. by apply elem_of_dom.
    + intros a Hin _ Hd. apply elem_of_dom in Hd. rewrite Hnod in Hd.
      rewrite decide_True in Hd by done. by destruct Hd.
Qed.

(** X8.  In every memory that the public operations can bring about, every
    allocated node is a cell of a list object that exists: the operations
    lose no node, and [vaciar] and assignment delete the nodes they take
    out of a list. *)
Theorem nodos_sin_fugas m a :
  alcanzable m → a ∈ dom (nodos m) →
  ∃ this l cs, listas m !! this = Some l
               ∧ cadena (nodos m) (primero l) cs
               ∧ a ∈ cs.*1.
Proof.
  intros Halc. revert a.
  assert (sinFugas m) as Hsf.
  { induction Halc as [|op m m' Halc IH Hop].
    - intros a Hd. simpl in Hd. by rewrite dom_empty_L in Hd.
    - eapply ejecutar_sinFugas; [by apply alcanzable_bienFormada | exact IH | exact Hop]. }
  intros a Hd. destruct (Hsf a Hd) as (this & cs & (l & Hl & Hc & _) & Hin).
  by exists this, l, cs.
Qed.

End ListaMasPropiedades.

(** ** The serial line reader *)

Section SerialMasPropiedades.
Import SerialPort.

Lemma bytesDe_app l1 l2 : bytesDe (l1 ++ l2) = bytesDe l1 ++ bytesDe l2.
Proof.
  induction l1 as [|[| |c] l1 IH]; simpl; [done..|]. by rewrite IH.
Qed.

Lemma bytesDe_partir entrada xs y ys :
  bytesDe entrada = xs ++ y :: ys →
  ∃ e1 e2, entrada = e1 ++ LecturaByte y :: e2 ∧ bytesDe e1 = xs ∧ bytesDe e2 = ys.
Proof.
  revert xs. induction entrada as [|[| |c] entrada IH]; intros xs; simpl.
  - by destruct xs.
  - intros (e1 & e2 & -> & H1 & H2)%IH. by exists (LecturaError :: e1), e2.
  - intros (e1 & e2 & -> & H1 & H2)%IH. by exists (LecturaVacia :: e1), e2.
  - destruct xs as [|x xs]; simpl.
    + intros [= -> Hys]. by exists [], entrada.
    + intros [= -> (e1 & e2 & -> & H1 & H2)%IH].
      exists (LecturaByte x :: e1), e2. simpl. by rewrite H1.
Qed.

Lemma leerBucle_solo_terminadores entrada :
  sinError entrada → Forall (λ c, esTerminador c = true) (bytesDe entrada) →
  leerBucle entrada EmptyString = EnEspera EmptyString.
Proof.
  induction entrada as [|[| |c] entrada IH]; simpl; intros Hse Hts.
  - done.
  - by apply sinError_cons in Hse as [? _].
  - apply sinError_cons in Hse as [_ ?]. by apply IH.
  - apply sinError_cons in Hse as [_ ?]. apply Forall_cons in Hts as [-> ?].
    simpl. by apply IH.
Qed.

Lemma sinError_app l1 l2 : sinError (l1 ++ l2) ↔ sinError l1 ∧ sinError l2.
Proof. unfold sinError. rewrite elem_of_app. tauto. Qed.

Lemma lineasRecibidasAux_transmision c this buffer entrada previos tramos :
  abierto this → sinError entrada →
  Forall (λ c, esTerminador c = true) previos →
  Forall tramoValido tramos →
  bytesDe entrada = previos ++ transmitir tramos →
  (length entrada ≤ c)%nat →
  lineasRecibidasAux c this buffer entrada = tramos.*1.
Proof.
  intros Hab. revert c buffer entrada previos.
  induction tramos as [|[linea ts] tramos IH];
    intros c buffer entrada previos Hse Hprev Hval Hb Hlen.
  - unfold transmitir in Hb. simpl in Hb. rewrite app_nil_r in Hb.
    destruct c as [|c]; [done|]. simpl.
    rewrite leerLinea_abierto by done. simpl.
    rewrite leerBucle_solo_terminadores; [done | done | by rewrite Hb].
  - apply Forall_cons in Hval as [(Hne & Hlin & Hts & Hterm) Hval]. simpl in *.
    destruct ts as [|t ts]; [done|]. apply Forall_cons in Hterm as [Ht Hterm].
    unfold transmitir in Hb. simpl in Hb. fold (transmitir tramos) in Hb.
    rewrite <- !app_assoc in Hb. simpl in Hb. rewrite app_assoc in Hb.
    apply bytesDe_partir in Hb as (e1 & e2 & -> & Hb1 & Hb2).
    apply sinError_app in Hse as [Hse1 Hse2]. apply sinError_cons in Hse2 as [_ Hse2].
    destruct c as [|c]; [rewrite length_app in Hlen; simpl in Hlen; lia|].
    simpl. rewrite leerLinea_abierto by done. simpl.
    rewrite (leerBucle_completa e1 EmptyString previos linea t e2); try done.
    change (linea :: lineasRecibidasAux c this linea e2 = linea :: tramos.*1).
    f_equal. apply (IH c linea e2 ts); [done..| |].
    + by rewrite Hb2.
    + rewrite length_app in Hlen. simpl in Hlen. lia.
Qed.

(** X9.  Lines that arrive on an open port, each not empty, free of
    terminators and followed by one or more terminators (a carriage return
    and a newline, say), reach the capture loop one by one, in order, each
    once and none of them empty, wherever [read] finds nothing in between. *)
Theorem lineas_recibidas_en_orden this buffer entrada tramos :
  abierto this → sinError entrada → Forall tramoValido tramos →
  bytesDe entrada = transmitir tramos →
  lineasRecibidas this buffer entrada = tramos.*1.
Proof.
  intros Hab Hse Hval Hb.
  by apply (lineasRecibidasAux_transmision _ _ _ _ [] tramos).
Qed.

(** X10.  [abrir] that fails on a port that is open leaves a port that
    still answers [true] to [estaAbierto], on which [leerLinea] returns
    [false] without reading, and which [cerrar] does not change: the
    descriptor that was open is forgotten and never closed. *)
Theorem abrir_fallido_sobre_abierto this resultadoOpen :
  abierto this → resultadoOpen < 0 →
  let this' := (abrir this resultadoOpen).1 in
  (abrir this resultadoOpen).2 = false
  ∧ estaAbierto this' = true
  ∧ descriptorArchivo this' ≠ descriptorArchivo this
  ∧ cerrar this' = this'
  ∧ ∀ secuencia entrada,
      leerLinea this' secuencia entrada = (this', Fallo secuencia entrada).
Proof.
  intros [He Hd] Hr. unfold abrir.
  destruct (Z.ltb_spec resultadoOpen 0) as [_|?]; [|lia]. simpl.
  split; [done|]. split; [done|]. split; [lia|]. split.
  - unfold cerrar. simpl. rewrite He. simpl.
    by destruct (Z.leb_spec 0 resultadoOpen); [lia|].
  - intros secuencia entrada. unfold leerLinea. simpl. rewrite He. simpl.
    by destruct (Z.ltb_spec resultadoOpen 0); [|lia].
Qed.

(** *** A read error between lines and in the middle of a line *)

Lemma leerBucle_acorta entrada acc :
  match leerBucle entrada acc with
  | Exito _ resto | Fallo _ resto => (length resto < length entrada)%nat
  | EnEspera _ => True
  end.
Proof.
  revert acc. induction entrada as [|[| |c] entrada IH]; intros acc; simpl.
  - done.
  - lia.
  - specialize (IH acc). destruct (leerBucle entrada acc); [lia..|done].
  - destruct (esTerminador c).
    + destruct (negb _); [simpl; lia|].
      specialize (IH acc). destruct (leerBucle entrada acc); [lia..|done].
    + specialize (IH (acc +:+ String c EmptyString)).
      destruct (leerBucle entrada _); [lia..|done].
Qed.

(** Enough calls: more of them read the same lines, whatever the caller's
    string held. *)
Lemma lineasRecibidasAux_combustible c c' this buffer buffer' entrada :
  abierto this → (length entrada ≤ c)%nat → (length entrada ≤ c')%nat →
  lineasRecibidasAux c this buffer entrada
  = lineasRecibidasAux c' this buffer' entrada.
Proof.
  intros Hab. revert c' buffer buffer' entrada.
  induction c as [|c IH]; intros c' buffer buffer' entrada Hc Hc'.
  - destruct entrada; [|simpl in Hc; lia]. destruct c' as [|c']; [done|].
    simpl. by rewrite leerLinea_abierto.
  - destruct c' as [|c'].
    { destruct entrada; [|simpl in Hc'; lia]. simpl. by rewrite leerLinea_abierto. }
    simpl. rewrite !leerLinea_abierto by done. simpl.
    pose proof (leerBucle_acorta entrada EmptyString) as Hcorta.
    destruct (leerBucle entrada EmptyString) as [linea resto|parcial resto|parcial].
    + f_equal. apply IH; lia.
    + apply IH; lia.
    + done.
Qed.

Lemma leerBucle_parcial entrada acc previos suf :
  sinError entrada →
  bytesDe entrada = previos ++ list_ascii_of_string suf →
  Forall (λ c, esTerminador c = true) previos →
  Forall (λ c, esTerminador c = false) (list_ascii_of_string suf) →
  (acc ≠ EmptyString → previos = []) →
  leerBucle entrada acc = EnEspera (acc +:+ suf).
Proof.
  revert acc previos suf.
  induction entrada as [|[| |c] entrada IH]; intros acc previos suf;
    simpl; intros Hse Hb Hp Hs Hacc.
  - symmetry in Hb. apply app_eq_nil in Hb as [-> Hsuf].
    destruct suf; [|done]. by rewrite append_vacio_r.
  - by apply sinError_cons in Hse as [? _].
  - apply sinError_cons in Hse as [_ Hse]. by eapply IH.
  - apply sinError_cons in Hse as [_ Hse].
    destruct previos as [|c' previos].
    + destruct suf as [|c' suf]; [done|]. simpl in Hb. injection Hb as <- Hb.
      apply Forall_cons in Hs as [Hc Hs]. rewrite Hc.
      rewrite <- (append_caracter acc c suf).
      apply (IH (acc +:+ String c EmptyString) [] suf); [done..|].
      intros Hne. done.
    + simpl in Hb. injection Hb as <- Hb.
      apply Forall_cons in Hp as [Hc Hp]. rewrite Hc.
      destruct (decide (acc = EmptyString)) as [->|Hacc']; [|by specialize (Hacc Hacc')].
      simpl. by eapply IH.
Qed.

Lemma lineasRecibidasAux_error c this buffer buffer' antes despues previos tramos parcial :
  abierto this → sinError antes →
  Forall (λ c, esTerminador c = true) previos →
  Forall tramoValido tramos →
  Forall (λ c, esTerminador c = false) (list_ascii_of_string parcial) →
  bytesDe antes = previos ++ transmitir tramos ++ list_ascii_of_string parcial →
  (length (antes ++ LecturaError :: despues) ≤ c)%nat →
  lineasRecibidasAux c this buffer (antes ++ LecturaError :: despues)
  = tramos.*1 ++ lineasRecibidas this buffer' despues.
Proof.
  intros Hab. revert c buffer antes previos.
  induction tramos as [|[linea ts] tramos IH];
    intros c buffer antes previos Hse Hprev Hval Hpar Hb Hlen.
  - unfold transmitir in Hb. simpl in Hb.
    rewrite length_app in Hlen. simpl in Hlen.
    destruct c as [|c]; [lia|]. simpl.
    rewrite leerLinea_abierto by done. simpl.
    rewrite (leerBucle_error antes despues EmptyString parcial).
    + apply lineasRecibidasAux_combustible; [done|lia|done].
    + by apply (leerBucle_parcial antes EmptyString previos parcial).
  - apply Forall_cons in Hval as [(Hne & Hlin & Hts & Hterm) Hval]. simpl in *.
    destruct ts as [|t ts]; [done|]. apply Forall_cons in Hterm as [Ht Hterm].
    unfold transmitir in Hb. simpl in Hb. fold (transmitir tramos) in Hb.
    rewrite <- !app_assoc in Hb. simpl in Hb. rewrite app_assoc in Hb.
    apply bytesDe_partir in Hb as (e1 & e2 & -> & Hb1 & Hb2).
    apply sinError_app in Hse as [Hse1 Hse2]. apply sinError_cons in Hse2 as [_ Hse2].
    rewrite <- app_assoc in Hlen |- *. simpl in Hlen |- *.
    destruct c as [|c]; [rewrite length_app in Hlen; simpl in Hlen; lia|].
    simpl. rewrite leerLinea_abierto by done. simpl.
    rewrite (leerBucle_completa e1 EmptyString previos linea t
               (e2 ++ LecturaError :: despues)); try done.
    change (linea :: lineasRecibidasAux c this linea (e2 ++ LecturaError :: despues)
            = linea :: (tramos.*1 ++ lineasRecibidas this buffer' despues)).
    f_equal. apply (IH c linea e2 ts); [done..| |].
    + by rewrite Hb2.
    + rewrite length_app in Hlen. simpl in Hlen. lia.
Qed.

(** X25.  A read error on an open port loses the line that was being
    received and nothing else: the capture loop gets the lines that were
    complete before the error, then, from the next call on, what the port
    delivers after the error; the characters of the unfinished line that
    were read before the error reach no round of the loop. *)
Theorem error_de_lectura_pierde_la_linea this buffer buffer' antes despues tramos parcial :
  abierto this → sinError antes → Forall tramoValido tramos →
  Forall (λ c, esTerminador c = false) (list_ascii_of_string parcial) →
  bytesDe antes = transmitir tramos ++ list_ascii_of_string parcial →
  lineasRecibidas this buffer (antes ++ LecturaError :: despues)
  = tramos.*1 ++ lineasRecibidas this buffer' despues.
Proof.
  intros Hab Hse Hval Hpar Hb.
  by apply (lineasRecibidasAux_error _ _ _ _ _ _ [] tramos parcial).
Qed.

End SerialMasPropiedades.

(** ** The sensors *)

Section SensoresMasPropiedades.

(** *** The stored name *)

Lemma append_cons c (a b : string) : String c a +:+ b = String c (a +:+ b).
Proof. reflexivity. Qed.

Lemma substring_0_longitud n s : (String.length (substring 0 n s) ≤ n)%nat.
Proof.
  revert s. induction n as [|n IH]; intros [|c s]; simpl; try lia.
  specialize (IH s). lia.
Qed.


Lemma substring_0_todo n s : substring 0 n s = s ↔ (String.length s ≤ n)%nat.
Proof.
  revert s. induction n as [|n IH]; intros [|c s]; simpl.
  - split; [lia | done].
  - split; [done | lia].
  - split; [lia | done].
  - rewrite <- Nat.succ_le_mono, <- IH. split; [by intros [= ?] | by intros ->].
Qed.

Lemma substring_0_caracteres n s c :
  c ∈ list_ascii_of_string (substring 0 n s) → c ∈ list_ascii_of_string s.
Proof.
  revert s. induction n as [|n IH]; intros [|c' s]; simpl;
    try (by intros ?%not_elem_of_nil).
  intros [->|?]%elem_of_cons; [by left | right; by apply IH].
Qed.


Lemma hastaNulo_sin_nulo s : zero ∉ list_ascii_of_string (hastaNulo s).
Proof.
  induction s as [|c s IH]; simpl; [apply not_elem_of_nil|].
  destruct (Ascii.eqb_spec c zero) as [->|Hne]; simpl; [apply not_elem_of_nil|].
  by intros [?|?]%elem_of_cons.
Qed.

Lemma hastaNulo_todo s : hastaNulo s = s ↔ zero ∉ list_ascii_of_string s.
Proof.
  induction s as [|c s IH]; simpl.
  - split; [intros _; apply not_elem_of_nil | done].
  - destruct (Ascii.eqb_spec c zero) as [->|Hne].
    + split; [done | intros []; by left].
    + rewrite not_elem_of_cons, <- IH.
      split; [intros [= ?]; by split | by intros [_ ->]].
Qed.

Lemma hastaNulo_longitud s : (String.length (hastaNulo s) ≤ String.length s)%nat.
Proof.
  induction s as [|c s IH]; simpl; [done|].
  destruct (Ascii.eqb c zero); simpl; lia.
Qed.

Lemma append_asociativa (a b c : string) : (a +:+ b) +:+ c = a +:+ (b +:+ c).
Proof. induction a as [|x a IH]; [done|]. by rewrite !append_cons, IH. Qed.

Lemma copiarNombre_fijo n :
  copiarNombre n = n ↔ (String.length n ≤ 49)%nat ∧ zero ∉ list_ascii_of_string n.
Proof.
  unfold copiarNombre. split.
  - intros Heq. assert (zero ∉ list_ascii_of_string n) as Hz.
    { rewrite <- Heq. intros Hin%substring_0_caracteres.
      by apply hastaNulo_sin_nulo in Hin. }
    split; [|done]. apply hastaNulo_todo in Hz. rewrite Hz in Heq.
    by apply substring_0_todo.
  - intros [Hlen Hz]. apply hastaNulo_todo in Hz. rewrite Hz.
    by apply substring_0_todo.
Qed.

Lemma copiarNombre_acotado id :
  (String.length (copiarNombre id) ≤ 49)%nat
  ∧ zero ∉ list_ascii_of_string (copiarNombre id).
Proof.
  split; [apply substring_0_longitud|].
  intros Hin%substring_0_caracteres. by apply hastaNulo_sin_nulo in Hin.
Qed.


(** *** The thermal minimum *)

Ltac comparar :=
  repeat match goal with
         | |- context [(?a ?= ?b)%Z] => destruct (Z.compare_spec a b)
         | |- context [PosDef.Pos.compare_cont Eq ?a ?b] =>
             change (PosDef.Pos.compare_cont Eq a b) with (Pos.compare a b);
             destruct (Pos.compare_spec a b)
         end.

Lemma SFltb_trans x y z : SFltb x y = true → SFltb y z = true → SFltb x z = true.
Proof.
  unfold SFltb.
  destruct x as [[]|[]| |[] mx ex], y as [[]|[]| |[] my ey], z as [[]|[]| |[] mz ez];
    simpl; try done; comparar; simpl; try done; lia.
Qed.

Lemma SFltb_entre x y z :
  y ≠ S754_nan → SFltb x z = true → SFltb x y = true ∨ SFltb y z = true.
Proof.
  unfold SFltb.
  destruct x as [[]|[]| |[] mx ex], y as [[]|[]| |[] my ey], z as [[]|[]| |[] mz ez];
    simpl; try done; try (by left); try (by right); intros _; comparar; simpl;
    try done; try (by left); try (by right); lia.
Qed.

Lemma SFltb_nan_r x : SFltb x S754_nan = false.
Proof. by destruct x as [[]|[]| |[] mx ex]. Qed.

Lemma minimo_foldl (xs : list float) (v0 : float) :
  v0 ≠ S754_nan →
  let v := foldl (λ valorMinimo medida,
                    if SFltb medida valorMinimo then medida else valorMinimo) v0 xs in
  (v = v0 ∨ v ∈ xs)
  ∧ (∀ x, x ∈ xs → SFltb x v = false)
  ∧ SFltb v0 v = false
  ∧ v ≠ S754_nan.
Proof.
  revert v0. induction xs as [|x xs IH]; intros v0 Hnan; simpl.
  - split; [by left|]. split; [by intros x ?%not_elem_of_nil|]. split; [|done].
    destruct (SFltb v0 v0) eqn:Hc; [|done].
    unfold SFltb in Hc. destruct v0 as [[]|[]| |[] m e]; simpl in Hc; try done;
      revert Hc; comparar; simpl; try done; lia.
  - destruct (SFltb x v0) eqn:Hx.
    + assert (x ≠ S754_nan) as Hxn by (intros ->; done).
      destruct (IH x Hxn) as (Hv & Hxs & Hxv & Hvn).
      split; [|split; [|split; [|done]]].
      * right. destruct Hv as [->|?]; [by left | by right].
      * intros y [->|?]%elem_of_cons; [done | by apply Hxs].
      * apply not_true_is_false. intros Hc.
        by rewrite (SFltb_trans _ _ _ Hx Hc) in Hxv.
    + destruct (IH v0 Hnan) as (Hv & Hxs & Hvv & Hvn).
      split; [|split; [|split; [done|done]]].
      * destruct Hv as [->|?]; [by left | right; by right].
      * intros y [->|?]%elem_of_cons; [|by apply Hxs].
        apply not_true_is_false. intros Hc.
        destruct (SFltb_entre _ v0 _ Hnan Hc) as [H1|H1]; congruence.
Qed.

(** X12.  On a history that is not empty [procesarLectura] of the thermal
    sensor reports a value that is 999999.0 or a recorded reading, that no
    recorded reading is below and that 999999.0 is not below; it never
    reports a NaN, readings that are NaN are passed over, and as soon as one
    reading is below 999999.0 the value reported is a recorded reading: the
    minimum.  The history is not changed. *)
Theorem minimo_termico_caracterizado m (s : SensorTemperatura.t) cs :
  representa m (SensorTemperatura.registroMediciones s) cs → cs ≠ [] →
  ∃ v, SensorTemperatura.procesarLectura s m = Some (MsgValorMinimo v, m)
       ∧ (v = centinela ∨ v ∈ cs.*2)
       ∧ (∀ x, x ∈ cs.*2 → SFltb x v = false)
       ∧ SFltb centinela v = false
       ∧ v ≠ S754_nan
       ∧ ((∃ x, x ∈ cs.*2 ∧ SFltb x centinela = true) → v ∈ cs.*2).
Proof.
  intros Hr Hne. rewrite (procesarLectura_termico _ _ _ Hr).
  destruct (minimo_foldl cs.*2 centinela) as (Hv & Hxs & Hc & Hn); [done|].
  eexists. split; [by destruct cs|]. fold centinela.
  split; [done|]. split; [done|]. split; [done|]. split; [done|].
  intros (x & Hin & Hx). destruct Hv as [Heq|?]; [|done].
  specialize (Hxs x Hin). rewrite Heq in Hxs. congruence.
Qed.

(** *** The barometric mean *)

Lemma suma_acotada (xs : list Z) (B : Z) :
  (∀ x, x ∈ xs → - B ≤ x ≤ B) →
  - (Z.of_nat (length xs) * B) ≤ foldr Z.add 0 xs ≤ Z.of_nat (length xs) * B.
Proof.
  induction xs as [|x xs IH]; intros Hxs; simpl; [lia|].
  assert (- B ≤ x ≤ B) by (apply Hxs; by left).
  assert (∀ y, y ∈ xs → - B ≤ y ≤ B) as Hr by (intros y ?; apply Hxs; by right).
  specialize (IH Hr). lia.
Qed.

(** X13.  With every reading between [-B] and [B] and the number of
    readings times [B] at most [INT_MAX], no partial sum leaves the range of
    [int], and [procesarLectura] of the barometric sensor reports the
    quotient, correctly rounded to a [double], of the sum of the readings by
    their number. *)
Theorem media_exacta_con_lecturas_acotadas m (s : SensorPresion.t) cs (B : Z) :
  representa m (SensorPresion.registroMediciones s) cs → cs ≠ [] →
  1 ≤ B → (∀ x, x ∈ cs.*2 → - B ≤ x ≤ B) →
  Z.of_nat (length cs) * B ≤ INT_MAX →
  SensorPresion.procesarLectura s m
  = Some (MsgMediaAritmetica
            (dividirDouble (doubleDeInt (foldr Z.add 0 cs.*2))
                           (doubleDeInt (Z.of_nat (length cs)))), m).
Proof.
  intros Hr Hne HB Hxs Hmax. apply media_sin_desborde; [done..| |nia].
  intros k Hk.
  pose proof (suma_acotada (take k cs.*2) B) as Hs.
  assert (length (take k cs.*2) = k) as Hlen.
  { rewrite length_take, length_fmap. lia. }
  rewrite Hlen in Hs. unfold enRango, INT_MIN, INT_MAX in *.
  assert (- (Z.of_nat k * B) ≤ foldr Z.add 0 (take k cs.*2) ≤ Z.of_nat k * B) as Hb.
  { apply Hs. intros x Hx. apply Hxs.
    rewrite <- (take_drop k cs.*2). apply elem_of_app. by left. }
  nia.
Qed.

(** *** [imprimirInfo] *)

Lemma aplicar_anotar_impresas {T} (xs : list T) (impresas : list T) :
  aplicarEnOrden (λ medida impresas, Some (impresas ++ [medida])) xs impresas
  = Some (impresas ++ xs).
Proof.
  revert impresas. induction xs as [|x xs IH]; intros impresas; simpl.
  - by rewrite app_nil_r.
  - rewrite IH. by rewrite <- app_assoc.
Qed.

Lemma agregarLecturas_termico s (xs : list float) m cs :
  representa m (SensorTemperatura.registroMediciones s) cs →
  ∃ m' csn, SensorTemperatura.agregarLecturas s xs m = Some (tt, m')
            ∧ csn.*2 = xs
            ∧ representa m' (SensorTemperatura.registroMediciones s) (cs ++ csn).
Proof.
  revert m cs. induction xs as [|x xs IH]; intros m cs Hr; simpl.
  - exists m, []. by rewrite app_nil_r.
  - destruct (insertarAlFinal_spec _ _ _ x Hr) as (m1 & Hrun & Hr1 & _).
    destruct (IH m1 _ Hr1) as (m2 & csn & Hrun2 & Hd & Hr2).
    exists m2, ((fresh (dom (nodos m)), x) :: csn).
    split; [|split; [by rewrite fmap_cons, Hd | by rewrite <- app_assoc in Hr2]].
    unfold SensorTemperatura.agregarLectura.
    erewrite ligar_Some; cycle 1.
    { erewrite ligar_Some; [|exact Hrun]. reflexivity. }
    exact Hrun2.
Qed.

Lemma agregarLecturas_presion s (xs : list Z) m cs :
  representa m (SensorPresion.registroMediciones s) cs →
  ∃ m' csn, SensorPresion.agregarLecturas s xs m = Some (tt, m')
            ∧ csn.*2 = xs
            ∧ representa m' (SensorPresion.registroMediciones s) (cs ++ csn).
Proof.
  revert m cs. induction xs as [|x xs IH]; intros m cs Hr; simpl.
  - exists m, []. by rewrite app_nil_r.
  - destruct (insertarAlFinal_spec _ _ _ x Hr) as (m1 & Hrun & Hr1 & _).
    destruct (IH m1 _ Hr1) as (m2 & csn & Hrun2 & Hd & Hr2).
    exists m2, ((fresh (dom (nodos m)), x) :: csn).
    split; [|split; [by rewrite fmap_cons, Hd | by rewrite <- app_assoc in Hr2]].
    unfold SensorPresion.agregarLectura.
    erewrite ligar_Some; cycle 1.
    { erewrite ligar_Some; [|exact Hrun]. reflexivity. }
    exact Hrun2.
Qed.

Lemma imprimirInfoTermico_spec m s cs :
  representa m (SensorTemperatura.registroMediciones s) cs →
  imprimirInfoTermico s m
  = Some (mkDetalles (SensorTemperatura.nombre s) (envolver (Z.of_nat (length cs)))
            (match cs with [] => None | _ => Some cs.*2 end), m).
Proof.
  intros Hr. unfold imprimirInfoTermico.
  erewrite ligar_Some; [|by apply getTamanio_spec].
  erewrite ligar_Some; [|by apply estaVacia_spec].
  destruct cs as [|c cs]; [done|]. rewrite bool_decide_false by done.
  erewrite ligar_Some; cycle 1.
  { erewrite iterar_spec by done. rewrite aplicar_anotar_impresas. reflexivity. }
  done.
Qed.

Lemma imprimirInfoPresion_spec m s cs :
  representa m (SensorPresion.registroMediciones s) cs →
  imprimirInfoPresion s m
  = Some (mkDetalles (SensorPresion.nombre s) (envolver (Z.of_nat (length cs)))
            (match cs with [] => None | _ => Some cs.*2 end), m).
Proof.
  intros Hr. unfold imprimirInfoPresion.
  erewrite ligar_Some; [|by apply getTamanio_spec].
  erewrite ligar_Some; [|by apply estaVacia_spec].
  destruct cs as [|c cs]; [done|]. rewrite bool_decide_false by done.
  erewrite ligar_Some; cycle 1.
  { erewrite iterar_spec by done. rewrite aplicar_anotar_impresas. reflexivity. }
  done.
Qed.

(** X14.  A sensor of either kind that is constructed and then given the
    readings [xs] through [agregarLectura] shows, in [imprimirInfo], the
    stored name, the number of readings (as an [int]) and, unless there is
    none, the readings themselves, all of them, once each, in the order in
    which they were given; [imprimirInfo] leaves the sensor as it was. *)
Theorem imprimirInfo_muestra_lo_agregado :
  (∀ m id (xs : list float),
     ∃ s m', (r ← SensorTemperatura.crear id;
              SensorTemperatura.agregarLecturas r.1 xs;; retornar r.1) m
             = Some (s, m')
             ∧ imprimirInfoTermico s m'
               = Some (mkDetalles (copiarNombre id) (envolver (Z.of_nat (length xs)))
                         (match xs with [] => None | _ => Some xs end), m'))
  ∧ (∀ m id (xs : list Z),
       ∃ s m', (r ← SensorPresion.crear id;
                SensorPresion.agregarLecturas r.1 xs;; retornar r.1) m
               = Some (s, m')
               ∧ imprimirInfoPresion s m'
                 = Some (mkDetalles (copiarNombre id) (envolver (Z.of_nat (length xs)))
                           (match xs with [] => None | _ => Some xs end), m')).
Proof.
  split.
  - intros m id xs.
    pose (this := fresh (dom (listas m))).
    pose (m1 := mkMemoria (nodos m) (<[this := mkLista None 0]> (listas m))).
    pose (s := SensorTemperatura.mk (copiarNombre id) this).
    destruct (agregarLecturas_termico s xs m1 []) as (m' & csn & Hrun & Hd & Hr).
    { apply representa_nueva. }
    exists s, m'. split.
    + erewrite ligar_Some; cycle 1.
      { unfold SensorTemperatura.crear. erewrite ligar_Some; [|apply construir_spec].
        reflexivity. }
      erewrite ligar_Some; [|exact Hrun]. reflexivity.
    + rewrite (imprimirInfoTermico_spec _ _ _ Hr). simpl. subst xs.
      rewrite length_fmap. by destruct csn.
  - intros m id xs.
    pose (this := fresh (dom (listas m))).
    pose (m1 := mkMemoria (nodos m) (<[this := mkLista None 0]> (listas m))).
    pose (s := SensorPresion.mk (copiarNombre id) this).
    destruct (agregarLecturas_presion s xs m1 []) as (m' & csn & Hrun & Hd & Hr).
    { apply representa_nueva. }
    exists s, m'. split.
    + erewrite ligar_Some; cycle 1.
      { unfold SensorPresion.crear. erewrite ligar_Some; [|apply construir_spec].
        reflexivity. }
      erewrite ligar_Some; [|exact Hrun]. reflexivity.
    + rewrite (imprimirInfoPresion_spec _ _ _ Hr). simpl. subst xs.
      rewrite length_fmap. by destruct csn.
Qed.

End SensoresMasPropiedades.

(** ** The memory of the program *)

Section MemoriaMas.
Context {T : Type}.
Implicit Types m : Memoria (T:=T).

Lemma sinFugas_inicial : sinFugas (memoriaInicial (T:=T)).
Proof. intros a Ha. simpl in Ha. rewrite dom_empty_L in Ha. by apply elem_of_empty in Ha. Qed.

Lemma bienFormada_inicial : bienFormada (memoriaInicial (T:=T)).
Proof. apply alcanzable_bienFormada. constructor. Qed.

Lemma transforma_dom_listas m m' this cs cs' :
  representa m this cs → transforma m m' this cs cs' →
  dom (listas m') = dom (listas m).
Proof.
  intros (l & Hl & _) ((l' & Hl' & _) & Hj & _).
  apply set_eq. intros j. rewrite !elem_of_dom.
  destruct (decide (j = this)) as [->|Hne].
  - rewrite Hl, Hl'. split; by eexists.
  - by rewrite Hj.
Qed.

Lemma insertarAlFinal_conserva m this cs (x : T) :
  bienFormada m → sinFugas m → representa m this cs →
  ∃ m', insertarAlFinal this x m = Some (tt, m')
        ∧ representa m' this (cs ++ [(fresh (dom (nodos m)), x)])
        ∧ (∀ j csj, j ≠ this → representa m j csj → representa m' j csj)
        ∧ bienFormada m' ∧ sinFugas m'
        ∧ dom (listas m') = dom (listas m).
Proof.
  intros Hbf Hsf Hr.
  destruct (insertarAlFinal_spec _ _ _ x Hr) as (m' & Hrun & Htr).
  exists m'. split; [done|]. split; [by destruct Htr|]. split; [|split; [|split]].
  - intros j csj Hne Hrj. eapply transforma_otro; [exact Htr | done | done |].
    by eapply (proj2 Hbf this j).
  - by eapply bienFormada_transforma.
  - by eapply (ejecutar_sinFugas (OpInsertar this x)).
  - by eapply transforma_dom_listas.
Qed.

Lemma destruir_conserva m this cs :
  bienFormada m → sinFugas m → representa m this cs →
  ∃ m', destruir this m = Some (tt, m')
        ∧ listas m' = delete this (listas m)
        ∧ (∀ j csj, j ≠ this → representa m j csj → representa m' j csj)
        ∧ bienFormada m' ∧ sinFugas m'.
Proof.
  intros Hbf Hsf Hr.
  destruct (vaciar_spec _ _ _ Hr) as (m0 & Hvac & Htr & Hnod).
  pose proof Htr as (Hr0 & Hj & _).
  pose proof (bienFormada_transforma _ _ _ _ _ Hbf Hr Htr) as Hbf0.
  assert (sinFugas m0) as Hsf0.
  { eapply sinFugas_transforma; [exact Hbf | exact Hsf | exact Hr | exact Htr | |].
    - intros a. rewrite !elem_of_dom, Hnod. destruct (decide (a ∈ cs.*1)).
      + by intros [? ?].
      + by left.
    - intros a Hin _. rewrite elem_of_dom, Hnod, decide_True by done. by intros [? ?]. }
  pose proof Hr0 as (l0 & Hl0 & _).
  exists (mkMemoria (nodos m0) (delete this (listas m0))).
  split; [|split; [|split; [|split]]].
  - unfold destruir. erewrite ligar_Some; [|exact Hvac].
    unfold liberarLista. by rewrite Hl0.
  - simpl. apply map_eq. intros j. destruct (decide (j = this)) as [->|Hne].
    + by rewrite !lookup_delete_eq.
    + rewrite !lookup_delete_ne by done. by apply Hj.
  - intros j csj Hne Hrj.
    assert (representa m0 j csj) as (l & Hl & Hc & He).
    { eapply transforma_otro; [exact Htr | done | done |].
      by eapply (proj2 Hbf this j). }
    exists l. simpl. by rewrite lookup_delete_ne.
  - by apply bienFormada_liberarLista.
  - intros a Ha. simpl in Ha. destruct (Hsf0 a Ha) as (j & csj & Hrj & Hin).
    destruct (decide (j = this)) as [->|Hne].
    + rewrite (representa_unica _ _ _ _ Hrj Hr0) in Hin. by apply not_elem_of_nil in Hin.
    + exists j, csj. split; [|done]. destruct Hrj as (l & Hl & Hc & He).
      exists l. simpl. by rewrite lookup_delete_ne.
Qed.

Lemma sin_listas_sin_nodos m : sinFugas m → listas m = ∅ → nodos m = ∅.
Proof.
  intros Hsf Hl. apply map_empty. intros a.
  apply not_elem_of_dom. intros Ha.
  destruct (Hsf a Ha) as (j & cs & (l & Hj & _) & _).
  by rewrite Hl, lookup_empty in Hj.
Qed.

Lemma memoria_vacia m : nodos m = ∅ → listas m = ∅ → m = memoriaInicial.
Proof. destruct m. simpl. by intros -> ->. Qed.

End MemoriaMas.

(** ** The shape of the memory of the program *)

(** *** Changes that keep the shape *)

Lemma propietarios_cambio_termica ds s mT :
  propietarios ds s → bienFormada mT → sinFugas mT →
  dom (listas mT) = dom (listas (memTermica s)) →
  propietarios ds (mkSistema mT (memPresion s) (memRegistro s) (dispositivos s)).
Proof.
  intros [H1 H2 H3 H4 H5 H6 H7 H8] Hbf Hsf Hdom. constructor; simpl; try done.
  - intros d [t|p] Hd; specialize (H5 d _ Hd); simpl in *; [|done].
    apply elem_of_dom. rewrite Hdom. by apply elem_of_dom.
  - intros l Hl. rewrite Hdom in Hl. by apply H7.
Qed.

Lemma propietarios_cambio_presion ds s mP :
  propietarios ds s → bienFormada mP → sinFugas mP →
  dom (listas mP) = dom (listas (memPresion s)) →
  propietarios ds (mkSistema (memTermica s) mP (memRegistro s) (dispositivos s)).
Proof.
  intros [H1 H2 H3 H4 H5 H6 H7 H8] Hbf Hsf Hdom. constructor; simpl; try done.
  - intros d [t|p] Hd; specialize (H5 d _ Hd); simpl in *; [done|].
    apply elem_of_dom. rewrite Hdom. by apply elem_of_dom.
  - intros l Hl. rewrite Hdom in Hl. by apply H8.
Qed.

Lemma propietarios_cambio_registro ds s mR :
  propietarios ds s →
  propietarios ds (mkSistema (memTermica s) (memPresion s) mR (dispositivos s)).
Proof. intros [H1 H2 H3 H4 H5 H6 H7 H8]. by constructor. Qed.

Lemma sensorVisto_marco s s' e :
  sensorVisto s e →
  dispositivos s' !! e.1.1 = dispositivos s !! e.1.1 →
  (∀ t cs, dispositivos s !! e.1.1 = Some (Termico t) →
           representa (memTermica s) (SensorTemperatura.registroMediciones t) cs →
           representa (memTermica s') (SensorTemperatura.registroMediciones t) cs) →
  (∀ p cs, dispositivos s !! e.1.1 = Some (Barometrico p) →
           representa (memPresion s) (SensorPresion.registroMediciones p) cs →
           representa (memPresion s') (SensorPresion.registroMediciones p) cs) →
  sensorVisto s' e.
Proof.
  intros Hv Hd HT HP. unfold sensorVisto in *.
  destruct (e.2) as [xs|xs].
  - destruct Hv as (t & cs & Ht & Hn & Hr & Hxs).
    exists t, cs. rewrite Hd. split; [done|]. split; [done|]. split; [|done]. by apply HT.
  - destruct Hv as (p & cs & Hp & Hn & Hr & Hxs).
    exists p, cs. rewrite Hd. split; [done|]. split; [done|]. split; [|done]. by apply HP.
Qed.

Lemma sensorVisto_objeto s e :
  sensorVisto s e →
  ∃ obj, dispositivos s !! e.1.1 = Some obj ∧ getNombre obj = e.1.2
         ∧ existeHistorial s obj.
Proof.
  unfold sensorVisto. destruct (e.2) as [xs|xs].
  - intros (t & cs & Ht & Hn & (l & Hl & _) & _). exists (Termico t).
    split; [done|]. split; [done|]. by exists l.
  - intros (p & cs & Hp & Hn & (l & Hl & _) & _). exists (Barometrico p).
    split; [done|]. split; [done|]. by exists l.
Qed.

(** *** A new sensor *)

Lemma nuevoSensorTemperatura_cuerpo (s : Sistema) v id :
  cuerpo s v →
  let l := fresh (dom (listas (memTermica s))) in
  let d := fresh (dom (dispositivos s)) in
  let t := SensorTemperatura.mk (copiarNombre id) l in
  let s' := mkSistema (mkMemoria (nodos (memTermica s))
                         (<[l := mkLista None 0]> (listas (memTermica s))))
                      (memPresion s) (memRegistro s)
                      (<[d := Termico t]> (dispositivos s)) in
  nuevoSensorTemperatura id s
  = Some ((d, t, MsgTermicoInicializado (copiarNombre id)), s')
  ∧ (d ∉ v.*1.*1)
  ∧ cuerpo s' (v ++ [(d, copiarNombre id, HistorialTermico [])]).
Proof.
  intros ([[HbT HsT] HP Hnd Hdom Hhis Hpro HlT HlP] & Hvis & Hnom) l d t s'.
  assert (listas (memTermica s) !! l = None) as Hl by apply not_elem_of_dom, is_fresh.
  assert (dispositivos s !! d = None) as Hd by apply not_elem_of_dom, is_fresh.
  assert (d ∉ v.*1.*1) as Hdv.
  { intros Hin. apply (is_fresh (dom (dispositivos s))). fold d.
    rewrite Hdom. by apply elem_of_list_to_set. }
  split; [reflexivity|]. split; [done|].
  split; [|split].
  - rewrite !fmap_app. simpl. constructor; simpl.
    + split; [by apply bienFormada_construir | by apply sinFugas_construir].
    + done.
    + apply NoDup_app. split; [done|]. split; [|apply NoDup_singleton].
      intros x Hx ->%list_elem_of_singleton. done.
    + rewrite dom_insert_L, list_to_set_app_L, Hdom. simpl.
      rewrite union_empty_r_L. apply union_comm_L.
    + intros d' obj [[<- <-]|[Hne Hd']]%lookup_insert_Some; simpl.
      * rewrite lookup_insert_eq. by eexists.
      * specialize (Hhis d' obj Hd'). destruct obj as [t'|p']; simpl in *; [|done].
        rewrite lookup_insert_ne; [done|]. intros Heq.
        rewrite <- Heq, Hl in Hhis. by destruct Hhis.
    + intros d1 d2 o1 o2 [[<- <-]|[Hne1 Hd1]]%lookup_insert_Some
        [[<- <-]|[Hne2 Hd2]]%lookup_insert_Some Hcl Heq; [done| | |by eapply Hpro].
      * destruct o2 as [t2|p2]; [|done]. simpl in Heq.
        specialize (Hhis _ _ Hd2). simpl in Hhis. rewrite <- Heq, Hl in Hhis.
        by destruct Hhis.
      * destruct o1 as [t1|p1]; [|done]. simpl in Heq.
        specialize (Hhis _ _ Hd1). simpl in Hhis. rewrite Heq, Hl in Hhis.
        by destruct Hhis.
    + intros l' Hl'. rewrite dom_insert_L in Hl'.
      apply elem_of_union in Hl' as [->%elem_of_singleton|Hl'].
      * exists d, t. by rewrite lookup_insert_eq.
      * destruct (HlT l' Hl') as (d' & t' & Hd' & Ht'). exists d', t'.
        split; [|done]. rewrite lookup_insert_ne; [done|]. intros Heq. congruence.
    + intros l' Hl'. destruct (HlP l' Hl') as (d' & p' & Hd' & Hp'). exists d', p'.
      split; [|done]. rewrite lookup_insert_ne; [done|]. intros Heq. congruence.
  - apply Forall_app. split.
    + eapply Forall_impl; [exact Hvis|]. intros e He.
      destruct (sensorVisto_objeto _ _ He) as (obj & Hobj & _).
      eapply sensorVisto_marco; [exact He| | |].
      * simpl. rewrite lookup_insert_ne; [done|]. intros Heq. congruence.
      * intros t' cs Ht' Hr. simpl. eapply representa_marco; [exact Hr| |done].
        simpl. rewrite lookup_insert_ne; [done|]. intros Heq.
        destruct Hr as (l0 & Hl0 & _). congruence.
      * intros p' cs Hp' Hr. done.
    + apply Forall_singleton. exists t, []. simpl. rewrite lookup_insert_eq.
      split; [done|]. split; [done|]. split; [apply representa_nueva | done].
  - apply Forall_app. split; [done|]. apply Forall_singleton. simpl.
    apply copiarNombre_fijo, copiarNombre_acotado.
Qed.

(** *** A reading appended to the history of a sensor *)

Lemma otros_distintos v (antes despues : list (dir * string * Historial)) e :
  v = antes ++ e :: despues → NoDup v.*1.*1 →
  ∀ e', e' ∈ antes ++ despues → e'.1.1 ≠ e.1.1.
Proof.
  intros -> Hnd e' Hin Heq. rewrite !fmap_app, !fmap_cons in Hnd.
  apply NoDup_app in Hnd as (_ & Hno & [Hne _]%NoDup_cons).
  apply elem_of_app in Hin as [Hin|Hin].
  - apply (Hno e'.1.1).
    + apply list_elem_of_fmap. exists e'.1. split; [done|].
      apply list_elem_of_fmap. by exists e'.
    + rewrite Heq. by left.
  - apply Hne. rewrite <- Heq.
    apply list_elem_of_fmap. exists e'.1. split; [done|].
    apply list_elem_of_fmap. by exists e'.
Qed.

Lemma Forall_medio {A} (P : A → Prop) (antes despues : list A) (e : A) :
  Forall P (antes ++ e :: despues) ↔ P e ∧ Forall P (antes ++ despues).
Proof. rewrite !Forall_app, Forall_cons. tauto. Qed.

Lemma agregarTermica_cuerpo (s : Sistema) antes d n xs despues t x :
  cuerpo s (antes ++ (d, n, HistorialTermico xs) :: despues) →
  dispositivos s !! d = Some (Termico t) →
  ∃ mT, enTermica (SensorTemperatura.agregarLectura t x) s
        = Some (MsgDatoDecimal x,
                mkSistema mT (memPresion s) (memRegistro s) (dispositivos s))
        ∧ cuerpo (mkSistema mT (memPresion s) (memRegistro s) (dispositivos s))
            (antes ++ (d, n, HistorialTermico (xs ++ [x])) :: despues).
Proof.
  intros (Hprop & Hvis & Hnom) Hd.
  pose proof Hprop as [[HbT HsT] HP Hnd Hdom Hhis Hpro HlT HlP].
  apply Forall_medio in Hvis as [(t0 & cs & Ht0 & Hn & Hr & Hxs) Hvis].
  simpl in Ht0, Hn. rewrite Hd in Ht0. injection Ht0 as <-.
  destruct (insertarAlFinal_conserva _ _ _ x HbT HsT Hr)
    as (mT & Hrun & Hr' & Hotros & HbT' & HsT' & Hdl).
  exists mT. split; [|split; [|split]].
  - unfold enTermica, SensorTemperatura.agregarLectura.
    erewrite ligar_Some; [|exact Hrun]. reflexivity.
  - assert ((antes ++ (d, n, HistorialTermico (xs ++ [x])) :: despues).*1.*1
            = (antes ++ (d, n, HistorialTermico xs) :: despues).*1.*1) as ->.
    { by rewrite !fmap_app, !fmap_cons. }
    by apply propietarios_cambio_termica.
  - apply Forall_medio. split.
    + exists t, (cs ++ [(fresh (dom (nodos (memTermica s))), x)]). simpl.
      split; [done|]. split; [done|]. split; [done|].
      by rewrite fmap_app, Hxs.
    + apply Forall_forall. intros e He.
      pose proof (otros_distintos _ _ _ _ eq_refl Hnd e He) as Hne. simpl in Hne.
      rewrite Forall_forall in Hvis.
      eapply sensorVisto_marco; [by apply Hvis | done | | done].
      intros t' cs' Ht' Hr''. simpl. apply Hotros; [|done].
      intros Heq. apply Hne. by eapply (Hpro e.1.1 d (Termico t') (Termico t)).
  - apply Forall_medio. by apply Forall_medio in Hnom.
Qed.

(** *** A pointer appended to the registry *)

Lemma insertarRegistro_bien registro (s : Sistema) ds d :
  registroBien registro s ds →
  ∃ mR, enRegistro (insertarAlFinal registro d) s
        = Some (tt, mkSistema (memTermica s) (memPresion s) mR (dispositivos s))
        ∧ registroBien registro
            (mkSistema (memTermica s) (memPresion s) mR (dispositivos s)) (ds ++ [d]).
Proof.
  intros ((cs & Hr & Hcs) & Hbf & Hsf & Hdom).
  destruct (insertarAlFinal_conserva _ _ _ d Hbf Hsf Hr)
    as (mR & Hrun & Hr' & _ & Hbf' & Hsf' & Hdl).
  exists mR. split.
  - unfold enRegistro. by rewrite Hrun.
  - split; [|split; [done|split; [done|]]]; simpl.
    + eexists. split; [exact Hr'|]. by rewrite fmap_app, Hcs.
    + by rewrite Hdl.
Qed.

Lemma cuerpo_cambio_registro (s : Sistema) v mR :
  cuerpo s v →
  cuerpo (mkSistema (memTermica s) (memPresion s) mR (dispositivos s)) v.
Proof.
  intros (Hprop & Hvis & Hnom). split; [|split; [exact Hvis | done]].
  by apply propietarios_cambio_registro.
Qed.

(** *** The same for the barometric sensors *)

Lemma nuevoSensorPresion_cuerpo (s : Sistema) v id :
  cuerpo s v →
  let l := fresh (dom (listas (memPresion s))) in
  let d := fresh (dom (dispositivos s)) in
  let p := SensorPresion.mk (copiarNombre id) l in
  let s' := mkSistema (memTermica s)
                      (mkMemoria (nodos (memPresion s))
                         (<[l := mkLista None 0]> (listas (memPresion s))))
                      (memRegistro s)
                      (<[d := Barometrico p]> (dispositivos s)) in
  nuevoSensorPresion id s
  = Some ((d, p, MsgBarometricoInicializado (copiarNombre id)), s')
  ∧ (d ∉ v.*1.*1)
  ∧ cuerpo s' (v ++ [(d, copiarNombre id, HistorialPresion [])]).
Proof.
  intros ([HT [HbP HsP] Hnd Hdom Hhis Hpro HlT HlP] & Hvis & Hnom) l d p s'.
  assert (listas (memPresion s) !! l = None) as Hl by apply not_elem_of_dom, is_fresh.
  assert (dispositivos s !! d = None) as Hd by apply not_elem_of_dom, is_fresh.
  assert (d ∉ v.*1.*1) as Hdv.
  { intros Hin. apply (is_fresh (dom (dispositivos s))). fold d.
    rewrite Hdom. by apply elem_of_list_to_set. }
  split; [reflexivity|]. split; [done|].
  split; [|split].
  - rewrite !fmap_app. simpl. constructor; simpl.
    + done.
    + split; [by apply bienFormada_construir | by apply sinFugas_construir].
    + apply NoDup_app. split; [done|]. split; [|apply NoDup_singleton].
      intros x Hx ->%list_elem_of_singleton. done.
    + rewrite dom_insert_L, list_to_set_app_L, Hdom. simpl.
      rewrite union_empty_r_L. apply union_comm_L.
    + intros d' obj [[<- <-]|[Hne Hd']]%lookup_insert_Some; simpl.
      * rewrite lookup_insert_eq. by eexists.
      * specialize (Hhis d' obj Hd'). destruct obj as [t'|p']; simpl in *; [done|].
        rewrite lookup_insert_ne; [done|]. intros Heq.
        rewrite <- Heq, Hl in Hhis. by destruct Hhis.
    + intros d1 d2 o1 o2 [[<- <-]|[Hne1 Hd1]]%lookup_insert_Some
        [[<- <-]|[Hne2 Hd2]]%lookup_insert_Some Hcl Heq; [done| | |by eapply Hpro].
      * destruct o2 as [t2|p2]; [done|]. simpl in Heq.
        specialize (Hhis _ _ Hd2). simpl in Hhis. rewrite <- Heq, Hl in Hhis.
        by destruct Hhis.
      * destruct o1 as [t1|p1]; [done|]. simpl in Heq.
        specialize (Hhis _ _ Hd1). simpl in Hhis. rewrite Heq, Hl in Hhis.
        by destruct Hhis.
    + intros l' Hl'. destruct (HlT l' Hl') as (d' & t' & Hd' & Ht'). exists d', t'.
      split; [|done]. rewrite lookup_insert_ne; [done|]. intros Heq. congruence.
    + intros l' Hl'. rewrite dom_insert_L in Hl'.
      apply elem_of_union in Hl' as [->%elem_of_singleton|Hl'].
      * exists d, p. by rewrite lookup_insert_eq.
      * destruct (HlP l' Hl') as (d' & p' & Hd' & Hp'). exists d', p'.
        split; [|done]. rewrite lookup_insert_ne; [done|]. intros Heq. congruence.
  - apply Forall_app. split.
    + eapply Forall_impl; [exact Hvis|]. intros e He.
      destruct (sensorVisto_objeto _ _ He) as (obj & Hobj & _).
      eapply sensorVisto_marco; [exact He| | |].
      * simpl. rewrite lookup_insert_ne; [done|]. intros Heq. congruence.
      * intros t' cs Ht' Hr. done.
      * intros p' cs Hp' Hr. simpl. eapply representa_marco; [exact Hr| |done].
        simpl. rewrite lookup_insert_ne; [done|]. intros Heq.
        destruct Hr as (l0 & Hl0 & _). congruence.
    + apply Forall_singleton. exists p, []. simpl. rewrite lookup_insert_eq.
      split; [done|]. split; [done|]. split; [apply representa_nueva | done].
  - apply Forall_app. split; [done|]. apply Forall_singleton. simpl.
    apply copiarNombre_fijo, copiarNombre_acotado.
Qed.

Lemma agregarPresion_cuerpo (s : Sistema) antes d n xs despues p x :
  cuerpo s (antes ++ (d, n, HistorialPresion xs) :: despues) →
  dispositivos s !! d = Some (Barometrico p) →
  ∃ mP, enPresion (SensorPresion.agregarLectura p x) s
        = Some (MsgDatoEntero x,
                mkSistema (memTermica s) mP (memRegistro s) (dispositivos s))
        ∧ cuerpo (mkSistema (memTermica s) mP (memRegistro s) (dispositivos s))
            (antes ++ (d, n, HistorialPresion (xs ++ [x])) :: despues).
Proof.
  intros (Hprop & Hvis & Hnom) Hd.
  pose proof Hprop as [HT [HbP HsP] Hnd Hdom Hhis Hpro HlT HlP].
  apply Forall_medio in Hvis as [(p0 & cs & Hp0 & Hn & Hr & Hxs) Hvis].
  simpl in Hp0, Hn. rewrite Hd in Hp0. injection Hp0 as <-.
  destruct (insertarAlFinal_conserva _ _ _ x HbP HsP Hr)
    as (mP & Hrun & Hr' & Hotros & HbP' & HsP' & Hdl).
  exists mP. split; [|split; [|split]].
  - unfold enPresion, SensorPresion.agregarLectura.
    erewrite ligar_Some; [|exact Hrun]. reflexivity.
  - assert ((antes ++ (d, n, HistorialPresion (xs ++ [x])) :: despues).*1.*1
            = (antes ++ (d, n, HistorialPresion xs) :: despues).*1.*1) as ->.
    { by rewrite !fmap_app, !fmap_cons. }
    by apply propietarios_cambio_presion.
  - apply Forall_medio. split.
    + exists p, (cs ++ [(fresh (dom (nodos (memPresion s))), x)]). simpl.
      split; [done|]. split; [done|]. split; [done|].
      by rewrite fmap_app, Hxs.
    + apply Forall_forall. intros e He.
      pose proof (otros_distintos _ _ _ _ eq_refl Hnd e He) as Hne. simpl in Hne.
      rewrite Forall_forall in Hvis.
      eapply sensorVisto_marco; [by apply Hvis | done | done |].
      intros p' cs' Hp' Hr''. simpl. apply Hotros; [|done].
      intros Heq. apply Hne. by eapply (Hpro e.1.1 d (Barometrico p') (Barometrico p)).
  - apply Forall_medio. by apply Forall_medio in Hnom.
Qed.

(** *** The search, on what the registry holds *)

Lemma filtro_vista (s : Sistema) v id :
  Forall (sensorVisto s) v →
  filter (llevaNombre (dispositivos s) id) v.*1.*1
  = (filter (λ e, e.1.2 = id) v).*1.*1.
Proof.
  induction v as [|e v IH]; intros Hvis; [done|].
  apply Forall_cons in Hvis as [He Hvis]. rewrite !fmap_cons, !filter_cons.
  destruct (sensorVisto_objeto _ _ He) as (obj & Hobj & Hn & _).
  destruct (decide (e.1.2 = id)) as [Heq|Hne].
  - rewrite decide_True by (unfold llevaNombre; by rewrite Hobj, <- Heq, <- Hn).
    rewrite !fmap_cons. by rewrite IH.
  - rewrite decide_False; [by apply IH|].
    unfold llevaNombre. rewrite Hobj. simpl. intros [= Heq]. congruence.
Qed.

Lemma localizar_vista registro (s : Sistema) v id :
  registroBien registro s v.*1.*1 → Forall (sensorVisto s) v →
  localizar registro id s
  = Some (fst <$> (fst <$> last (filter (λ e, e.1.2 = id) v)), s).
Proof.
  intros ((cs & Hr & Hcs) & _) Hvis.
  rewrite (localizar_spec _ _ _ _ Hr).
  - by rewrite Hcs, filtro_vista, !fmap_last.
  - intros d Hd. rewrite Hcs in Hd.
    apply list_elem_of_fmap in Hd as (e1 & -> & He1).
    apply list_elem_of_fmap in He1 as (e & -> & He).
    rewrite Forall_forall in Hvis.
    destruct (sensorVisto_objeto _ _ (Hvis e He)) as (obj & Hobj & _). by exists obj.
Qed.

Lemma filtro_ausente (v : list (dir * string * Historial)) (id : string) :
  id ∉ v.*1.*2 → filter (λ e : dir * string * Historial, e.1.2 = id) v = [].
Proof.
  intros Hno. apply filter_ninguno. intros e He Heq. apply Hno.
  apply list_elem_of_fmap. exists e.1. split; [done|].
  apply list_elem_of_fmap. by exists e.
Qed.

Lemma filtro_ultimo (antes despues : list (dir * string * Historial)) d id h :
  id ∉ despues.*1.*2 →
  last (filter (λ e : dir * string * Historial, e.1.2 = id)
          (antes ++ (d, id, h) :: despues))
  = Some (d, id, h).
Proof.
  intros Hno. rewrite filter_app, filter_cons_True by done.
  rewrite (filtro_ausente despues id Hno). by rewrite last_snoc.
Qed.

(** The last sensor that stores a name. *)
Lemma ultimo_con_nombre (v : list (dir * string * Historial)) (id : string) :
  id ∈ v.*1.*2 →
  ∃ antes d h despues, v = antes ++ (d, id, h) :: despues ∧ id ∉ despues.*1.*2.
Proof.
  induction v as [|e v IH]; intros Hin; [by apply not_elem_of_nil in Hin|].
  destruct (decide (id ∈ v.*1.*2)) as [Hv|Hv].
  - destruct (IH Hv) as (antes & d & h & despues & -> & Hno).
    by exists (e :: antes), d, h, despues.
  - rewrite !fmap_cons in Hin. apply elem_of_cons in Hin as [Heq|?]; [|done].
    destruct e as [[d n] h]. simpl in Heq. subst n. by exists [], d, h, v.
Qed.

(** *** What the registry holds is determined by the memory *)

Lemma sensores_unicos (s : Sistema) v v' :
  Forall (sensorVisto s) v → Forall (sensorVisto s) v' →
  v.*1.*1 = v'.*1.*1 → v = v'.
Proof.
  revert v'. induction v as [|e v IH]; intros [|e' v'] Hvis Hvis' Heq; try done.
  rewrite !fmap_cons in Heq. injection Heq as Hd Heq.
  apply Forall_cons in Hvis as [He Hvis]. apply Forall_cons in Hvis' as [He' Hvis'].
  f_equal; [|by apply IH].
  destruct e as [[d n] h], e' as [[d' n'] h']. simpl in Hd. subst d'.
  unfold sensorVisto in He, He'. simpl in He, He'.
  destruct h as [xs|xs], h' as [xs'|xs'].
  - destruct He as (t & cs & Ht & Hn & Hr & Hxs).
    destruct He' as (t' & cs' & Ht' & Hn' & Hr' & Hxs').
    rewrite Ht in Ht'. injection Ht' as <-.
    rewrite (representa_unica _ _ _ _ Hr Hr') in Hxs. congruence.
  - destruct He as (t & cs & Ht & _). destruct He' as (p' & cs' & Hp' & _). congruence.
  - destruct He as (p & cs & Hp & _). destruct He' as (t' & cs' & Ht' & _). congruence.
  - destruct He as (p & cs & Hp & Hn & Hr & Hxs).
    destruct He' as (p' & cs' & Hp' & Hn' & Hr' & Hxs').
    rewrite Hp in Hp'. injection Hp' as <-.
    rewrite (representa_unica _ _ _ _ Hr Hr') in Hxs. congruence.
Qed.

Lemma vista_unica registro (s : Sistema) v v' :
  vista registro s v → vista registro s v' → v = v'.
Proof.
  intros [(cs & Hr & Hcs) Hvis] [(cs' & Hr' & Hcs') Hvis'].
  apply (sensores_unicos s); [done..|].
  rewrite <- Hcs, <- Hcs'. by rewrite (representa_unica _ _ _ _ Hr Hr').
Qed.

Lemma sistemaBien_vista registro (s : Sistema) v :
  sistemaBien registro s v → vista registro s v.
Proof. intros [(_ & Hvis & _) (Hr & _)]. by split. Qed.

(** *** The registry as [main] creates it *)

Lemma sistemaBien_creado registro (s : Sistema) :
  crearRegistro sistemaInicial = Some (registro, s) → sistemaBien registro s [].
Proof.
  intros [= <- <-]. split; [split; [|by split]|].
  - constructor; simpl.
    + split; [apply bienFormada_inicial | apply sinFugas_inicial].
    + split; [apply bienFormada_inicial | apply sinFugas_inicial].
    + constructor.
    + by rewrite dom_empty_L.
    + intros d obj Hd. by rewrite lookup_empty in Hd.
    + intros d1 d2 o1 o2 Hd. by rewrite lookup_empty in Hd.
    + intros l Hl. rewrite dom_empty_L in Hl. by apply elem_of_empty in Hl.
    + intros l Hl. rewrite dom_empty_L in Hl. by apply elem_of_empty in Hl.
  - split; [|split; [|split]]; simpl.
    + exists []. split; [apply (representa_nueva memoriaInicial) | done].
    + apply (bienFormada_construir memoriaInicial); [apply lookup_empty|].
      apply bienFormada_inicial.
    + apply (sinFugas_construir memoriaInicial); [apply lookup_empty|].
      apply sinFugas_inicial.
    + by rewrite dom_insert_L, dom_empty_L, union_empty_r_L.
Qed.

(** *** Options 1 and 2, and the new sensor of the capture loop *)

Lemma registroBien_marco registro (s s' : Sistema) ds :
  memRegistro s' = memRegistro s → registroBien registro s ds →
  registroBien registro s' ds.
Proof. unfold registroBien. by intros ->. Qed.

Lemma nombres_medio (antes despues : list (dir * string * Historial)) d n h h' :
  (antes ++ (d, n, h') :: despues).*1.*1 = (antes ++ (d, n, h) :: despues).*1.*1.
Proof. by rewrite !fmap_app, !fmap_cons. Qed.

Lemma registrarTermico_bien registro (s : Sistema) v codigo :
  sistemaBien registro s v →
  ∃ s' d, registrarTermico registro codigo s = Some (tt, s')
          ∧ (d ∉ v.*1.*1)
          ∧ sistemaBien registro s' (v ++ [(d, copiarNombre codigo, HistorialTermico [])]).
Proof.
  intros [Hc Hreg].
  pose proof (nuevoSensorTemperatura_cuerpo s v codigo Hc) as H1. cbv zeta in H1.
  destruct H1 as (Hrun1 & Hd & Hc1).
  match type of Hc1 with
  | cuerpo ?s1 _ =>
      destruct (insertarRegistro_bien registro s1 v.*1.*1 (fresh (dom (dispositivos s)))
                  (registroBien_marco registro s s1 _ eq_refl Hreg))
        as (mR & Hrun2 & Hreg2)
  end.
  eexists _, (fresh (dom (dispositivos s))). split; [|split; [done|split]].
  - unfold registrarTermico. erewrite programa_ligar; [|exact Hrun1]. exact Hrun2.
  - by apply (cuerpo_cambio_registro _ _ mR) in Hc1.
  - by rewrite !fmap_app.
Qed.

Lemma registrarPresion_bien registro (s : Sistema) v codigo :
  sistemaBien registro s v →
  ∃ s' d, registrarPresion registro codigo s = Some (tt, s')
          ∧ (d ∉ v.*1.*1)
          ∧ sistemaBien registro s' (v ++ [(d, copiarNombre codigo, HistorialPresion [])]).
Proof.
  intros [Hc Hreg].
  pose proof (nuevoSensorPresion_cuerpo s v codigo Hc) as H1. cbv zeta in H1.
  destruct H1 as (Hrun1 & Hd & Hc1).
  match type of Hc1 with
  | cuerpo ?s1 _ =>
      destruct (insertarRegistro_bien registro s1 v.*1.*1 (fresh (dom (dispositivos s)))
                  (registroBien_marco registro s s1 _ eq_refl Hreg))
        as (mR & Hrun2 & Hreg2)
  end.
  eexists _, (fresh (dom (dispositivos s))). split; [|split; [done|split]].
  - unfold registrarPresion. erewrite programa_ligar; [|exact Hrun1]. exact Hrun2.
  - by apply (cuerpo_cambio_registro _ _ mR) in Hc1.
  - by rewrite !fmap_app.
Qed.

Lemma altaTermica_bien registro (s : Sistema) v id x :
  sistemaBien registro s v →
  ∃ s' d,
    (nuevo ← nuevoSensorTemperatura id;
     dato ← enTermica (SensorTemperatura.agregarLectura nuevo.1.2 x);
     enRegistro (insertarAlFinal registro nuevo.1.1);;
     mret [nuevo.2; dato; MsgTermicoRegistrado id]) s
    = Some ([MsgTermicoInicializado (copiarNombre id); MsgDatoDecimal x;
             MsgTermicoRegistrado id], s')
    ∧ (d ∉ v.*1.*1)
    ∧ sistemaBien registro s' (v ++ [(d, copiarNombre id, HistorialTermico [x])]).
Proof.
  intros [Hc Hreg].
  pose proof (nuevoSensorTemperatura_cuerpo s v id Hc) as H1. cbv zeta in H1.
  destruct H1 as (Hrun1 & Hd & Hc1).
  destruct (agregarTermica_cuerpo _ v _ _ [] [] _ x Hc1 (lookup_insert_eq _ _ _))
    as (mT & Hrun2 & Hc2).
  match type of Hc2 with
  | cuerpo ?s2 _ =>
      destruct (insertarRegistro_bien registro s2 v.*1.*1 (fresh (dom (dispositivos s)))
                  (registroBien_marco registro s s2 _ eq_refl Hreg))
        as (mR & Hrun3 & Hreg3)
  end.
  eexists _, (fresh (dom (dispositivos s))). split; [|split; [done|split]].
  - erewrite programa_ligar; [|exact Hrun1].
    erewrite programa_ligar; [|exact Hrun2].
    erewrite programa_ligar; [|exact Hrun3]. reflexivity.
  - by apply (cuerpo_cambio_registro _ _ mR) in Hc2.
  - by rewrite !fmap_app.
Qed.

Lemma altaPresion_bien registro (s : Sistema) v id x :
  sistemaBien registro s v →
  ∃ s' d,
    (nuevo ← nuevoSensorPresion id;
     dato ← enPresion (SensorPresion.agregarLectura nuevo.1.2 x);
     enRegistro (insertarAlFinal registro nuevo.1.1);;
     mret [nuevo.2; dato; MsgPresionRegistrado id]) s
    = Some ([MsgBarometricoInicializado (copiarNombre id); MsgDatoEntero x;
             MsgPresionRegistrado id], s')
    ∧ (d ∉ v.*1.*1)
    ∧ sistemaBien registro s' (v ++ [(d, copiarNombre id, HistorialPresion [x])]).
Proof.
  intros [Hc Hreg].
  pose proof (nuevoSensorPresion_cuerpo s v id Hc) as H1. cbv zeta in H1.
  destruct H1 as (Hrun1 & Hd & Hc1).
  destruct (agregarPresion_cuerpo _ v _ _ [] [] _ x Hc1 (lookup_insert_eq _ _ _))
    as (mP & Hrun2 & Hc2).
  match type of Hc2 with
  | cuerpo ?s2 _ =>
      destruct (insertarRegistro_bien registro s2 v.*1.*1 (fresh (dom (dispositivos s)))
                  (registroBien_marco registro s s2 _ eq_refl Hreg))
        as (mR & Hrun3 & Hreg3)
  end.
  eexists _, (fresh (dom (dispositivos s))). split; [|split; [done|split]].
  - erewrite programa_ligar; [|exact Hrun1].
    erewrite programa_ligar; [|exact Hrun2].
    erewrite programa_ligar; [|exact Hrun3]. reflexivity.
  - by apply (cuerpo_cambio_registro _ _ mR) in Hc2.
  - by rewrite !fmap_app.
Qed.

(** ** The rounds of the capture loop and the options of the menu *)

Lemma anexaTermica_bien registro (s : Sistema) antes d id xs despues x :
  sistemaBien registro s (antes ++ (d, id, HistorialTermico xs) :: despues) →
  ∃ t s', dispositivos s !! d = Some (Termico t)
          ∧ enTermica (SensorTemperatura.agregarLectura t x) s
            = Some (MsgDatoDecimal x, s')
          ∧ sistemaBien registro s'
              (antes ++ (d, id, HistorialTermico (xs ++ [x])) :: despues).
Proof.
  intros [Hc Hreg]. pose proof Hc as (_ & Hvis & _).
  apply Forall_medio in Hvis as [(t & cs & Ht & _) _]. simpl in Ht.
  destruct (agregarTermica_cuerpo _ _ _ _ _ _ _ x Hc Ht) as (mT & Hrun & Hc').
  eexists t, _. split; [done|]. split; [exact Hrun|]. split; [done|].
  rewrite (nombres_medio _ _ _ _ (HistorialTermico xs)).
  by eapply registroBien_marco; [|exact Hreg].
Qed.

Lemma anexaPresion_bien registro (s : Sistema) antes d id xs despues x :
  sistemaBien registro s (antes ++ (d, id, HistorialPresion xs) :: despues) →
  ∃ p s', dispositivos s !! d = Some (Barometrico p)
          ∧ enPresion (SensorPresion.agregarLectura p x) s
            = Some (MsgDatoEntero x, s')
          ∧ sistemaBien registro s'
              (antes ++ (d, id, HistorialPresion (xs ++ [x])) :: despues).
Proof.
  intros [Hc Hreg]. pose proof Hc as (_ & Hvis & _).
  apply Forall_medio in Hvis as [(p & cs & Hp & _) _]. simpl in Hp.
  destruct (agregarPresion_cuerpo _ _ _ _ _ _ _ x Hc Hp) as (mP & Hrun & Hc').
  eexists p, _. split; [done|]. split; [exact Hrun|]. split; [done|].
  rewrite (nombres_medio _ _ _ _ (HistorialPresion xs)).
  by eapply registroBien_marco; [|exact Hreg].
Qed.

Lemma localizar_ausente registro (s : Sistema) v id :
  sistemaBien registro s v → id ∉ v.*1.*2 →
  localizar registro id s = Some (None, s).
Proof.
  intros [(_ & Hvis & _) Hreg] Hno.
  rewrite (localizar_vista _ _ _ _ Hreg Hvis). by rewrite filtro_ausente.
Qed.

Lemma localizar_presente registro (s : Sistema) antes d id h despues :
  sistemaBien registro s (antes ++ (d, id, h) :: despues) → id ∉ despues.*1.*2 →
  localizar registro id s = Some (Some d, s).
Proof.
  intros [(_ & Hvis & _) Hreg] Hno.
  rewrite (localizar_vista _ _ _ _ Hreg Hvis). by rewrite filtro_ultimo.
Qed.

Lemma localizar_bien registro (s : Sistema) v id :
  sistemaBien registro s v → ∃ r, localizar registro id s = Some (r, s).
Proof.
  intros [(_ & Hvis & _) Hreg]. rewrite (localizar_vista _ _ _ _ Hreg Hvis). by eexists.
Qed.

Lemma medicionLeida_termica ef ei tipo resto x :
  medicionLeida ef ei tipo resto = Some (MedidaTermica x) →
  bool_decide (tipo = "T" ∨ tipo = "t")%char = true ∧ ef resto = Some x.
Proof.
  unfold medicionLeida. destruct (bool_decide (tipo = "T" ∨ tipo = "t")%char).
  - destruct (ef resto); simpl; [|done]. by intros [= ->].
  - destruct (bool_decide _); [|done]. by destruct (ei resto).
Qed.

Lemma medicionLeida_presion ef ei tipo resto x :
  medicionLeida ef ei tipo resto = Some (MedidaPresion x) →
  bool_decide (tipo = "T" ∨ tipo = "t")%char = false
  ∧ bool_decide (tipo = "P" ∨ tipo = "p")%char = true ∧ ei resto = Some x.
Proof.
  unfold medicionLeida. destruct (bool_decide (tipo = "T" ∨ tipo = "t")%char).
  - by destruct (ef resto).
  - destruct (bool_decide _); [|done]. destruct (ei resto); simpl; [|done].
    by intros [= ->].
Qed.

Lemma linea_alta_bien ef ei registro (s : Sistema) v buffer c tipo id resto x :
  sistemaBien registro s v →
  esRuido buffer = false → analizar buffer = Some (tipo, id, resto) →
  medicionLeida ef ei tipo resto = Some x → id ∉ v.*1.*2 →
  ∃ s' d salida,
    procesarBuffer ef ei registro buffer c s = Some ((salida, envolver (c + 1)), s')
    ∧ last salida = Some (MsgTotalCapturadas (envolver (c + 1)))
    ∧ (d ∉ v.*1.*1)
    ∧ sistemaBien registro s' (v ++ [(d, copiarNombre id, historialNuevo x)]).
Proof.
  intros Hbien Hruido Hanalizar Hmed Hno.
  unfold procesarBuffer. rewrite Hruido, Hanalizar.
  erewrite programa_ligar; [|by eapply localizar_ausente].
  destruct x as [x|x].
  - apply medicionLeida_termica in Hmed as [-> ->].
    destruct (altaTermica_bien registro s v id x Hbien) as (s' & d & Hrun & Hd & Hb').
    exists s', d. eexists. split; [|split; [|by split]].
    + erewrite programa_ligar; [|exact Hrun]. reflexivity.
    + reflexivity.
  - apply medicionLeida_presion in Hmed as (-> & -> & ->).
    destruct (altaPresion_bien registro s v id x Hbien) as (s' & d & Hrun & Hd & Hb').
    exists s', d. eexists. split; [|split; [|by split]].
    + erewrite programa_ligar; [|exact Hrun]. reflexivity.
    + reflexivity.
Qed.

Lemma objeto_visto (s : Sistema) v antes d id h despues :
  v = antes ++ (d, id, h) :: despues → cuerpo s v →
  match h with
  | HistorialTermico _ => ∃ t, dispositivos s !! d = Some (Termico t)
  | HistorialPresion _ => ∃ p, dispositivos s !! d = Some (Barometrico p)
  end.
Proof.
  intros -> (_ & Hvis & _). apply Forall_medio in Hvis as [He _].
  unfold sensorVisto in He. simpl in He. destruct h.
  - destruct He as (t & cs & Ht & _). by exists t.
  - destruct He as (p & cs & Hp & _). by exists p.
Qed.

Lemma linea_anexa_bien ef ei registro (s : Sistema) antes d id h despues buffer c
    tipo resto x :
  sistemaBien registro s (antes ++ (d, id, h) :: despues) →
  esRuido buffer = false → analizar buffer = Some (tipo, id, resto) →
  medicionLeida ef ei tipo resto = Some x → id ∉ despues.*1.*2 →
  ∃ s' salida,
    procesarBuffer ef ei registro buffer c s = Some ((salida, envolver (c + 1)), s')
    ∧ last salida = Some (MsgTotalCapturadas (envolver (c + 1)))
    ∧ sistemaBien registro s' (antes ++ (d, id, default h (anexar h x)) :: despues)
    ∧ (anexar h x = None → s' = s).
Proof.
  intros Hbien Hruido Hanalizar Hmed Hno.
  unfold procesarBuffer. rewrite Hruido, Hanalizar.
  erewrite programa_ligar; [|by eapply localizar_presente].
  pose proof (objeto_visto s _ _ _ _ _ _ eq_refl (proj1 Hbien)) as Hobj.
  destruct x as [x|x].
  - apply medicionLeida_termica in Hmed as [-> ->].
    destruct h as [xs|xs].
    + destruct (anexaTermica_bien _ _ _ _ _ _ _ x Hbien) as (t & s' & Hd & Hrun & Hb').
      exists s'. eexists. split; [|split; [|by split]].
      * erewrite programa_ligar; cycle 1.
        { erewrite programa_ligar; [|unfold desreferenciar; by rewrite Hd].
          cbv beta iota.
          erewrite programa_ligar; [|exact Hrun]. reflexivity. }
        reflexivity.
      * reflexivity.
    + destruct Hobj as [p Hd]. exists s. eexists. split; [|split; [|by split]].
      * erewrite programa_ligar; cycle 1.
        { erewrite programa_ligar; [|unfold desreferenciar; by rewrite Hd].
          reflexivity. }
        reflexivity.
      * reflexivity.
  - apply medicionLeida_presion in Hmed as (-> & -> & ->).
    destruct h as [xs|xs].
    + destruct Hobj as [t Hd]. exists s. eexists. split; [|split; [|by split]].
      * erewrite programa_ligar; cycle 1.
        { erewrite programa_ligar; [|unfold desreferenciar; by rewrite Hd].
          reflexivity. }
        reflexivity.
      * reflexivity.
    + destruct (anexaPresion_bien _ _ _ _ _ _ _ x Hbien) as (p & s' & Hd & Hrun & Hb').
      exists s'. eexists. split; [|split; [|by split]].
      * erewrite programa_ligar; cycle 1.
        { erewrite programa_ligar; [|unfold desreferenciar; by rewrite Hd].
          cbv beta iota.
          erewrite programa_ligar; [|exact Hrun]. reflexivity. }
        reflexivity.
      * reflexivity.
Qed.

Lemma linea_descartada_bien ef ei registro (s : Sistema) v buffer c :
  sistemaBien registro s v →
  (esRuido buffer = true →
   procesarBuffer ef ei registro buffer c s = Some (([], c), s))
  ∧ (esRuido buffer = false → analizar buffer = None →
     procesarBuffer ef ei registro buffer c s
     = Some (([MsgRecibido buffer; WarnFormatoIncorrecto], c), s))
  ∧ (∀ tipo id resto,
       esRuido buffer = false → analizar buffer = Some (tipo, id, resto) →
       medicionLeida ef ei tipo resto = None →
       ∃ aviso, procesarBuffer ef ei registro buffer c s
                = Some (([MsgRecibido buffer; aviso], c), s)
                ∧ esAdvertencia aviso = true).
Proof.
  intros Hbien. split; [|split].
  - intros Hruido. unfold procesarBuffer. by rewrite Hruido.
  - intros Hruido Hanalizar. unfold procesarBuffer. by rewrite Hruido, Hanalizar.
  - intros tipo id resto Hruido Hanalizar Hmed.
    destruct (localizar_bien registro s v id Hbien) as [r Hloc].
    unfold procesarBuffer. rewrite Hruido, Hanalizar.
    erewrite programa_ligar; [|exact Hloc].
    unfold medicionLeida in Hmed.
    destruct (bool_decide (tipo = "T" ∨ tipo = "t")%char).
    { destruct (ef resto); [done|]. by eexists. }
    destruct (bool_decide (tipo = "P" ∨ tipo = "p")%char).
    { destruct (ei resto); [done|]. by eexists. }
    by eexists.
Qed.

(** *** Option 3 *)

Lemma medicion_ausente registro (s : Sistema) v codigo datoDecimal datoEntero :
  sistemaBien registro s v → codigo ∉ v.*1.*2 →
  capturarMedicion registro codigo datoDecimal datoEntero s = Some ([], s).
Proof.
  intros Hbien Hno. unfold capturarMedicion.
  erewrite programa_ligar; [|by eapply localizar_ausente]. reflexivity.
Qed.

Lemma medicion_anexa registro (s : Sistema) antes d codigo h despues
    datoDecimal datoEntero :
  sistemaBien registro s (antes ++ (d, codigo, h) :: despues) →
  codigo ∉ despues.*1.*2 →
  ∃ s' dato,
    capturarMedicion registro codigo datoDecimal datoEntero s = Some ([dato], s')
    ∧ dato = match h with
             | HistorialTermico _ => MsgDatoDecimal datoDecimal
             | HistorialPresion _ => MsgDatoEntero datoEntero
             end
    ∧ sistemaBien registro s'
        (antes ++ (d, codigo, conMedicion h datoDecimal datoEntero) :: despues).
Proof.
  intros Hbien Hno. unfold capturarMedicion.
  erewrite programa_ligar; [|by eapply localizar_presente].
  destruct h as [xs|xs]; simpl.
  - destruct (anexaTermica_bien _ _ _ _ _ _ _ datoDecimal Hbien)
      as (t & s' & Hd & Hrun & Hb').
    exists s'. eexists. split; [|by split].
    erewrite programa_ligar; [|unfold desreferenciar; by rewrite Hd].
    cbv beta iota.
    erewrite programa_ligar; [|exact Hrun]. reflexivity.
  - destruct (anexaPresion_bien _ _ _ _ _ _ _ datoEntero Hbien)
      as (p & s' & Hd & Hrun & Hb').
    exists s'. eexists. split; [|by split].
    erewrite programa_ligar; [|unfold desreferenciar; by rewrite Hd].
    cbv beta iota.
    erewrite programa_ligar; [|exact Hrun]. reflexivity.
Qed.

(** *** Option 4 *)

Lemma analizarDispositivo_visto (s : Sistema) e :
  sensorVisto s e → analizarDispositivo e.1.1 s = Some (analisisDe e, s).
Proof.
  destruct s as [mT mP mR objetos], e as [[d n] h].
  unfold sensorVisto, analisisDe. simpl. destruct h as [xs|xs].
  - intros (t & cs & Ht & Hn & Hr & Hxs). unfold analizarDispositivo.
    erewrite programa_ligar; [|unfold desreferenciar; simpl; by rewrite Ht].
    erewrite programa_ligar; cycle 1.
    { unfold procesarLectura, enTermica. simpl.
      rewrite (procesarLectura_termico _ _ _ Hr). reflexivity. }
    subst n xs. by destruct cs.
  - intros (p & cs & Hp & Hn & Hr & Hxs). unfold analizarDispositivo.
    erewrite programa_ligar; [|unfold desreferenciar; simpl; by rewrite Hp].
    erewrite programa_ligar; cycle 1.
    { unfold procesarLectura, enPresion. simpl.
      rewrite (procesarLectura_barometrico _ _ _ Hr). reflexivity. }
    subst n xs. by destruct cs.
Qed.

Lemma analizar_todos (s : Sistema) v (escritas : list Analisis) :
  Forall (sensorVisto s) v →
  aplicarEnOrden
    (λ dispositivo (estado : list Analisis * Sistema),
       a ← analizarDispositivo dispositivo estado.2;
       Some (estado.1 ++ [a.1], a.2))
    v.*1.*1 (escritas, s)
  = Some (escritas ++ (analisisDe <$> v), s).
Proof.
  revert escritas. induction v as [|e v IH]; intros escritas Hvis; simpl.
  - by rewrite app_nil_r.
  - apply Forall_cons in Hvis as [He Hvis].
    rewrite (analizarDispositivo_visto _ _ He). simpl.
    rewrite IH by done. by rewrite <- app_assoc.
Qed.

Lemma procesarTodos_bien registro (s : Sistema) v :
  sistemaBien registro s v → procesarTodos registro s = Some (analisisDe <$> v, s).
Proof.
  intros [(_ & Hvis & _) ((cs & Hr & Hcs) & _)]. unfold procesarTodos.
  rewrite (iterar_spec _ _ _ _ _ Hr), Hcs, analizar_todos by done. reflexivity.
Qed.

(** *** Option 5 *)

Lemma eliminarDispositivo_propietarios d ds (s : Sistema) :
  propietarios (d :: ds) s →
  ∃ s', eliminarDispositivo d s = Some (tt, s')
        ∧ propietarios ds s' ∧ memRegistro s' = memRegistro s.
Proof.
  intros [[HbT HsT] [HbP HsP] Hnd Hdom Hhis Hpro HlT HlP].
  apply NoDup_cons in Hnd as [Hd Hnd].
  assert (is_Some (dispositivos s !! d)) as [obj Hobj].
  { apply elem_of_dom. rewrite Hdom. apply elem_of_list_to_set. by left. }
  assert (dom (delete d (dispositivos s)) =@{gset dir} list_to_set ds) as Hdom'.
  { rewrite dom_delete_L, Hdom. simpl. apply set_eq. intros a.
    rewrite elem_of_difference, elem_of_union, !elem_of_singleton, elem_of_list_to_set.
    split; [intros [[?|?] ?]; done | intros ?; split; [by right | by intros ->]]. }
  pose proof (Hhis d obj Hobj) as Hex.
  destruct obj as [t|p]; simpl in Hex.
  - destruct Hex as [l Hl].
    destruct (bienFormada_representa _ _ _ HbT Hl) as (cs & Hr).
    destruct (destruir_conserva _ _ _ HbT HsT Hr) as (mT & Hrun & Hlis & _ & HbT' & HsT').
    exists (mkSistema mT (memPresion s) (memRegistro s) (delete d (dispositivos s))).
    split; [|split; [|done]].
    + unfold eliminarDispositivo.
      erewrite programa_ligar; [|unfold desreferenciar; by rewrite Hobj].
      cbv beta iota.
      erewrite programa_ligar; [|unfold enTermica; by rewrite Hrun].
      unfold liberarDispositivo. simpl. by rewrite Hobj.
    + constructor; simpl; try done.
      * intros d' obj' [Hne Hd']%lookup_delete_Some.
        specialize (Hhis d' obj' Hd'). destruct obj' as [t'|p']; simpl in *; [|done].
        rewrite Hlis, lookup_delete_ne; [done|]. intros Heq.
        apply Hne. by apply (Hpro d d' (Termico t) (Termico t')).
      * intros d1 d2 o1 o2 [_ H1]%lookup_delete_Some [_ H2]%lookup_delete_Some.
        by apply Hpro.
      * intros l' Hl'. rewrite Hlis, dom_delete_L in Hl'.
        apply elem_of_difference in Hl' as [Hl' Hne].
        destruct (HlT l' Hl') as (d' & t' & Hd' & Ht'). exists d', t'.
        split; [|done]. rewrite lookup_delete_ne; [done|]. intros <-.
        rewrite Hobj in Hd'. injection Hd' as <-. apply Hne. by apply elem_of_singleton.
      * intros l' Hl'. destruct (HlP l' Hl') as (d' & p' & Hd' & Hp'). exists d', p'.
        split; [|done]. rewrite lookup_delete_ne; [done|]. intros <-. congruence.
  - destruct Hex as [l Hl].
    destruct (bienFormada_representa _ _ _ HbP Hl) as (cs & Hr).
    destruct (destruir_conserva _ _ _ HbP HsP Hr) as (mP & Hrun & Hlis & _ & HbP' & HsP').
    exists (mkSistema (memTermica s) mP (memRegistro s) (delete d (dispositivos s))).
    split; [|split; [|done]].
    + unfold eliminarDispositivo.
      erewrite programa_ligar; [|unfold desreferenciar; by rewrite Hobj].
      cbv beta iota.
      erewrite programa_ligar; [|unfold enPresion; by rewrite Hrun].
      unfold liberarDispositivo. simpl. by rewrite Hobj.
    + constructor; simpl; try done.
      * intros d' obj' [Hne Hd']%lookup_delete_Some.
        specialize (Hhis d' obj' Hd'). destruct obj' as [t'|p']; simpl in *; [done|].
        rewrite Hlis, lookup_delete_ne; [done|]. intros Heq.
        apply Hne. by apply (Hpro d d' (Barometrico p) (Barometrico p')).
      * intros d1 d2 o1 o2 [_ H1]%lookup_delete_Some [_ H2]%lookup_delete_Some.
        by apply Hpro.
      * intros l' Hl'. destruct (HlT l' Hl') as (d' & t' & Hd' & Ht'). exists d', t'.
        split; [|done]. rewrite lookup_delete_ne; [done|]. intros <-. congruence.
      * intros l' Hl'. rewrite Hlis, dom_delete_L in Hl'.
        apply elem_of_difference in Hl' as [Hl' Hne].
        destruct (HlP l' Hl') as (d' & p' & Hd' & Hp'). exists d', p'.
        split; [|done]. rewrite lookup_delete_ne; [done|]. intros <-.
        rewrite Hobj in Hd'. injection Hd' as <-. apply Hne. by apply elem_of_singleton.
Qed.

Lemma eliminar_todos ds (s : Sistema) :
  propietarios ds s →
  ∃ s', aplicarEnOrden
          (λ dispositivo s', snd <$> eliminarDispositivo dispositivo s') ds s
        = Some s'
        ∧ propietarios [] s' ∧ memRegistro s' = memRegistro s.
Proof.
  revert s. induction ds as [|d ds IH]; intros s Hp; simpl.
  - by exists s.
  - destruct (eliminarDispositivo_propietarios _ _ _ Hp) as (s1 & Hrun & Hp1 & Hm1).
    destruct (IH s1 Hp1) as (s' & Hrun' & Hp' & Hm').
    exists s'. rewrite Hrun. simpl. split; [done|]. split; [done|]. congruence.
Qed.

Lemma propietarios_nadie (s : Sistema) :
  propietarios [] s →
  memTermica s = memoriaInicial ∧ memPresion s = memoriaInicial ∧ dispositivos s = ∅.
Proof.
  intros [[HbT HsT] [HbP HsP] Hnd Hdom Hhis Hpro HlT HlP].
  assert (dispositivos s = ∅) as Hvacio by (by apply dom_empty_iff_L).
  split; [|split; [|done]].
  - assert (listas (memTermica s) = ∅) as Hl.
    { apply dom_empty_iff_L, set_eq. intros l. split; [|by intros ?%elem_of_empty].
      intros (d & t & Hd & _)%HlT. by rewrite Hvacio, lookup_empty in Hd. }
    apply memoria_vacia; [by apply sin_listas_sin_nodos | done].
  - assert (listas (memPresion s) = ∅) as Hl.
    { apply dom_empty_iff_L, set_eq. intros l. split; [|by intros ?%elem_of_empty].
      intros (d & p & Hd & _)%HlP. by rewrite Hvacio, lookup_empty in Hd. }
    apply memoria_vacia; [by apply sin_listas_sin_nodos | done].
Qed.

Lemma finalizar_bien registro (s : Sistema) v :
  sistemaBien registro s v → finalizar registro s = Some (tt, sistemaInicial).
Proof.
  intros [(Hp & _) ((cs & Hr & Hcs) & Hbf & Hsf & Hdom)]. unfold finalizar.
  rewrite (iterar_spec _ _ _ _ _ Hr), Hcs.
  destruct (eliminar_todos _ _ Hp) as (s1 & -> & Hp1 & Hm1). simpl.
  destruct (propietarios_nadie _ Hp1) as (HT & HP & Hobj).
  destruct (destruir_conserva _ _ _ Hbf Hsf Hr) as (mR & Hrun & Hlis & _ & _ & Hsf').
  unfold enRegistro. rewrite Hm1, Hrun. simpl.
  assert (listas mR = ∅) as Hl.
  { apply dom_empty_iff_L. rewrite Hlis, dom_delete_L, Hdom. apply difference_diag_L. }
  rewrite HT, HP, Hobj, (memoria_vacia mR); [done| |done].
  by apply sin_listas_sin_nodos.
Qed.

(** ** The runs of the program *)

Lemma procesarBuffer_bien ef ei registro (s : Sistema) v buffer c :
  sistemaBien registro s v →
  ∃ salida s' v',
    procesarBuffer ef ei registro buffer c s
    = Some ((salida, if lineaCompletaDeDatos ef ei buffer then envolver (c + 1) else c),
            s')
    ∧ sistemaBien registro s' v'.
Proof.
  intros Hbien. unfold lineaCompletaDeDatos.
  destruct (linea_descartada_bien ef ei registro s v buffer c Hbien)
    as (Hruido & Hformato & Hvalor).
  destruct (esRuido buffer) eqn:Hr.
  { eexists [], s, v. split; [by apply Hruido | done]. }
  destruct (analizar buffer) as [[[tipo id] resto]|] eqn:Ha; cycle 1.
  { eexists _, s, v. split; [by apply Hformato | done]. }
  destruct (medicionLeida ef ei tipo resto) as [x|] eqn:Hm; cycle 1.
  { destruct (Hvalor tipo id resto eq_refl eq_refl Hm) as (aviso & Hrun & _).
    eexists _, s, v. split; [|done].
    by rewrite Hrun. }
  assert (bool_decide (is_Some (Some x)) = true) as -> by (by apply bool_decide_true).
  cbn [negb andb].
  destruct (decide (id ∈ v.*1.*2)) as [Hin|Hno].
  - destruct (ultimo_con_nombre v id Hin) as (antes & d & h & despues & -> & Hno).
    destruct (linea_anexa_bien ef ei _ _ _ _ _ _ _ _ c _ _ _ Hbien Hr Ha Hm Hno)
      as (s' & salida & Hrun & _ & Hb & _).
    by eexists salida, s', _.
  - destruct (linea_alta_bien ef ei _ _ _ _ c _ _ _ _ Hbien Hr Ha Hm Hno)
      as (s' & d & salida & Hrun & _ & _ & Hb).
    by eexists salida, s', _.
Qed.

Lemma obedecer_bien registro orden (s : Sistema) v :
  sistemaBien registro s v →
  ∃ s' v', obedecer registro orden s = Some (tt, s') ∧ sistemaBien registro s' v'.
Proof.
  intros Hbien.
  destruct orden as [codigo|codigo|codigo datoDecimal datoEntero| |ef ei buffer c];
    simpl.
  - destruct (registrarTermico_bien registro s v codigo Hbien) as (s' & d & Hrun & _ & Hb).
    by eexists s', _.
  - destruct (registrarPresion_bien registro s v codigo Hbien) as (s' & d & Hrun & _ & Hb).
    by eexists s', _.
  - destruct (decide (codigo ∈ v.*1.*2)) as [Hin|Hno].
    + destruct (ultimo_con_nombre v codigo Hin) as (antes & d & h & despues & -> & Hno).
      destruct (medicion_anexa _ _ _ _ _ _ _ datoDecimal datoEntero Hbien Hno)
        as (s' & dato & Hrun & _ & Hb).
      eexists s', _. split; [|exact Hb].
      erewrite programa_ligar; [|exact Hrun]. reflexivity.
    + eexists s, v. split; [|done].
      erewrite programa_ligar; [|by eapply medicion_ausente]. reflexivity.
  - eexists s, v. split; [|done].
    erewrite programa_ligar; [|by eapply procesarTodos_bien]. reflexivity.
  - destruct (procesarBuffer_bien ef ei registro s v buffer c Hbien)
      as (salida & s' & v' & Hrun & Hb).
    eexists s', v'. split; [|done].
    erewrite programa_ligar; [|exact Hrun]. reflexivity.
Qed.

Lemma sistemaAlcanzable_bien registro (s : Sistema) :
  sistemaAlcanzable registro s → ∃ v, sistemaBien registro s v.
Proof.
  induction 1 as [s Hcrea|orden s s' _ [v Hbien] Hrun].
  - exists []. by apply sistemaBien_creado.
  - destruct (obedecer_bien registro orden s v Hbien) as (s'' & v' & Hrun' & Hb').
    rewrite Hrun in Hrun'. injection Hrun' as <-. by exists v'.
Qed.

Lemma alcanzable_vista registro (s : Sistema) v :
  sistemaAlcanzable registro s → vista registro s v → sistemaBien registro s v.
Proof.
  intros [v' Hbien]%sistemaAlcanzable_bien Hv.
  by rewrite (vista_unica _ _ _ _ Hv (sistemaBien_vista _ _ _ Hbien)).
Qed.

Lemma nombre_no_almacenable (v : list (dir * string * Historial)) (id : string) :
  Forall (λ e, copiarNombre e.1.2 = e.1.2) v → copiarNombre id ≠ id → id ∉ v.*1.*2.
Proof.
  intros Hnom Hid Hin.
  apply list_elem_of_fmap in Hin as (e1 & -> & He1).
  apply list_elem_of_fmap in He1 as (e & -> & He).
  rewrite Forall_forall in Hnom. by apply Hid, Hnom.
Qed.

(** X15.  The rounds of the capture loop that end in [continue]: on a line
    of the banner of the device, on a line without two tokens, and on a line
    whose tag is none of [T], [t], [P], [p] or whose value does not read as
    a number of the kind of the tag.  In every state that the program can
    reach such a round leaves the memory as it was and the counter of
    captured readings as it was; it writes nothing for a banner line, and
    for the others the echo of the line and one warning. *)
Theorem linea_descartada ef ei registro (s : Sistema) buffer c :
  sistemaAlcanzable registro s →
  (esRuido buffer = true →
   procesarBuffer ef ei registro buffer c s = Some (([], c), s))
  ∧ (esRuido buffer = false → analizar buffer = None →
     procesarBuffer ef ei registro buffer c s
     = Some (([MsgRecibido buffer; WarnFormatoIncorrecto], c), s))
  ∧ (∀ tipo id resto,
       esRuido buffer = false → analizar buffer = Some (tipo, id, resto) →
       medicionLeida ef ei tipo resto = None →
       ∃ aviso, procesarBuffer ef ei registro buffer c s
                = Some (([MsgRecibido buffer; aviso], c), s)
                ∧ esAdvertencia aviso = true).
Proof.
  intros [v Hbien]%sistemaAlcanzable_bien.
  by apply (linea_descartada_bien ef ei registro s v).
Qed.

(** X16.  A line with a tag, an identifier that no registered sensor
    stores as its name, and a value that reads as a number of the kind of
    the tag: the round creates a sensor of that kind, at an address not in
    use, whose name is the identifier as the constructor stores it and whose
    history is that one reading, and appends it to the registry behind the
    sensors that were there, which are as they were; the counter goes up by
    one and the last line written is the count. *)
Theorem linea_registra_sensor ef ei registro (s : Sistema) v buffer c tipo id resto x :
  sistemaAlcanzable registro s → vista registro s v →
  esRuido buffer = false → analizar buffer = Some (tipo, id, resto) →
  medicionLeida ef ei tipo resto = Some x → id ∉ v.*1.*2 →
  ∃ s' d salida,
    procesarBuffer ef ei registro buffer c s = Some ((salida, envolver (c + 1)), s')
    ∧ last salida = Some (MsgTotalCapturadas (envolver (c + 1)))
    ∧ (d ∉ v.*1.*1)
    ∧ vista registro s' (v ++ [(d, copiarNombre id, historialNuevo x)]).
Proof.
  intros Halc Hv Hr Ha Hm Hno.
  destruct (linea_alta_bien ef ei registro s v buffer c tipo id resto x
              (alcanzable_vista _ _ _ Halc Hv) Hr Ha Hm Hno)
    as (s' & d & salida & Hrun & Hult & Hd & Hb).
  exists s', d, salida. split; [done|]. split; [done|]. split; [done|].
  by apply sistemaBien_vista.
Qed.


(** X18.  Options 1 and 2 do not search the registry: they create a sensor
    with an empty history and append it, whether or not a sensor with that
    name is registered.  A search for the code then gives the new sensor, so
    that sensors registered before under that name are no longer found; it
    gives the null pointer when the code is not the name that was stored
    (more than 49 characters). *)
Theorem registrar_siempre_agrega registro (s : Sistema) v codigo :
  sistemaAlcanzable registro s → vista registro s v →
  (∃ s' d, registrarTermico registro codigo s = Some (tt, s')
           ∧ (d ∉ v.*1.*1)
           ∧ vista registro s' (v ++ [(d, copiarNombre codigo, HistorialTermico [])])
           ∧ localizar registro codigo s'
             = Some (if decide (copiarNombre codigo = codigo) then Some d else None, s'))
  ∧ (∃ s' d, registrarPresion registro codigo s = Some (tt, s')
             ∧ (d ∉ v.*1.*1)
             ∧ vista registro s' (v ++ [(d, copiarNombre codigo, HistorialPresion [])])
             ∧ localizar registro codigo s'
               = Some (if decide (copiarNombre codigo = codigo) then Some d else None,
                       s')).
Proof.
  intros Halc Hv. pose proof (alcanzable_vista _ _ _ Halc Hv) as Hbien. split.
  - destruct (registrarTermico_bien registro s v codigo Hbien) as (s' & d & Hrun & Hd & Hb).
    exists s', d. split; [done|]. split; [done|].
    split; [by apply sistemaBien_vista|].
    destruct (decide (copiarNombre codigo = codigo)) as [Heq|Hne].
    + rewrite Heq in Hb. eapply localizar_presente; [exact Hb|]. apply not_elem_of_nil.
    + eapply localizar_ausente; [exact Hb|].
      apply nombre_no_almacenable; [|done]. by destruct Hb as [(_ & _ & ?) _].
  - destruct (registrarPresion_bien registro s v codigo Hbien) as (s' & d & Hrun & Hd & Hb).
    exists s', d. split; [done|]. split; [done|].
    split; [by apply sistemaBien_vista|].
    destruct (decide (copiarNombre codigo = codigo)) as [Heq|Hne].
    + rewrite Heq in Hb. eapply localizar_presente; [exact Hb|]. apply not_elem_of_nil.
    + eapply localizar_ausente; [exact Hb|].
      apply nombre_no_almacenable; [|done]. by destruct Hb as [(_ & _ & ?) _].
Qed.



(** X21.  Option 4 writes, for every registered sensor and in the order of
    registration, its name, its kind and the line of its [procesarLectura]
    (the notice of an empty history, the running minimum from 999999.0, or
    the quotient of the [int] sum by the [int] count), and leaves the memory
    as it was. *)
Theorem procesar_todos_en_orden registro (s : Sistema) v :
  sistemaAlcanzable registro s → vista registro s v →
  procesarTodos registro s = Some (analisisDe <$> v, s).
Proof.
  intros Halc Hv. by apply procesarTodos_bien, alcanzable_vista.
Qed.

(** X22.  Option 5, in every state that the program can reach: the
    traversal deletes every sensor, each once, with its history list and the
    nodes of it, and [delete registro] deletes the nodes of the registry and
    the registry; no pointer that is followed is dangling, and afterwards no
    node, no list object and no sensor object is left. *)
Theorem finalizar_libera_todo registro (s : Sistema) :
  sistemaAlcanzable registro s →
  finalizar registro s = Some (tt, sistemaInicial).
Proof.
  intros [v Hbien]%sistemaAlcanzable_bien. by eapply finalizar_bien.
Qed.

(** X23.  In every state that the program can reach, the registry holds a
    pointer to every sensor object, once each, every sensor has a history
    list of its own, and every step of the program (options 1 to 4, and a
    round of the capture loop on any line, whatever the extraction of the
    number gives) returns: no null or dangling pointer is followed and every
    traversal ends. *)
Theorem programa_con_resultado registro (s : Sistema) :
  sistemaAlcanzable registro s →
  (∃ v, vista registro s v
        ∧ NoDup v.*1.*1
        ∧ dom (dispositivos s) =@{gset dir} list_to_set v.*1.*1
        ∧ (∀ d1 d2 o1 o2,
             dispositivos s !! d1 = Some o1 → dispositivos s !! d2 = Some o2 →
             mismaClase o1 o2 → historialDe o1 = historialDe o2 → d1 = d2))
  ∧ (∀ orden, ∃ s', obedecer registro orden s = Some (tt, s')
                    ∧ sistemaAlcanzable registro s').
Proof.
  intros Halc. destruct (sistemaAlcanzable_bien _ _ Halc) as [v Hbien]. split.
  - exists v. split; [by apply sistemaBien_vista|].
    by destruct Hbien as [([_ _ ? ? _ ? _ _] & _) _].
  - intros orden. destruct (obedecer_bien registro orden s v Hbien) as (s' & v' & Hrun & _).
    exists s'. split; [done|]. by eapply sistema_paso.
Qed.

Lemma envolver_en_rango z : enRango (envolver z).
Proof.
  unfold enRango, envolver, INT_MIN, INT_MAX.
  pose proof (Z.mod_pos_bound (z + 2 ^ 31) (2 ^ 32)). lia.
Qed.

(** X24.  The capture loop over any sequence of lines, from any state that
    the program can reach: every round returns, and the counter of captured
    readings ends as its initial value plus the number of lines that are
    not of the banner and carry two tokens, a known tag and a value that
    reads as a number of the kind of the tag (as an [int]), whether or not
    a reading was stored for the line. *)
Theorem captura_cuenta_lineas_de_datos ef ei registro lineas (s : Sistema) c :
  sistemaAlcanzable registro s → enRango c →
  ∃ salida s',
    capturarLineas ef ei registro lineas c s
    = Some ((salida,
             envolver (c + Z.of_nat (length (filter
                         (λ buffer, lineaCompletaDeDatos ef ei buffer = true) lineas)))),
            s')
    ∧ sistemaAlcanzable registro s'.
Proof.
  revert s c. induction lineas as [|buffer lineas IH]; intros s c Halc Hc.
  - exists [], s. simpl. rewrite Z.add_0_r, envolver_enRango by done. by split.
  - destruct (sistemaAlcanzable_bien _ _ Halc) as [v Hbien].
    destruct (procesarBuffer_bien ef ei registro s v buffer c Hbien)
      as (salida1 & s1 & v1 & Hrun1 & _).
    assert (sistemaAlcanzable registro s1) as Halc1.
    { apply (sistema_paso registro (OrdenLinea ef ei buffer c) s); [done|].
      simpl. erewrite programa_ligar; [|exact Hrun1]. reflexivity. }
    rewrite filter_cons.
    destruct (lineaCompletaDeDatos ef ei buffer) eqn:Hlinea.
    + destruct (IH s1 (envolver (c + 1)) Halc1 (envolver_en_rango _))
        as (salida2 & s2 & Hrun2 & Halc2).
      exists (salida1 ++ salida2), s2. split; [|done].
      simpl. erewrite programa_ligar; [|exact Hrun1].
      erewrite programa_ligar; [|exact Hrun2].
      rewrite envolver_suma, <- Z.add_assoc, Z.add_1_l, <- Nat2Z.inj_succ.
      reflexivity.
    + destruct (IH s1 c Halc1 Hc) as (salida2 & s2 & Hrun2 & Halc2).
      exists (salida1 ++ salida2), s2. split; [|done].
      simpl. erewrite programa_ligar; [|exact Hrun1].
      erewrite programa_ligar; [|exact Hrun2]. reflexivity.
Qed.

(** ** The filter of the capture loop and the tokens of a line *)

Lemma saltarEspacios_sufijo s : ∃ a, s = (a +:+ saltarEspacios s).
Proof.
  induction s as [|c s [a IH]]; simpl.
  - by exists EmptyString.
  - destruct (esEspacio c).
    + exists (String c a). by rewrite append_cons, <- IH.
    + by exists EmptyString.
Qed.

Lemma hastaEspacio_partes s : s = ((hastaEspacio s).1 +:+ (hastaEspacio s).2).
Proof.
  induction s as [|c s IH]; simpl; [done|].
  destruct (esEspacio c); [done|].
  destruct (hastaEspacio s) as [w r]. simpl in *. by rewrite append_cons, <- IH.
Qed.

Lemma extraerChar_partes s c r :
  extraerChar s = Some (c, r) → ∃ a, s = (a +:+ String c r).
Proof.
  unfold extraerChar. destruct (saltarEspacios_sufijo s) as [a Ha].
  destruct (saltarEspacios s) as [|c' r']; [done|]. intros [= <- <-]. by exists a.
Qed.

Lemma extraerPalabra_partes s w r :
  extraerPalabra s = Some (w, r) → ∃ a, s = (a +:+ (w +:+ r)).
Proof.
  unfold extraerPalabra. destruct (saltarEspacios_sufijo s) as [a Ha].
  destruct (saltarEspacios s) as [|c2 r2]; [done|]. intros Hh.
  pose proof (hastaEspacio_partes (String c2 r2)) as H3.
  replace (hastaEspacio (String c2 r2)) with (w, r) in H3 by congruence.
  exists a. cbn [fst snd] in H3. by rewrite <- H3.
Qed.

Lemma analizar_partes buffer tipoDispositivo id resto :
  analizar buffer = Some (tipoDispositivo, id, resto) →
  ∃ a, buffer = (a +:+ (id +:+ resto)).
Proof.
  unfold analizar. intros H.
  destruct (extraerChar buffer) as [[c r1]|] eqn:H1; simpl in H; [|done].
  destruct (extraerPalabra r1) as [[w r]|] eqn:H2; simpl in H; [|done].
  injection H as <- <- <-.
  apply extraerChar_partes in H1 as [a1 ->].
  apply extraerPalabra_partes in H2 as [a2 ->].
  exists (a1 +:+ String c a2). by rewrite append_asociativa, append_cons.
Qed.

Lemma esPrefijo_append p b c : esPrefijo p b = true → esPrefijo p (b +:+ c) = true.
Proof.
  revert b. induction p as [|x p IH]; intros [|y b]; simpl; try done.
  intros [-> Hp]%andb_true_iff. by rewrite IH.
Qed.

Lemma contiene_append_r p b c : contiene p b = true → contiene p (b +:+ c) = true.
Proof.
  induction b as [|y b IH].
  - simpl. rewrite orb_false_r. intros Hp.
    destruct p; [|done]. by destruct c.
  - rewrite append_cons.
    change (contiene p (String y b)) with (esPrefijo p (String y b) || contiene p b).
    change (contiene p (String y (b +:+ c)))
      with (esPrefijo p (String y (b +:+ c)) || contiene p (b +:+ c)).
    intros [Hp|Hc]%orb_true_iff.
    + rewrite <- append_cons, esPrefijo_append; done.
    + rewrite IH by done. apply orb_true_r.
Qed.

Lemma contiene_append_l p a b : contiene p b = true → contiene p (a +:+ b) = true.
Proof.
  intros Hb. induction a as [|x a IH]; [done|].
  rewrite append_cons.
  change (contiene p (String x (a +:+ b)))
    with (esPrefijo p (String x (a +:+ b)) || contiene p (a +:+ b)).
  rewrite IH. apply orb_true_r.
Qed.

Lemma contiene_identificador p buffer tipoDispositivo id resto :
  analizar buffer = Some (tipoDispositivo, id, resto) →
  contiene p id = true → contiene p buffer = true.
Proof.
  intros [a ->]%analizar_partes Hid.
  by apply contiene_append_l, contiene_append_r.
Qed.

(** X26.  The filter for the banner of the device looks at the whole line:
    a line of data whose identifier contains [===], [Arduino] or [Formato]
    is dropped as a banner line, whatever its tag and value and whatever the
    state of the program: nothing is written, no sensor is created or
    updated and the counter stays.  A sensor registered under such a name
    through the menu gets no reading from the capture loop. *)
Theorem identificador_con_palabra_del_banner ef ei registro (s : Sistema) buffer c
    tipoDispositivo id resto :
  analizar buffer = Some (tipoDispositivo, id, resto) →
  contiene "===" id = true ∨ contiene "Arduino" id = true
  ∨ contiene "Formato" id = true →
  esRuido buffer = true
  ∧ procesarBuffer ef ei registro buffer c s = Some (([], c), s).
Proof.
  intros Ha Hid.
  assert (esRuido buffer = true) as Hruido.
  { unfold esRuido. destruct Hid as [Hid|[Hid|Hid]];
      rewrite (contiene_identificador _ _ _ _ _ Ha Hid);
      rewrite ?orb_true_r; done. }
  split; [done|]. unfold procesarBuffer. by rewrite Hruido.
Qed.

(** ** The further properties at concrete inputs *)


(** The two lists of the example memory. *)
Lemma listas_sin_nodos_compartidos_witness :
  ∃ cs1 cs2, cadena (nodos memoriaEjemplo) (Some 1%positive) cs1
             ∧ cadena (nodos memoriaEjemplo) (Some 4%positive) cs2
             ∧ cs1.*1 ## cs2.*1
             ∧ NoDup cs1.*1 ∧ NoDup cs2.*1.
Proof.
  exact (listas_sin_nodos_compartidos memoriaEjemplo 1%positive 2%positive
           (mkLista (Some 1%positive) 3) (mkLista (Some 4%positive) 1)
           memoriaEjemplo_alcanzable ltac:(done) eq_refl eq_refl).
Defined.

(** The assignment of the list 5, 2, 9 to the list that holds 7. *)
Lemma operaciones_con_resultado_witness :
  ∃ m', ejecutar (OpAsignar 2%positive 1%positive) memoriaEjemplo = Some (tt, m')
        ∧ alcanzable m'.
Proof.
  apply (operaciones_con_resultado memoriaEjemplo (OpAsignar 2%positive 1%positive)
           memoriaEjemplo_alcanzable).
  intros this Hthis. simpl in Hthis.
  apply elem_of_cons in Hthis as [->|Hthis]; [by eexists|].
  apply list_elem_of_singleton in Hthis as ->. by eexists.
Defined.

(** [vaciar] on the list 5, 2, 9. *)
Lemma vaciar_libera_sus_nodos_witness :
  ∃ m', vaciar 1%positive memoriaEjemplo = Some (tt, m')
        ∧ dom (nodos m')
          = dom (nodos memoriaEjemplo)
            ∖ list_to_set [(1%positive, 5); (2%positive, 2); (3%positive, 9)].*1
        ∧ (∀ a, a ∉ [(1%positive, 5); (2%positive, 2); (3%positive, 9)].*1 →
                nodos m' !! a = nodos memoriaEjemplo !! a)
        ∧ (∀ j, j ≠ 1%positive → listas m' !! j = listas memoriaEjemplo !! j)
        ∧ listas m' !! 1%positive = Some (mkLista None 0).
Proof.
  exact (vaciar_libera_sus_nodos memoriaEjemplo 1%positive _ memoriaEjemplo_lista1).
Defined.

(** The destructor on the list 5, 2, 9. *)
Lemma destruir_libera_todo_witness :
  ∃ m', destruir 1%positive memoriaEjemplo = Some (tt, m')
        ∧ listas m' = delete 1%positive (listas memoriaEjemplo)
        ∧ dom (nodos m')
          = dom (nodos memoriaEjemplo)
            ∖ list_to_set [(1%positive, 5); (2%positive, 2); (3%positive, 9)].*1
        ∧ (∀ j csj, j ≠ 1%positive → representa memoriaEjemplo j csj →
                    representa m' j csj)
        ∧ bienFormada m'.
Proof.
  exact (destruir_libera_todo memoriaEjemplo 1%positive _
           (alcanzable_bienFormada _ memoriaEjemplo_alcanzable)
           memoriaEjemplo_lista1).
Defined.

(** An append of 4 to the list 5, 2, 9. *)
Lemma insertarAlFinal_solo_su_lista_witness :
  ∃ m' nuevo, insertarAlFinal 1%positive 4 memoriaEjemplo = Some (tt, m')
              ∧ (nuevo ∉ dom (nodos memoriaEjemplo))
              ∧ representa m' 1%positive
                  ([(1%positive, 5); (2%positive, 2); (3%positive, 9)] ++ [(nuevo, 4)])
              ∧ (∀ j csj, j ≠ 1%positive → representa memoriaEjemplo j csj →
                          representa m' j csj)
              ∧ bienFormada m'.
Proof.
  exact (insertarAlFinal_solo_su_lista memoriaEjemplo 1%positive _ 4
           (alcanzable_bienFormada _ memoriaEjemplo_alcanzable)
           memoriaEjemplo_lista1).
Defined.

(** The list 5, 2, 9 is not empty in any of the three views. *)
Lemma vacia_cabeza_y_contador_witness :
  ∃ cs, cadena (nodos memoriaEjemplo) (Some 1%positive) cs
        ∧ estaVacia 1%positive memoriaEjemplo
          = Some (bool_decide (cs = []), memoriaEjemplo)
        ∧ getCabeza 1%positive memoriaEjemplo = Some (fst <$> head cs, memoriaEjemplo)
        ∧ getTamanio 1%positive memoriaEjemplo
          = Some (envolver (Z.of_nat (length cs)), memoriaEjemplo)
        ∧ (Z.of_nat (length cs) ≤ INT_MAX →
             (envolver (Z.of_nat (length cs)) = 0 ↔ cs = [])).
Proof.
  exact (vacia_cabeza_y_contador memoriaEjemplo 1%positive
           (mkLista (Some 1%positive) 3) memoriaEjemplo_alcanzable eq_refl).
Defined.

(** Node 4 of the example memory is a cell of a list. *)
Lemma nodos_sin_fugas_witness :
  ∃ this l cs, listas memoriaEjemplo !! this = Some l
               ∧ cadena (nodos memoriaEjemplo) (primero l) cs
               ∧ 4%positive ∈ cs.*1.
Proof.
  apply (nodos_sin_fugas memoriaEjemplo 4%positive memoriaEjemplo_alcanzable).
  by vm_compute.
Defined.

(** Two lines sent with a carriage return and a newline each, on a port
    opened on descriptor 3, with a poll that finds nothing in between. *)
Lemma lineas_recibidas_en_orden_witness :
  lineasRecibidas (SerialPort.mk 3 true) EmptyString
    (SerialPort.LecturaByte "T" :: SerialPort.LecturaByte "1"
     :: SerialPort.LecturaByte "013" :: SerialPort.LecturaVacia
     :: SerialPort.LecturaByte "010" :: SerialPort.LecturaByte "P"
     :: SerialPort.LecturaByte "013" :: SerialPort.LecturaByte "010" :: [])
  = ["T1"; "P"]%string.
Proof.
  apply (lineas_recibidas_en_orden (SerialPort.mk 3 true) EmptyString _
           [("T1"%string, ["013"; "010"]%char); ("P"%string, ["013"; "010"]%char)]).
  - split; [reflexivity | simpl; lia].
  - unfold SerialPort.sinError.
    intros H. by repeat (apply elem_of_cons in H as [?|H]; [done|]);
                apply not_elem_of_nil in H.
  - repeat constructor; done.
  - reflexivity.
Defined.

(** A port opened on descriptor 3, and [open] failing with -1. *)
Lemma abrir_fallido_sobre_abierto_witness :
  let this' := (SerialPort.abrir (SerialPort.mk 3 true) (-1)).1 in
  (SerialPort.abrir (SerialPort.mk 3 true) (-1)).2 = false
  ∧ SerialPort.estaAbierto this' = true
  ∧ SerialPort.descriptorArchivo this' ≠ 3
  ∧ SerialPort.cerrar this' = this'
  ∧ ∀ secuencia entrada,
      SerialPort.leerLinea this' secuencia entrada
      = (this', SerialPort.Fallo secuencia entrada).
Proof.
  apply (abrir_fallido_sobre_abierto (SerialPort.mk 3 true) (-1)).
  - split; [reflexivity | simpl; lia].
  - lia.
Defined.

(** The thermal sensor with the readings 5.0, 2.0 and 9.0. *)
Lemma minimo_termico_caracterizado_witness :
  ∃ v, SensorTemperatura.procesarLectura (SensorTemperatura.mk "TEMP-1" 1%positive)
         memoriaTermicaTres
       = Some (MsgValorMinimo v, memoriaTermicaTres)
       ∧ (v = centinela ∨ v ∈ [floatDeEntero 5; floatDeEntero 2; floatDeEntero 9])
       ∧ (∀ x, x ∈ [floatDeEntero 5; floatDeEntero 2; floatDeEntero 9] →
               SFltb x v = false)
       ∧ SFltb centinela v = false
       ∧ v ≠ S754_nan
       ∧ ((∃ x, x ∈ [floatDeEntero 5; floatDeEntero 2; floatDeEntero 9]
                ∧ SFltb x centinela = true) →
          v ∈ [floatDeEntero 5; floatDeEntero 2; floatDeEntero 9]).
Proof.
  apply (minimo_termico_caracterizado memoriaTermicaTres
           (SensorTemperatura.mk "TEMP-1" 1%positive)
           [(1%positive, floatDeEntero 5); (2%positive, floatDeEntero 2);
            (3%positive, floatDeEntero 9)]).
  - representa_concreta.
  - discriminate.
Defined.

(** The barometric sensor with the readings 100, 200 and 300, which lie
    between -300 and 300. *)
Lemma media_exacta_con_lecturas_acotadas_witness :
  SensorPresion.procesarLectura (SensorPresion.mk "PRES-1" 1%positive)
    memoriaPresionTres
  = Some (MsgMediaAritmetica (dividirDouble (doubleDeInt 600) (doubleDeInt 3)),
          memoriaPresionTres).
Proof.
  apply (media_exacta_con_lecturas_acotadas memoriaPresionTres
           (SensorPresion.mk "PRES-1" 1%positive)
           [(1%positive, 100); (2%positive, 200); (3%positive, 300)] 300).
  - representa_concreta.
  - discriminate.
  - lia.
  - intros x Hx. simpl in Hx.
    repeat (apply elem_of_cons in Hx as [->|Hx]; [lia|]).
    by apply not_elem_of_nil in Hx.
  - unfold INT_MAX. simpl. lia.
Defined.

(** The program after option 1 with the code TEMP-1. *)
Lemma sistemaConTermico_alcanzable : sistemaAlcanzable 1%positive sistemaConTermico.
Proof.
  eapply (sistema_paso 1%positive (OrdenTermico "TEMP-1")).
  - apply sistema_creado. reflexivity.
  - by vm_compute.
Qed.

Lemma sistemaConTermico_vista :
  vista 1%positive sistemaConTermico
    [(1%positive, "TEMP-1"%string, HistorialTermico [])].
Proof.
  split.
  - exists [(1%positive, 1%positive)]. split; [representa_concreta | done].
  - apply Forall_singleton. exists (SensorTemperatura.mk "TEMP-1" 1%positive), [].
    split; [reflexivity|]. split; [done|]. split; [representa_concreta | done].
Qed.

(** A line with the tag X, read when TEMP-1 is registered. *)
Lemma linea_descartada_witness :
  ∃ aviso,
    procesarBuffer (λ _, None) extraerIntDecimal 1%positive "X TEMP-1 5" 0
      sistemaConTermico
    = Some (([MsgRecibido "X TEMP-1 5"; aviso], 0), sistemaConTermico)
    ∧ esAdvertencia aviso = true.
Proof.
  destruct (linea_descartada (λ _, None) extraerIntDecimal 1%positive
              sistemaConTermico "X TEMP-1 5" 0 sistemaConTermico_alcanzable)
    as (_ & _ & Hvalor).
  apply (Hvalor "X"%char "TEMP-1"%string " 5"%string); reflexivity.
Defined.

(** The line [T TEMP-2 21], read when only TEMP-1 is registered. *)
Lemma linea_registra_sensor_witness :
  ∃ s' d salida,
    procesarBuffer (λ _, Some (floatDeEntero 21)) extraerIntDecimal 1%positive
      "T TEMP-2 21" 0 sistemaConTermico
    = Some ((salida, envolver (0 + 1)), s')
    ∧ last salida = Some (MsgTotalCapturadas (envolver (0 + 1)))
    ∧ (d ∉ [(1%positive, "TEMP-1"%string, HistorialTermico [])].*1.*1)
    ∧ vista 1%positive s'
        ([(1%positive, "TEMP-1"%string, HistorialTermico [])]
         ++ [(d, copiarNombre "TEMP-2", HistorialTermico [floatDeEntero 21])]).
Proof.
  apply (linea_registra_sensor (λ _, Some (floatDeEntero 21)) extraerIntDecimal
           1%positive sistemaConTermico _ "T TEMP-2 21" 0 "T"%char "TEMP-2"%string
           " 21"%string (MedidaTermica (floatDeEntero 21))
           sistemaConTermico_alcanzable sistemaConTermico_vista);
    [reflexivity..|].
  intros Hin. simpl in Hin. by apply list_elem_of_singleton in Hin.
Defined.


(** Options 1 and 2 with the code TEMP-1, which is registered. *)
Lemma registrar_siempre_agrega_witness :
  (∃ s' d, registrarTermico 1%positive "TEMP-1" sistemaConTermico = Some (tt, s')
           ∧ (d ∉ [(1%positive, "TEMP-1"%string, HistorialTermico [])].*1.*1)
           ∧ vista 1%positive s'
               ([(1%positive, "TEMP-1"%string, HistorialTermico [])]
                ++ [(d, copiarNombre "TEMP-1", HistorialTermico [])])
           ∧ localizar 1%positive "TEMP-1" s'
             = Some (if decide (copiarNombre "TEMP-1" = "TEMP-1"%string)
                     then Some d else None, s'))
  ∧ (∃ s' d, registrarPresion 1%positive "TEMP-1" sistemaConTermico = Some (tt, s')
             ∧ (d ∉ [(1%positive, "TEMP-1"%string, HistorialTermico [])].*1.*1)
             ∧ vista 1%positive s'
                 ([(1%positive, "TEMP-1"%string, HistorialTermico [])]
                  ++ [(d, copiarNombre "TEMP-1", HistorialPresion [])])
             ∧ localizar 1%positive "TEMP-1" s'
               = Some (if decide (copiarNombre "TEMP-1" = "TEMP-1"%string)
                       then Some d else None, s')).
Proof.
  exact (registrar_siempre_agrega 1%positive sistemaConTermico _ "TEMP-1"
           sistemaConTermico_alcanzable sistemaConTermico_vista).
Defined.



(** Option 4 when TEMP-1 is registered with an empty history. *)
Lemma procesar_todos_en_orden_witness :
  procesarTodos 1%positive sistemaConTermico
  = Some ([mkAnalisis "TEMP-1" true MsgTermicoVacio], sistemaConTermico).
Proof.
  exact (procesar_todos_en_orden 1%positive sistemaConTermico _
           sistemaConTermico_alcanzable sistemaConTermico_vista).
Defined.

(** Option 5 when TEMP-1 is registered. *)
Lemma finalizar_libera_todo_witness :
  finalizar 1%positive sistemaConTermico = Some (tt, sistemaInicial).
Proof.
  exact (finalizar_libera_todo 1%positive sistemaConTermico
           sistemaConTermico_alcanzable).
Defined.

(** A round of the capture loop on the line [P PRES-9 101325] when TEMP-1
    is registered. *)
Lemma programa_con_resultado_witness :
  ∃ s', obedecer 1%positive
          (OrdenLinea (λ _, None) extraerIntDecimal "P PRES-9 101325" 0)
          sistemaConTermico
        = Some (tt, s')
        ∧ sistemaAlcanzable 1%positive s'.
Proof.
  exact (proj2 (programa_con_resultado 1%positive sistemaConTermico
                  sistemaConTermico_alcanzable)
           (OrdenLinea (λ _, None) extraerIntDecimal "P PRES-9 101325" 0)).
Defined.

(** Four lines, read when TEMP-1 is registered: one of the banner, a
    reading for TEMP-1, one with an unknown tag, and one that addresses
    TEMP-1 as a barometric sensor. *)
Lemma captura_cuenta_lineas_de_datos_witness :
  ∃ salida s',
    capturarLineas (λ _, Some (floatDeEntero 21)) extraerIntDecimal 1%positive
      ["=== Arduino ==="; "T TEMP-1 21"; "X TEMP-1 1"; "P TEMP-1 5"]%string 0
      sistemaConTermico
    = Some ((salida, envolver (0 + 2)), s')
    ∧ sistemaAlcanzable 1%positive s'.
Proof.
  apply (captura_cuenta_lineas_de_datos (λ _, Some (floatDeEntero 21)) extraerIntDecimal
           1%positive ["=== Arduino ==="; "T TEMP-1 21"; "X TEMP-1 1"; "P TEMP-1 5"]%string
           sistemaConTermico 0 sistemaConTermico_alcanzable).
  unfold enRango, INT_MIN, INT_MAX. lia.
Defined.

(** The line [A], then [T1] cut by a read error, then [2] and a newline:
    the loop gets [A] and [2]. *)
Lemma error_de_lectura_pierde_la_linea_witness :
  lineasRecibidas (SerialPort.mk 3 true) EmptyString
    ([SerialPort.LecturaByte "A"; SerialPort.LecturaByte "010";
      SerialPort.LecturaByte "T"; SerialPort.LecturaByte "1"]
     ++ SerialPort.LecturaError
     :: [SerialPort.LecturaByte "2"; SerialPort.LecturaByte "010"])
  = ["A"; "2"]%string.
Proof.
  rewrite (error_de_lectura_pierde_la_linea (SerialPort.mk 3 true) EmptyString
             EmptyString _ _ [("A"%string, ["010"]%char)] "T1").
  - reflexivity.
  - split; [reflexivity | simpl; lia].
  - unfold SerialPort.sinError.
    intros H. by repeat (apply elem_of_cons in H as [?|H]; [done|]);
                apply not_elem_of_nil in H.
  - repeat constructor; done.
  - repeat constructor.
  - reflexivity.
Defined.

(** The line [T Arduino-1 25]. *)
Lemma identificador_con_palabra_del_banner_witness :
  esRuido "T Arduino-1 25" = true
  ∧ procesarBuffer (λ _, Some (floatDeEntero 25)) extraerIntDecimal 1%positive
      "T Arduino-1 25" 0 sistemaConTermico
    = Some (([], 0), sistemaConTermico).
Proof.
  apply (identificador_con_palabra_del_banner (λ _, Some (floatDeEntero 25))
           extraerIntDecimal 1%positive sistemaConTermico "T Arduino-1 25" 0
           "T"%char "Arduino-1"%string " 25"%string).
  - reflexivity.
  - right. left. reflexivity.
Defined.
